(** * The Obsidian indexer ([src/db_filling.py]) as a state-and-exception program

    The class [ObsidianIndexer] talks to three outside parties: the file tree
    under [obsidian_dir], the Ollama embedding service, and a PostgreSQL store
    with the tables [source_documents] and [document_chunks].  The model keeps
    the store's tables as lists of rows inside a [World], records every SQL
    statement and every HTTP request that the code issues, and lets an
    environment decide which statements fail and what the service answers.
    Python exceptions are an explicit outcome; the world reached when one is
    raised is kept, as in Python.  The handlers of the Telegram bot
    ([src/aio_query.py]) run the same methods on a state that also holds the
    chat. *)
From Stdlib Require Import String Ascii ZArith NArith Bool Lia List.
From Stdlib Require Import Floats QArith DecimalString.
From Stdlib Require Import Sorting.Sorted Sorting.Permutation.
Import ListNotations.

Set Warnings "-inexact-float".

(** * Part I: the model *)

(** ** Python values *)

Module Py.

(** A Python [str] is a sequence of Unicode code points. *)
Definition str := list N.

(** ASCII literals. *)
Definition py (s : string) : str := map N_of_ascii (list_ascii_of_string s).

(** A Python [bytes] object. *)
Definition bytes := list Byte.byte.

Fixpoint str_eqb (a b : str) : bool :=
  match a, b with
  | [], [] => true
  | x :: a', y :: b' => N.eqb x y && str_eqb a' b'
  | _, _ => false
  end.

(** [str.isspace] on one character: the code points CPython treats as
    whitespace. *)
Definition isspace (c : N) : bool :=
  ((9 <=? c) && (c <=? 13) || (28 <=? c) && (c <=? 32)
   || (c =? 133) || (c =? 160) || (c =? 5760)
   || (8192 <=? c) && (c <=? 8202)
   || (c =? 8232) || (c =? 8233) || (c =? 8239) || (c =? 8287)
   || (c =? 12288))%N.

Fixpoint lstrip (s : str) : str :=
  match s with
  | c :: s' => if isspace c then lstrip s' else s
  | [] => []
  end.

(** [s.strip()] *)
Definition strip (s : str) : str := rev (lstrip (rev (lstrip s))).

(** Truth value of a string or list: non-empty. *)
Definition truthy {A} (l : list A) : bool :=
  match l with [] => false | _ => true end.

(** [sep.join(parts)] *)
Fixpoint join (sep : str) (parts : list str) : str :=
  match parts with
  | [] => []
  | [p] => p
  | p :: rest => p ++ sep ++ join sep rest
  end.

(** [pathlib.PurePath.name]: the last component of a [/]-separated path. *)
Fixpoint path_name_from (acc : str) (s : str) : str :=
  match s with
  | [] => acc
  | c :: s' => if (c =? 47)%N then path_name_from [] s' else path_name_from (acc ++ [c]) s'
  end.

Definition path_name (p : str) : str := path_name_from [] p.

(** *** Floats and the [.8f] format *)

(** Decimal digits of a natural number. *)
Definition dec (n : Z) : str := py (NilEmpty.string_of_uint (N.to_uint (Z.to_N n))).

(** The eight fractional digits, zero padded. *)
Definition frac8 (n : Z) : str := tl (dec (10 ^ 8 + n)).

(** Nearest integer to [num / den], ties to even ([den > 0], [num >= 0]). *)
Definition round_half_even (num den : Z) : Z :=
  let q := (num / den)%Z in
  let r := (num mod den)%Z in
  match (2 * r ?= den)%Z with
  | Lt => q
  | Gt => (q + 1)%Z
  | Eq => if Z.even q then q else (q + 1)%Z
  end.

(** [m * 2^e * 10^8], correctly rounded to an integer. *)
Definition scaled_1e8 (m : positive) (e : Z) : Z :=
  if (0 <=? e)%Z then (Zpos m * 2 ^ e * 10 ^ 8)%Z
  else round_half_even (Zpos m * 10 ^ 8) (2 ^ (- e)).

Definition sign_str (s : bool) : str := if s then py "-" else [].

(** [f"{x:.8f}"] on a binary64 value. *)
Definition format_8f (x : float) : str :=
  match Prim2SF x with
  | S754_nan => py "nan"
  | S754_infinity s => sign_str s ++ py "inf"
  | S754_zero s => sign_str s ++ py "0.00000000"
  | S754_finite s m e =>
      let n := scaled_1e8 m e in
      sign_str s ++ dec (n / 10 ^ 8) ++ py "." ++ frac8 (n mod 10 ^ 8)
  end.

(** ["[" + ",".join(f"{x:.8f}" for x in embedding) + "]"] *)
Definition vec_str (embedding : list float) : str :=
  py "[" ++ join (py ",") (map format_8f embedding) ++ py "]".

(** [np.linalg.norm] of a one-dimensional array: the square root of the dot
    product of the array with itself.  The order in which the products are
    added is the BLAS's; here they are added from left to right. *)
Definition linalg_norm (v : list float) : float :=
  PrimFloat.sqrt (fold_left (fun acc x => acc + x * x)%float v 0%float).

(** [embedding /= np.linalg.norm(embedding)]: NumPy turns the list into an
    array and divides every component; a zero divisor gives [nan] or an
    infinity and a warning, not an exception. *)
Definition normalize (v : list float) : list float :=
  let n := linalg_norm v in
  map (fun x => (x / n)%float) v.

End Py.
Import Py.

(** ** Rows, statements and the world *)

(** A row of [source_documents]. *)
Record DocRow := {
  doc_id : Z;
  file_path : str;
  file_hash : str;
  last_indexed_at : option Z
}.

(** The [metadata] dictionary built in [process_markdown_file].  The store
    keeps its [json.dumps] text and [search_similar] reads it back with
    [json.loads]; both are the identity on this shape, so the row holds the
    dictionary itself. *)
Record Metadata := {
  meta_file_name : str;
  chunk_index : nat;
  headers : list (str * str);
  meta_file_path : str
}.

(** A row of [document_chunks]. *)
Record ChunkRow := {
  chunk_id : Z;
  source_id : Z;
  chunk_text : str;
  embedding : str;
  metadata : Metadata
}.

Record Store := {
  source_documents : list DocRow;
  document_chunks : list ChunkRow;
  source_documents_id_seq : Z;
  document_chunks_id_seq : Z
}.

(** A langchain [Document] as returned by the splitter. *)
Record Document := {
  page_content : str;
  doc_metadata : list (str * str)
}.

(** One element of the list returned by [process_markdown_file]. *)
Record Chunk := {
  text : str;
  chunk_metadata : Metadata
}.

(** One row of the nearest-neighbour query, and one element of the list
    returned by [search_similar]. *)
Record SearchResult := {
  res_text : str;
  res_metadata : Metadata;
  res_file_path : str;
  distance : Q
}.

(** What the code sends to the store, in the order it is sent. *)
Inductive Stmt :=
| Connect
| Close
| SelectFileHash (relative_path : str)
| SelectId (relative_path : str)
| UpdateDocument (hash relative_path : str)
| DeleteChunks (id : Z)
| InsertDocument (relative_path hash : str)
| InsertChunk (id : Z) (chunk_text vec : str) (meta : Metadata)
| SelectNearest (query_vec : str) (limit : Z).

Definition is_write (s : Stmt) : bool :=
  match s with
  | UpdateDocument _ _ | DeleteChunks _ | InsertDocument _ _ | InsertChunk _ _ _ _ => true
  | _ => false
  end.

(** Exceptions that reach the [except Exception] clauses. *)
Inductive Exn :=
| EmbeddingFailed (error_text : str)    (* the [Exception] raised by [get_embedding] *)
| ClientError                            (* aiohttp could not reach the service *)
| PostgresError (op_no : nat)            (* asyncpg error on the store operation [op_no] *)
| OSError (file : str).                  (* [open] could not open the file *)

(** Lines written with [print]. *)
Inductive Msg :=
| BadEncoding (file : str)
| UpToDate (name : str)
| Processing (name : str)
| NoChunks (name : str)
| Indexed (name : str) (n : nat)
| ChunkFailed (e : Exn)
| FileFailed (file : str) (e : Exn)
| Found (n : nat).

Record World := {
  db : Store;
  pg_log : list Stmt;       (* operations sent to the store *)
  http_log : list str;      (* prompts posted to the embedding service *)
  stdout : list Msg
}.

(** ** The environment *)

(** Answer of the embedding service to one request.  [Http200] carries the
    ["embedding"] field of a well-formed body. *)
Inductive Response :=
| Http200 (embedding : list float)
| HttpStatus (error_text : str)
| NoConnection.

(** hashlib's SHA-256 object, what text-mode [open] with [encoding='utf-8']
    makes of a file's bytes, and langchain's [MarkdownHeaderTextSplitter]
    configured as in [__init__]. *)
Record Libraries := {
  sha256_state : Type;
  sha256_new : sha256_state;
  sha256_update : sha256_state -> bytes -> sha256_state;
  sha256_hexdigest : sha256_state -> str;
  decode_utf8 : bytes -> option str;      (* [None]: [UnicodeDecodeError] *)
  split_text : str -> list Document
}.

(** The directory [obsidian_dir]: the relative paths that [rglob("*.md")]
    yields, which of them [open] can open (a directory whose name ends in
    [.md] is listed too, and a file may not be readable), and the bytes of
    each file that can be opened.  An entry is named by its path relative to
    [obsidian_dir]. *)
Record Tree := {
  rglob_md : list str;
  can_open : str -> bool;
  read_bytes : str -> bytes
}.

(** PostgreSQL with pgvector.  The schema is not part of the repository: the
    default of [last_indexed_at] on insertion and the distance operator
    [<->] on two vector literals are taken from the server. *)
Record Postgres := {
  store_fault : nat -> bool;              (* does operation number [n] fail? *)
  current_timestamp : nat -> Z;           (* [CURRENT_TIMESTAMP] during operation [n] *)
  default_last_indexed_at : Z -> option Z;
  l2_distance : str -> str -> Q
}.

Record Env := {
  lib : Libraries;
  tree : Tree;
  ollama : nat -> str -> Response;        (* answer to request number [n] *)
  pg : Postgres
}.

(** ** A monad for state and exceptions *)

Inductive Outcome (A : Type) :=
| Ret (a : A)
| Raise (e : Exn).
Arguments Ret {A} a.
Arguments Raise {A} e.

Definition M (A : Type) := World -> Outcome A * World.

Definition ret {A} (a : A) : M A := fun w => (Ret a, w).

Definition raise {A} (e : Exn) : M A := fun w => (Raise e, w).

Definition bind {A B} (m : M A) (k : A -> M B) : M B :=
  fun w =>
    match m w with
    | (Ret a, w') => k a w'
    | (Raise e, w') => (Raise e, w')
    end.

(** [try: body  except Exception as e: handler(e)] *)
Definition try_except {A} (body : M A) (handler : Exn -> M A) : M A :=
  fun w =>
    match body w with
    | (Ret a, w') => (Ret a, w')
    | (Raise e, w') => handler e w'
    end.

(** [try: body  finally: cleanup] *)
Definition try_finally {A} (body : M A) (cleanup : M unit) : M A :=
  fun w =>
    match body w with
    | (r, w') =>
        match cleanup w' with
        | (Ret _, w'') => (r, w'')
        | (Raise e, w'') => (Raise e, w'')
        end
    end.

Declare Scope py_scope.
Delimit Scope py_scope with py.
Notation "x <- c ;; k" := (bind c (fun x => k))
  (at level 61, c at next level, right associativity) : py_scope.
Notation "c ;; k" := (bind c (fun _ => k))
  (at level 61, right associativity) : py_scope.
Open Scope py_scope.

(** [for x in xs: body(x)] *)
Fixpoint for_each {A} (xs : list A) (body : A -> M unit) : M unit :=
  match xs with
  | [] => ret tt
  | x :: rest => body x ;; for_each rest body
  end.

Definition print (m : Msg) : M unit :=
  fun w => (Ret tt, {| db := db w; pg_log := pg_log w; http_log := http_log w;
                       stdout := stdout w ++ [m] |}).

(** The call of a function that leaves the world as it is. *)
Definition returned {A} (o : Outcome A) : M A := fun w => (o, w).

Definition run {A} (m : M A) (w : World) : World := snd (m w).
Definition result {A} (m : M A) (w : World) : Outcome A := fst (m w).

(** ** What each SQL statement does to the tables *)

Definition path_is (p : str) (r : DocRow) : bool := str_eqb (file_path r) p.

(** [SELECT ... FROM source_documents WHERE file_path = $1] through
    [fetchrow]: the first matching row, if any. *)
Definition fetch_document (p : str) (st : Store) : option DocRow :=
  find (path_is p) (source_documents st).

(** [UPDATE source_documents SET file_hash = $1, last_indexed_at =
    CURRENT_TIMESTAMP WHERE file_path = $2] *)
Definition touch (h p : str) (now : Z) (r : DocRow) : DocRow :=
  if path_is p r
  then {| doc_id := doc_id r; file_path := file_path r; file_hash := h;
          last_indexed_at := Some now |}
  else r.

Definition sql_update_document (h p : str) (now : Z) (st : Store) : Store :=
  {| source_documents := map (touch h p now) (source_documents st);
     document_chunks := document_chunks st;
     source_documents_id_seq := source_documents_id_seq st;
     document_chunks_id_seq := document_chunks_id_seq st |}.

(** [DELETE FROM document_chunks WHERE source_id = $1] *)
Definition sql_delete_chunks (id : Z) (st : Store) : Store :=
  {| source_documents := source_documents st;
     document_chunks := filter (fun c => negb (source_id c =? id)%Z) (document_chunks st);
     source_documents_id_seq := source_documents_id_seq st;
     document_chunks_id_seq := document_chunks_id_seq st |}.

(** [INSERT INTO source_documents (file_path, file_hash) VALUES ($1, $2)
    RETURNING id]: the id comes from the table's sequence. *)
Definition sql_insert_document (p h : str) (dflt : option Z) (st : Store) : Z * Store :=
  let id := source_documents_id_seq st in
  (id,
   {| source_documents := source_documents st ++
        [{| doc_id := id; file_path := p; file_hash := h; last_indexed_at := dflt |}];
      document_chunks := document_chunks st;
      source_documents_id_seq := (id + 1)%Z;
      document_chunks_id_seq := document_chunks_id_seq st |}).

(** [INSERT INTO document_chunks (source_id, chunk_text, embedding, metadata)
    VALUES ($1, $2, $3, $4)] *)
Definition sql_insert_chunk (sid : Z) (t vec : str) (meta : Metadata) (st : Store) : Store :=
  let id := document_chunks_id_seq st in
  {| source_documents := source_documents st;
     document_chunks := document_chunks st ++
       [{| chunk_id := id; source_id := sid; chunk_text := t; embedding := vec;
           metadata := meta |}];
     source_documents_id_seq := source_documents_id_seq st;
     document_chunks_id_seq := (id + 1)%Z |}.

(** The query of [search_similar]:
    [FROM document_chunks dc JOIN source_documents sd ON dc.source_id = sd.id]. *)
Definition joined (dist : str -> str -> Q) (q : str) (st : Store) : list SearchResult :=
  flat_map
    (fun dc =>
       map (fun sd => {| res_text := chunk_text dc; res_metadata := metadata dc;
                         res_file_path := file_path sd;
                         distance := dist (embedding dc) q |})
           (filter (fun sd => (source_id dc =? doc_id sd)%Z) (source_documents st)))
    (document_chunks st).

(** [ORDER BY dc.embedding <-> $1]: ascending; rows at the same distance keep
    their order. *)
Fixpoint insert_by_distance (r : SearchResult) (l : list SearchResult) : list SearchResult :=
  match l with
  | [] => [r]
  | x :: l' =>
      if Qle_bool (distance r) (distance x) then r :: l
      else x :: insert_by_distance r l'
  end.

Definition order_by_distance (l : list SearchResult) : list SearchResult :=
  fold_right insert_by_distance [] l.

(** [... LIMIT $2] for a limit that is not negative. *)
Definition sql_select_nearest (dist : str -> str -> Q) (q : str) (limit : Z) (st : Store)
  : list SearchResult :=
  firstn (Z.to_nat limit) (order_by_distance (joined dist q st)).

(** ** The methods of [ObsidianIndexer] *)

Section Indexer.

Variable env : Env.

Definition log_stmt (s : Stmt) (w : World) : World :=
  {| db := db w; pg_log := pg_log w ++ [s]; http_log := http_log w; stdout := stdout w |}.

Definition set_db (st : Store) (w : World) : World :=
  {| db := st; pg_log := pg_log w; http_log := http_log w; stdout := stdout w |}.

(** One round trip to the store.  The operation is numbered by its position
    in the log; when the server fails it the tables are left as they were. *)
Definition pg_call {A} (s : Stmt) (sem : nat -> Store -> A * Store) : M A :=
  fun w =>
    let n := length (pg_log w) in
    let w' := log_stmt s w in
    if store_fault (pg env) n then (Raise (PostgresError n), w')
    else let (a, st) := sem n (db w) in (Ret a, set_db st w').

(** [asyncpg.connect] with [self.db_config] *)
Definition connect : M unit := pg_call Connect (fun _ st => (tt, st)).

(** [conn.close()] *)
Definition close : M unit := fun w => (Ret tt, log_stmt Close w).

(** [calculate_file_hash]: the file is read in blocks of 4096 bytes until
    the empty block. *)
Fixpoint read_blocks (fuel : nat) (size : nat) (data : bytes) : list bytes :=
  match fuel with
  | O => []
  | S fuel' =>
      match data with
      | [] => []
      | _ => firstn size data :: read_blocks fuel' size (skipn size data)
      end
  end.

(** [calculate_file_hash]: it touches neither the store nor the service
    and prints nothing; [open] raises for an entry that cannot be opened. *)
Definition calculate_file_hash (file_path : str) : Outcome str :=
  if can_open (tree env) file_path
  then
    let data := read_bytes (tree env) file_path in
    let hash_sha256 :=
      fold_left (sha256_update (lib env)) (read_blocks (length data) 4096 data)
                (sha256_new (lib env)) in
    Ret (sha256_hexdigest (lib env) hash_sha256)
  else Raise (OSError file_path).

(** [get_embedding] *)
Definition get_embedding (text : str) : M (list float) :=
  fun w =>
    let n := length (http_log w) in
    let w' := {| db := db w; pg_log := pg_log w; http_log := http_log w ++ [text];
                 stdout := stdout w |} in
    match ollama env n text with
    | Http200 v => (Ret v, w')
    | HttpStatus error_text => (Raise (EmbeddingFailed error_text), w')
    | NoConnection => (Raise ClientError, w')
    end.

(** The loop [for i, chunk in enumerate(chunks)] of [process_markdown_file],
    from index [i] on. *)
Fixpoint processed_chunks (file_path : str) (i : nat) (chunks : list Document) : list Chunk :=
  match chunks with
  | [] => []
  | chunk :: rest =>
      let chunk_text := strip (page_content chunk) in
      if negb (truthy chunk_text) then processed_chunks file_path (S i) rest
      else
        {| text := chunk_text;
           chunk_metadata :=
             {| meta_file_name := path_name file_path;
                chunk_index := i;
                headers := doc_metadata chunk;
                meta_file_path := file_path |} |}
        :: processed_chunks file_path (S i) rest
  end.

(** [process_markdown_file]: only [UnicodeDecodeError] is caught; the
    exception of [open] goes to the caller. *)
Definition process_markdown_file (file_path : str) : M (list Chunk) :=
  if can_open (tree env) file_path
  then
    match decode_utf8 (lib env) (read_bytes (tree env) file_path) with
    | None => print (BadEncoding file_path) ;; ret []
    | Some content =>
        if negb (truthy (strip content)) then ret []
        else
          let chunks := split_text (lib env) content in
          ret (processed_chunks file_path 0 chunks)
    end
  else raise (OSError file_path).

(** [check_file_needs_update] *)
Definition check_file_needs_update (relative_path file_hash' : str) : M bool :=
  result_row <- pg_call (SelectFileHash relative_path)
                  (fun _ st => (fetch_document relative_path st, st)) ;;
  match result_row with
  | None => ret true
  | Some r => ret (negb (str_eqb (file_hash r) file_hash'))
  end.

(** [update_source_document] *)
Definition update_source_document (relative_path file_hash' : str) : M Z :=
  existing <- pg_call (SelectId relative_path)
                (fun _ st => (fetch_document relative_path st, st)) ;;
  match existing with
  | Some r =>
      pg_call (UpdateDocument file_hash' relative_path)
        (fun n st => (tt, sql_update_document file_hash' relative_path
                            (current_timestamp (pg env) n) st)) ;;
      pg_call (DeleteChunks (doc_id r))
        (fun _ st => (tt, sql_delete_chunks (doc_id r) st)) ;;
      ret (doc_id r)
  | None =>
      pg_call (InsertDocument relative_path file_hash')
        (fun n st => sql_insert_document relative_path file_hash'
                       (default_last_indexed_at (pg env) (current_timestamp (pg env) n)) st)
  end.

(** The body of the loop of [insert_chunks]. *)
Definition insert_chunk (source_id : Z) (chunk : Chunk) : M unit :=
  try_except
    (embedding <- get_embedding (text chunk) ;;
     let embedding := normalize embedding in
     let vec := vec_str embedding in
     pg_call (InsertChunk source_id (text chunk) vec (chunk_metadata chunk))
       (fun _ st => (tt, sql_insert_chunk source_id (text chunk) vec (chunk_metadata chunk) st)))
    (fun e => print (ChunkFailed e)).

(** [insert_chunks] *)
Definition insert_chunks (source_id : Z) (chunks : list Chunk) : M unit :=
  for_each chunks (insert_chunk source_id).

(** [index_file] *)
Definition index_file (file_path : str) : M unit :=
  try_except
    (file_hash <- returned (calculate_file_hash file_path) ;;
     needs <- check_file_needs_update file_path file_hash ;;
     if negb needs then print (UpToDate (path_name file_path))
     else
       print (Processing (path_name file_path)) ;;
       chunks <- process_markdown_file file_path ;;
       if negb (truthy chunks) then print (NoChunks (path_name file_path))
       else
         source_id <- update_source_document file_path file_hash ;;
         insert_chunks source_id chunks ;;
         print (Indexed (path_name file_path) (length chunks)))
    (fun e => print (FileFailed file_path e)).

(** [index_all_files] *)
Definition index_all_files : M unit :=
  connect ;;
  try_finally
    (let markdown_files := rglob_md (tree env) in
     print (Found (length markdown_files)) ;;
     for_each markdown_files index_file)
    close.

(** The [fetch] of [search_similar]; PostgreSQL rejects a negative LIMIT. *)
Definition fetch_nearest (query_vec : str) (limit : Z) : M (list SearchResult) :=
  if (limit <? 0)%Z
  then fun w => (Raise (PostgresError (length (pg_log w))),
                 log_stmt (SelectNearest query_vec limit) w)
  else pg_call (SelectNearest query_vec limit)
         (fun _ st => (sql_select_nearest (l2_distance (pg env)) query_vec limit st, st)).

(** [search_similar] *)
Definition search_similar (query : str) (limit : Z) : M (list SearchResult) :=
  connect ;;
  try_finally
    (query_embedding <- get_embedding query ;;
     let query_embedding := normalize query_embedding in
     let query_vec_str := vec_str query_embedding in
     results <- fetch_nearest query_vec_str limit ;;
     ret results)
    close.

End Indexer.

(** ** Notions used in the statements *)

(** A property of the world that a program keeps on every exit, normal or
    exceptional. *)
Definition preserves {A} (I : World -> Prop) (m : M A) : Prop :=
  forall w, I w -> I (run m w).

(** The schema's uniqueness of [file_path]. *)
Definition unique_paths (st : Store) : Prop :=
  NoDup (map file_path (source_documents st)).

(** The world after a prompt has been posted to the embedding service. *)
Definition posted (t : str) (w : World) : World :=
  {| db := db w; pg_log := pg_log w; http_log := http_log w ++ [t]; stdout := stdout w |}.

(** The row that [insert_chunks] sends for a chunk whose embedding is [v]. *)
Definition chunk_insert (sid : Z) (c : Chunk) (v : list float) : Stmt :=
  InsertChunk sid (text c) (vec_str (normalize v)) (chunk_metadata c).

(** Text and metadata, of a stored row and of a chunk to store. *)
Definition row_content (r : ChunkRow) : str * Metadata := (chunk_text r, metadata r).
Definition chunk_content (c : Chunk) : str * Metadata := (text c, chunk_metadata c).

(** A subsequence: some elements dropped, the order kept. *)
Inductive subseq {A : Type} : list A -> list A -> Prop :=
| subseq_nil : subseq [] []
| subseq_drop (x : A) (l1 l2 : list A) : subseq l1 l2 -> subseq l1 (x :: l2)
| subseq_keep (x : A) (l1 l2 : list A) : subseq l1 l2 -> subseq (x :: l1) (x :: l2).

(** The order of the results of a search. *)
Definition closer (a b : SearchResult) : Prop := (distance a <= distance b)%Q.

(** The [chunk_index] of a chunk and of a stored row. *)
Definition index_of (c : Chunk) : nat := chunk_index (chunk_metadata c).
Definition row_index (r : ChunkRow) : nat := chunk_index (metadata r).

(** A segment that survives [strip]. *)
Definition nonblank (d : Document) : bool := truthy (strip (page_content d)).

Section Notions.

Variable env : Env.

(** The fingerprint of a file that can be opened: the value of
    [calculate_file_hash]. *)
Definition fingerprint (p : str) : str :=
  let data := read_bytes (tree env) p in
  sha256_hexdigest (lib env)
    (fold_left (sha256_update (lib env)) (read_blocks (length data) 4096 data)
               (sha256_new (lib env))).

(** [index_file] from the check on, for a file whose fingerprint is [h]. *)
Definition index_opened (p h : str) : M unit :=
  try_except
    (needs <- check_file_needs_update env p h ;;
     if negb needs then print (UpToDate (path_name p))
     else
       print (Processing (path_name p)) ;;
       chunks <- process_markdown_file env p ;;
       if negb (truthy chunks) then print (NoChunks (path_name p))
       else
         source_id <- update_source_document env p h ;;
         insert_chunks env source_id chunks ;;
         print (Indexed (path_name p) (length chunks)))
    (fun e => print (FileFailed p e)).

(** The value of [process_markdown_file] on a file that can be opened; it
    does not depend on the world. *)
Definition chunks_of (p : str) : list Chunk :=
  match decode_utf8 (lib env) (read_bytes (tree env) p) with
  | None => []
  | Some content =>
      if negb (truthy (strip content)) then []
      else processed_chunks p 0 (split_text (lib env) content)
  end.

(** What makes [index_file] stop after the check, before it writes: the
    stored fingerprint is the current one, or the file gives no chunk. *)
Definition nothing_to_do (p : str) (st : Store) : Prop :=
  (exists r, fetch_document p st = Some r /\ calculate_file_hash env p = Ret (file_hash r))
  \/ (can_open (tree env) p = true /\ chunks_of p = []).

End Notions.

(** Two environments with the same libraries and the same files; the
    services may differ. *)
Definition same_content (env1 env2 : Env) : Prop :=
  lib env2 = lib env1 /\ tree env2 = tree env1.

(** ** A small vault on which the model runs *)

Module Demo.

Definition utf8 (s : string) : bytes := list_byte_of_string s.

Definition newline : string := String (ascii_of_nat 10) EmptyString.

Fixpoint unlines (ls : list string) : string :=
  match ls with
  | [] => EmptyString
  | [l] => l
  | l :: rest => (l ++ newline ++ unlines rest)%string
  end.

(** The codec on ASCII content; other content is rejected. *)
Definition ascii_text (b : bytes) : option str :=
  if forallb (fun x => (Byte.to_N x <? 128)%N) b then Some (map Byte.to_N b) else None.

Definition three_sections : string := unlines ["# A"; "x"; "# B"; "y"; "# C"; "z"]%string.

(** SHA-256 digests of the contents used below.  The hash object of the
    vault collects the blocks it is fed and looks the digest up here; only
    the equality of digests matters to the indexer. *)
Definition digests : list (string * string) :=
  [ ("hello"%string,
     "2cf24dba5fb0a30e26e83b2ac5b9e29e1b161e5c1fa7425e73043362938b9824"%string);
    ("world"%string,
     "486ea46224d1bb4fb680f34f7c9ad96a8f24ec88be73ea8e5a6c65260e9cb8a7"%string);
    ("hello again"%string,
     "3908c567feda72bc0dbdb2dff040fe0d3470dcd51b942374378a476930dbf6b3"%string);
    (three_sections,
     "afecce24683e8b96a48f1a0ab2c5f038a14cbfa26a38842391061f145fa995a3"%string) ].

Definition digest_of (data : bytes) : str :=
  match find (fun kv => String.eqb (fst kv) (string_of_list_byte data)) digests with
  | Some kv => py (snd kv)
  | None => py "e3b0c44298fc1c149afbf4c8996fb92427ae41e4649b934ca495991b7852b855"
  end.

Definition section (title body : string) : Document :=
  {| page_content := py body; doc_metadata := [(py "Header 1", py title)] |}.

(** What the splitter returns on the contents used below: a text without
    headings is one document; [three_sections] is cut at its headings. *)
Definition split (content : str) : list Document :=
  if str_eqb content (py three_sections)
  then [section "A" "x"; section "B" "y"; section "C" "z"]
  else [{| page_content := strip content; doc_metadata := [] |}].

Definition libraries : Libraries :=
  {| sha256_state := bytes;
     sha256_new := [];
     sha256_update := fun st block => st ++ block;
     sha256_hexdigest := digest_of;
     decode_utf8 := ascii_text;
     split_text := split |}.

Definition vault (files : list (string * string)) : Tree :=
  {| rglob_md := map (fun f => py (fst f)) files;
     can_open := fun p => existsb (fun f => str_eqb (py (fst f)) p) files;
     read_bytes := fun p =>
       match find (fun f => str_eqb (py (fst f)) p) files with
       | Some f => utf8 (snd f)
       | None => []
       end |}.

(** The tree with a directory whose name ends in [.md]: [rglob] lists it
    and [open] cannot open it. *)
Definition with_directory (name : string) (t : Tree) : Tree :=
  {| rglob_md := py name :: rglob_md t;
     can_open := fun p => negb (str_eqb (py name) p) && can_open t p;
     read_bytes := read_bytes t |}.

(** A server that fails the operations whose numbers are listed. *)
Definition postgres (failing : list nat) : Postgres :=
  {| store_fault := fun n => existsb (Nat.eqb n) failing;
     current_timestamp := fun n => Z.of_nat n;
     default_last_indexed_at := fun now => Some now;
     l2_distance := fun a b => if str_eqb a b then 0%Q else 1%Q |}.

Definition make (files : list (string * string)) (service : nat -> str -> Response)
  (failing : list nat) : Env :=
  {| lib := libraries; tree := vault files; ollama := service; pg := postgres failing |}.

Definition empty_store : Store :=
  {| source_documents := []; document_chunks := [];
     source_documents_id_seq := 1; document_chunks_id_seq := 1 |}.

Definition fresh : World :=
  {| db := empty_store; pg_log := []; http_log := []; stdout := [] |}.

(** Services. *)
Definition always (v : list float) : nat -> str -> Response := fun _ _ => Http200 v.
Definition down : nat -> str -> Response := fun _ _ => HttpStatus (py "model not found").
Definition failing_on (t : string) (v : list float) : nat -> str -> Response :=
  fun _ prompt => if str_eqb prompt (py t) then HttpStatus (py "internal error") else Http200 v.

End Demo.

(** ** The runs used as witnesses and counterexamples *)

Module Runs.

(** One note, indexed once with a working service. *)
Definition one_note : Env := Demo.make [("a.md", "hello")]%string (Demo.always [3; 4]%float) [].
Definition indexed : World := run (index_all_files one_note) Demo.fresh.

(** The same note while the embedding service answers with an error. *)
Definition service_down : Env := Demo.make [("a.md", "hello")]%string Demo.down [].
Definition chunkless : World := run (index_all_files service_down) Demo.fresh.

(** The note after an edit. *)
Definition edited : Env :=
  Demo.make [("a.md", "hello again")]%string (Demo.always [3; 4]%float) [].

(** A note that holds blanks only. *)
Definition blank_note : Env :=
  Demo.make [("blank.md", "   ")]%string (Demo.always [3; 4]%float) [].

Definition hello_digest : str :=
  py "2cf24dba5fb0a30e26e83b2ac5b9e29e1b161e5c1fa7425e73043362938b9824".

Definition hello_row : DocRow :=
  {| doc_id := 1; file_path := py "a.md"; file_hash := hello_digest;
     last_indexed_at := Some 3%Z |}.

End Runs.

Module Outage.

(** Two notes; the store fails operation 1, the check of the first note. *)
Definition env : Env :=
  Demo.make [("a.md", "hello"); ("b.md", "world")]%string (Demo.always [3; 4]%float) [1%nat].

(** The world after that pass, and a store that fails the second operation
    sent from then on: the query of a search. *)
Definition after : World := run (index_all_files env) Demo.fresh.


End Outage.

Module Degenerate.

(** The service answers 200 with the zero vector. *)
Definition env : Env := Demo.make [("a.md", "hello")]%string (Demo.always [0; 0]%float) [].

Definition hello : Chunk :=
  {| text := py "hello";
     chunk_metadata := {| meta_file_name := py "a.md"; chunk_index := 0;
                          headers := []; meta_file_path := py "a.md" |} |}.

End Degenerate.

Module Library.

(** Three notes embedded as three different vectors, then a query. *)
Definition service : nat -> str -> Response :=
  fun _ prompt =>
    if str_eqb prompt (py "hello") then Http200 [3; 4]%float
    else if str_eqb prompt (py "world") then Http200 [4; 3]%float
    else Http200 [1; 0]%float.

Definition env : Env :=
  Demo.make [("a.md", "hello"); ("b.md", "world"); ("c.md", "hello again")]%string service [].

Definition filled : World := run (index_all_files env) Demo.fresh.

End Library.

Module Sections.

(** A note of three sections; the service fails on the second. *)
Definition env : Env :=
  Demo.make [("n.md"%string, Demo.three_sections)] (Demo.failing_on "y" [3; 4]%float) [].

Definition healthy : Env :=
  Demo.make [("n.md"%string, Demo.three_sections)] (Demo.always [3; 4]%float) [].

End Sections.

Module Twice.

(** Three notes, one of them blank; the second pass runs while the
    embedding service is down and the store fails its third operation. *)
Definition files : list (string * string) :=
  [("a.md", "hello"); ("blank.md", "   "); ("n.md", Demo.three_sections)]%string.

Definition first : Env := Demo.make files (Demo.always [3; 4]%float) [].
Definition after_first : World := run (index_all_files first) Demo.fresh.
Definition second : Env := Demo.make files Demo.down [(length (pg_log after_first) + 2)%nat].

End Twice.

Module Overflow.

(** The service answers 200 with two components of 1e200: their squares
    are beyond the range of binary64. *)
Definition env : Env :=
  Demo.make [("a.md", "hello")]%string (Demo.always [1e200; 1e200]%float) [].

End Overflow.

(** ** Notions used in the further properties *)

(** The INSERT statements that [insert_chunks] sends for a list of chunks
    when its first request has number [n]: one for each chunk whose request
    is answered with a vector. *)
Fixpoint inserts_for (env : Env) (sid : Z) (n : nat) (chunks : list Chunk) : list Stmt :=
  match chunks with
  | [] => []
  | c :: rest =>
      match ollama env n (text c) with
      | Http200 v => chunk_insert sid c v :: inserts_for env sid (S n) rest
      | _ => inserts_for env sid (S n) rest
      end
  end.

(** The ids of both tables are keys, and the sequences are ahead of them. *)
Definition keys_fresh (st : Store) : Prop :=
  NoDup (map doc_id (source_documents st)) /\
  (forall r, In r (source_documents st) -> (doc_id r < source_documents_id_seq st)%Z) /\
  NoDup (map chunk_id (document_chunks st)) /\
  (forall c, In c (document_chunks st) -> (chunk_id c < document_chunks_id_seq st)%Z).

(** Every chunk row belongs to a document row. *)
Definition chunks_owned (st : Store) : Prop :=
  forall c, In c (document_chunks st) ->
            exists d, In d (source_documents st) /\ doc_id d = source_id c.


Module Stale.

(** The note of [Runs.indexed] after an edit, and a store that fails the
    fourth operation from now on: the DELETE of the upsert. *)
Definition env : Env :=
  Demo.make [("a.md", "hello again")]%string (Demo.always [3; 4]%float)
    [(length (pg_log Runs.indexed) + 3)%nat].

End Stale.

(** ** Programs over a larger state *)

(** [raw_start] sends statements that no other method sends, and the
    handlers of [src/aio_query.py] talk to Telegram and keep the global
    [indexer]: both act on a state that holds a [World] and more, and the
    handlers meet exceptions that the indexer does not raise.  The monad of
    the indexer again, over any state and any type of exceptions. *)
Module Layer.

Section Over.

Variables St E : Type.

Inductive Res (A : Type) :=
| Ok (a : A)
| Err (e : E).

Definition P (A : Type) := St -> Res A * St.

Definition ret {A} (a : A) : P A := fun s => (Ok A a, s).

Definition raise {A} (e : E) : P A := fun s => (Err A e, s).

Definition bind {A B} (m : P A) (k : A -> P B) : P B :=
  fun s =>
    match m s with
    | (Ok _ a, s') => k a s'
    | (Err _ e, s') => (Err B e, s')
    end.

(** [try: body  except Exception as e: handler(e)] *)
Definition try_except {A} (body : P A) (handler : E -> P A) : P A :=
  fun s =>
    match body s with
    | (Ok _ a, s') => (Ok A a, s')
    | (Err _ e, s') => handler e s'
    end.

(** [try: body  finally: cleanup] *)
Definition try_finally {A} (body : P A) (cleanup : P unit) : P A :=
  fun s =>
    match body s with
    | (r, s') =>
        match cleanup s' with
        | (Ok _ _, s'') => (r, s'')
        | (Err _ e, s'') => (Err A e, s'')
        end
    end.

(** [for x in xs: body(x)] *)
Fixpoint for_each {A} (xs : list A) (body : A -> P unit) : P unit :=
  match xs with
  | [] => ret tt
  | x :: rest => bind (body x) (fun _ => for_each rest body)
  end.

Definition after {A} (m : P A) (s : St) : St := snd (m s).
Definition outcome {A} (m : P A) (s : St) : Res A := fst (m s).

End Over.

Arguments Ok {E A} a.
Arguments Err {E A} e.
Arguments ret {St E A} a.
Arguments raise {St E A} e.
Arguments bind {St E A B} m k.
Arguments try_except {St E A} body handler.
Arguments try_finally {St E A} body cleanup.
Arguments for_each {St E A} xs body.
Arguments after {St E A} m s.
Arguments outcome {St E A} m s.

(** The outcome of a method of the indexer, seen from a caller whose
    exceptions are of type [E]. *)
Definition seen {E A} (inj : Exn -> E) (o : Outcome A) : Res E A :=
  match o with
  | Ret a => Ok a
  | Raise e => Err (inj e)
  end.

End Layer.

Declare Scope layer_scope.
Delimit Scope layer_scope with layer.
Notation "x <- c ;; k" := (Layer.bind c (fun x => k))
  (at level 61, c at next level, right associativity) : layer_scope.
Notation "c ;; k" := (Layer.bind c (fun _ => k))
  (at level 61, right associativity) : layer_scope.

(** ** Clearing the tables: [raw_start] *)

Module Maintenance.

Import Layer.

(** The statements of [raw_start]. *)
Inductive Statement :=
| DeleteAllChunks          (* DELETE FROM document_chunks *)
| DeleteAllDocuments       (* DELETE FROM source_documents *)
| RestartDocumentIds       (* ALTER SEQUENCE source_documents_id_seq RESTART WITH 1 *)
| RestartChunkIds.         (* ALTER SEQUENCE document_chunks_id_seq RESTART WITH 1 *)

(** The lines [raw_start] prints. *)
Inductive Line :=
| Clearing
| ChunksCleared
| DocumentsCleared
| SequencesReset
| AllCleared
| ClearingFailed (e : Exn).

(** The world of the indexer, the statements of [raw_start] sent so far
    and the lines it printed.  Opening and closing the connection are
    recorded in the world's [pg_log], as for the other methods. *)
Record Session := {
  world : World;
  executed : list Statement;
  console : list Line
}.

(** What each statement does to the store. *)
Definition sql (s : Statement) (st : Store) : Store :=
  match s with
  | DeleteAllChunks =>
      {| source_documents := source_documents st;
         document_chunks := [];
         source_documents_id_seq := source_documents_id_seq st;
         document_chunks_id_seq := document_chunks_id_seq st |}
  | DeleteAllDocuments =>
      {| source_documents := [];
         document_chunks := document_chunks st;
         source_documents_id_seq := source_documents_id_seq st;
         document_chunks_id_seq := document_chunks_id_seq st |}
  | RestartDocumentIds =>
      {| source_documents := source_documents st;
         document_chunks := document_chunks st;
         source_documents_id_seq := 1;
         document_chunks_id_seq := document_chunks_id_seq st |}
  | RestartChunkIds =>
      {| source_documents := source_documents st;
         document_chunks := document_chunks st;
         source_documents_id_seq := source_documents_id_seq st;
         document_chunks_id_seq := 1 |}
  end.

Section RawStart.

Variable env : Env.

(** Does the server fail the statement number [n] of [raw_start]?  These
    statements are numbered by their position in [executed]; the exception
    carries that number. *)
Variable execute_fault : nat -> bool.

Local Open Scope layer_scope.

(** A method of the indexer, run on the session's world. *)
Definition in_world {A} (m : M A) : P Session Exn A :=
  fun s =>
    let (o, w) := m (world s) in
    (seen (fun e => e) o, {| world := w; executed := executed s; console := console s |}).

(** [conn.execute] on one of the statements of [raw_start]; when the server
    fails it the tables are left as they were. *)
Definition execute (stmt : Statement) : P Session Exn unit :=
  fun s =>
    let n := length (executed s) in
    if execute_fault n
    then (Err (PostgresError n),
          {| world := world s; executed := executed s ++ [stmt]; console := console s |})
    else (Ok tt,
          {| world := set_db (sql stmt (db (world s))) (world s);
             executed := executed s ++ [stmt];
             console := console s |}).

Definition say (l : Line) : P Session Exn unit :=
  fun s => (Ok tt, {| world := world s; executed := executed s; console := console s ++ [l] |}).

(** [raw_start] *)
Definition raw_start : P Session Exn unit :=
  in_world (connect env) ;;
  try_finally
    (try_except
       (say Clearing ;;
        execute DeleteAllChunks ;;
        say ChunksCleared ;;
        execute DeleteAllDocuments ;;
        say DocumentsCleared ;;
        execute RestartDocumentIds ;;
        execute RestartChunkIds ;;
        say SequencesReset ;;
        say AllCleared)
       (fun e => say (ClearingFailed e) ;; raise e))
    (in_world close).

End RawStart.

(** The statements of [raw_start], in the order it sends them. *)
Definition statements : list Statement :=
  [DeleteAllChunks; DeleteAllDocuments; RestartDocumentIds; RestartChunkIds].

(** A session that starts in the world [w]. *)
Definition session (w : World) : Session :=
  {| world := w; executed := []; console := [] |}.

(** [k] passes of [index_all_files], one after the other. *)
Fixpoint passes (env : Env) (k : nat) (w : World) : World :=
  match k with
  | O => w
  | S k' => passes env k' (run (index_all_files env) w)
  end.

End Maintenance.

(** ** The Telegram bot ([src/aio_query.py]) *)

Module Bot.

Import Layer.

(** What the [except Exception] clauses of the handlers can meet: an
    exception of the indexer, a failed call to Telegram, or the
    [IndexError] of [parts[0]] on an empty list. *)
Inductive Failure :=
| IndexerFailed (e : Exn)
| TelegramError (call : nat)
| IndexError.

(** The texts the bot sends.  Only [Results] is built from data; it is the
    only one sent with [parse_mode="Markdown"]. *)
Inductive Text :=
| Greeting
| Help
| ReindexStarted
| ReindexDone
| ReindexFailed (e : Failure)
| NotInitialised
| Searching
| NothingFound
| Results (response_text : str)
| SearchFailed (e : Failure).

(** The records written through [logger]. *)
Inductive Record_ :=
| InfoInitialising
| InfoIndexing
| InfoIndexed
| InfoStarting
| InfoReady
| ErrorReindex (e : Failure)
| ErrorSearch (e : Failure).

(** The state of the process: the world of the indexer, whether the global
    [indexer] is set (it is only ever set to an [ObsidianIndexer] on
    [OBSIDIAN_DIR] and [DB_CONFIG]), the messages of the bot in the chat in
    the order they were sent, each with its current text, the number of
    calls made to Telegram, and the log. *)
Record Chat := {
  world : World;
  indexer : bool;
  messages : list Text;
  calls : nat;
  log : list Record_
}.

(** [l[i] = x] where the index exists. *)
Fixpoint replace_at {A} (i : nat) (x : A) (l : list A) : list A :=
  match l, i with
  | [], _ => []
  | _ :: rest, O => x :: rest
  | y :: rest, S i' => y :: replace_at i' x rest
  end.

(** *** The text of an answer *)

(** [file_path.split('/')[-1]] *)
Definition last_segment (file_path : str) : str := path_name_from [] file_path.

(** [text.replace('\n', ' ')] *)
Definition replace_newlines (t : str) : str :=
  map (fun c => if (c =? 10)%N then 32%N else c) t.

Definition nl : str := [10%N].

(** U+1F3AF, a space, and the Russian for "Found " *)
Definition found_label : str :=
  [127919; 32; 1053; 1072; 1081; 1076; 1077; 1085; 1086; 32]%N.

(** the Russian for " results for the query: " and an asterisk *)
Definition for_query_label : str :=
  [32; 1088; 1077; 1079; 1091; 1083; 1100; 1090; 1072; 1090; 1086; 1074; 32; 1076; 1083;
   1103; 32; 1079; 1072; 1087; 1088; 1086; 1089; 1072; 58; 32; 42]%N.

(** U+1F4CA, a space, and the Russian for "Relevance: " *)
Definition relevance_label : str :=
  [128202; 32; 1056; 1077; 1083; 1077; 1074; 1072; 1085; 1090; 1085; 1086; 1089; 1090; 1100;
   58; 32]%N.

(** U+1F4DD, a space, and the Russian for "Text: " *)
Definition text_label : str := [128221; 32; 1058; 1077; 1082; 1089; 1090; 58; 32]%N.

(** U+1F4C1, a space, the Russian for "Path: " and a backquote *)
Definition path_label : str := [128193; 32; 1055; 1091; 1090; 1100; 58; 32; 96]%N.

Section Handlers.

Variable env : Env.

(** Does Telegram fail the call number [n] of the process? *)
Variable telegram_fault : nat -> bool.

(** [f"{(1-distance)*100:.1f}"] for the float of this value. *)
Variable relevance : Q -> str.

Local Open Scope layer_scope.

(** The first line of an answer: the header with the number of results and
    the query between asterisks, and an empty line. *)
Definition header (query : str) (results : list SearchResult) : str :=
  found_label ++ dec (Z.of_nat (length results)) ++ for_query_label ++ query
  ++ py "*" ++ nl ++ nl.

(** The four lines for the result number [i], and an empty line. *)
Definition entry (i : nat) (result : SearchResult) : str :=
  let file_name := last_segment (res_file_path result) in
  let distance := distance result in
  let text_preview := replace_newlines (firstn 200 (res_text result)) in
  (py "*" ++ dec (Z.of_nat i) ++ py ". " ++ file_name ++ py "*" ++ nl)
  ++ (relevance_label ++ relevance distance ++ py "%" ++ nl)
  ++ (text_label ++ text_preview ++ py "..." ++ nl)
  ++ (path_label ++ res_file_path result ++ py "`" ++ nl ++ nl).

(** The first loop of [handle_search_query], from the result number [i] on:
    [response_text] grows by one entry per result. *)
Fixpoint response_from (i : nat) (results : list SearchResult) (response_text : str) : str :=
  match results with
  | [] => response_text
  | result :: rest => response_from (S i) rest (response_text ++ entry i result)
  end.

(** The second loop, from the result number [i] on, with the parts closed
    so far and the part being filled. *)
Fixpoint split_from (i : nat) (results : list SearchResult) (parts : list str)
    (current_part : str) : list str * str :=
  match results with
  | [] => (parts, current_part)
  | result :: rest =>
      let part_text := entry i result in
      if (4000 <? length (current_part ++ part_text))%nat
      then split_from (S i) rest (parts ++ [current_part]) part_text
      else split_from (S i) rest parts (current_part ++ part_text)
  end.

(** The parts of a long answer. *)
Definition split_response (query : str) (results : list SearchResult) : list str :=
  let (parts, current_part) := split_from 1 results [] (header query results) in
  if truthy current_part then parts ++ [current_part] else parts.

(** *** Telegram, the log and the indexer *)

(** A method of the indexer, run on the world of the process. *)
Definition in_world {A} (m : M A) : P Chat Failure A :=
  fun c =>
    let (o, w) := m (world c) in
    (seen IndexerFailed o,
     {| world := w; indexer := indexer c; messages := messages c; calls := calls c;
        log := log c |}).

Definition called (c : Chat) (ms : list Text) : Chat :=
  {| world := world c; indexer := indexer c; messages := ms; calls := S (calls c);
     log := log c |}.

(** [message.answer(text)]: a new message of the bot; its handle is its
    position among the bot's messages. *)
Definition answer (t : Text) : P Chat Failure nat :=
  fun c =>
    if telegram_fault (calls c)
    then (Err (TelegramError (calls c)), called c (messages c))
    else (Ok (length (messages c)), called c (messages c ++ [t])).

(** [sent.edit_text(text)] *)
Definition edit_text (sent : nat) (t : Text) : P Chat Failure unit :=
  fun c =>
    if telegram_fault (calls c)
    then (Err (TelegramError (calls c)), called c (messages c))
    else (Ok tt, called c (replace_at sent t (messages c))).

Definition logger (r : Record_) : P Chat Failure unit :=
  fun c =>
    (Ok tt, {| world := world c; indexer := indexer c; messages := messages c;
               calls := calls c; log := log c ++ [r] |}).

(** [indexer = ObsidianIndexer(...)] *)
Definition set_indexer : P Chat Failure unit :=
  fun c =>
    (Ok tt, {| world := world c; indexer := true; messages := messages c;
               calls := calls c; log := log c |}).

(** [indexer is None] *)
Definition indexer_is_none : P Chat Failure bool :=
  fun c => (Ok (negb (indexer c)), c).

(** *** The handlers *)

(** [initialize_indexer] *)
Definition initialize_indexer : P Chat Failure unit :=
  logger InfoInitialising ;;
  set_indexer ;;
  logger InfoIndexing ;;
  in_world (index_all_files env) ;;
  logger InfoIndexed.

(** [cmd_start] *)
Definition cmd_start : P Chat Failure unit :=
  answer Greeting ;; ret tt.

(** [cmd_help] *)
Definition cmd_help : P Chat Failure unit :=
  answer Help ;; ret tt.

(** [cmd_reindex] *)
Definition cmd_reindex : P Chat Failure unit :=
  answer ReindexStarted ;;
  try_except
    (none <- indexer_is_none ;;
     (if none then initialize_indexer else in_world (index_all_files env)) ;;
     answer ReindexDone ;;
     ret tt)
    (fun e =>
       logger (ErrorReindex e) ;;
       answer (ReindexFailed e) ;;
       ret tt).

(** [handle_search_query] on a message with the text [message_text] *)
Definition handle_search_query (message_text : str) : P Chat Failure unit :=
  none <- indexer_is_none ;;
  if none then answer NotInitialised ;; ret tt
  else
    let query := message_text in
    search_message <- answer Searching ;;
    try_except
      (results <- in_world (search_similar env query 10) ;;
       if negb (truthy results) then edit_text search_message NothingFound
       else
         let response_text := response_from 1 results (header query results) in
         if (4000 <? length response_text)%nat
         then
           match split_response query results with
           | [] => raise IndexError
           | first :: others =>
               edit_text search_message (Results first) ;;
               for_each others (fun part => answer (Results part) ;; ret tt)
           end
         else edit_text search_message (Results response_text))
      (fun e =>
         logger (ErrorSearch e) ;;
         edit_text search_message (SearchFailed e)).

(** [on_startup] *)
Definition on_startup : P Chat Failure unit :=
  logger InfoStarting ;;
  initialize_indexer ;;
  logger InfoReady.

End Handlers.

(** The entries of an answer, numbered from [i]: what
    [enumerate(results, i)] gives to the two loops. *)
Fixpoint entries_from (relevance : Q -> str) (i : nat) (results : list SearchResult)
  : list str :=
  match results with
  | [] => []
  | result :: rest => entry relevance i result :: entries_from relevance (S i) rest
  end.


(** A Telegram that accepts every call. *)
Definition reachable : nat -> bool := fun _ => false.

End Bot.

(** ** An answer too long for one message *)

Module Crowded.

(** Three results from notes deep in the vault: paths of more than 1500
    characters. *)
Definition hit (name : string) (d : Q) : SearchResult :=
  let file_path := repeat 97%N 1500 ++ py "/" ++ py name in
  {| res_text := py "hello";
     res_metadata := {| meta_file_name := py name; chunk_index := 0; headers := [];
                        meta_file_path := file_path |};
     res_file_path := file_path;
     distance := d |}.

Definition results : list SearchResult :=
  [hit "a.md" 0; hit "b.md" (1 # 2); hit "c.md" 1].

Definition relevance : Q -> str := fun _ => py "50.0".

End Crowded.

(** * Part II: lemmas *)

(** ** The model runs *)

Example format_third : format_8f (2 / 3)%float = py "0.66666667".
Proof. reflexivity. Qed.

Example format_negative_zero : format_8f (- 0)%float = py "-0.00000000".
Proof. reflexivity. Qed.

Example format_big : format_8f 1234.5%float = py "1234.50000000".
Proof. reflexivity. Qed.

Example vec_str_unit : vec_str (normalize [3; 4]%float) = py "[0.60000000,0.80000000]".
Proof. reflexivity. Qed.

Example strip_spaces : strip (py "  a b ") = py "a b".
Proof. reflexivity. Qed.

Example path_name_nested : path_name (py "notes/daily/today.md") = py "today.md".
Proof. reflexivity. Qed.

Example format_small_values :
  map format_8f [5e-9; 2.5e-9; 1.5e-8; -1e-10]%float =
  map py ["0.00000001"; "0.00000000"; "0.00000001"; "-0.00000000"]%string.
Proof. reflexivity. Qed.

Example hash_in_blocks :
  calculate_file_hash (Demo.make [("a.md", "hello")]%string Demo.down []) (py "a.md") =
  Ret (py "2cf24dba5fb0a30e26e83b2ac5b9e29e1b161e5c1fa7425e73043362938b9824").
Proof. reflexivity. Qed.

Example hash_of_a_directory :
  calculate_file_hash
    {| lib := Demo.libraries;
       tree := Demo.with_directory "old.md" (Demo.vault [("a.md", "hello")]%string);
       ollama := Demo.down; pg := Demo.postgres [] |} (py "old.md") =
  Raise (OSError (py "old.md")).
Proof. reflexivity. Qed.

Example search_finds_the_stored_text :
  match result (search_similar Library.env (py "world") 2) Library.filled with
  | Ret results => map (fun r => (res_file_path r, distance r)) results =
                   [(py "b.md", 0%Q); (py "a.md", 1%Q)]
  | Raise _ => False
  end.
Proof. vm_compute. reflexivity. Qed.

(** ** Reasoning about programs in [M] *)

Lemma str_eqb_refl (a : str) : str_eqb a a = true.
Proof.
  induction a as [|x a IH]; simpl; [reflexivity|].
  now rewrite N.eqb_refl.
Qed.

Lemma str_eqb_eq (a b : str) : str_eqb a b = true <-> a = b.
Proof.
  split.
  - revert b.
    induction a as [|x a IH]; intros [|y b] H; simpl in H; try discriminate; [reflexivity|].
    apply andb_true_iff in H.
    destruct H as [Hxy Hab].
    apply N.eqb_eq in Hxy.
    now rewrite Hxy, (IH b Hab).
  - intros ->.
    apply str_eqb_refl.
Qed.

Lemma str_eqb_neq (a b : str) : str_eqb a b = false <-> a <> b.
Proof.
  split.
  - intros H E.
    apply str_eqb_eq in E.
    congruence.
  - intros H.
    destruct (str_eqb a b) eqn:E; [|reflexivity].
    apply str_eqb_eq in E.
    contradiction.
Qed.

Section Preservation.

Variable I : World -> Prop.

Lemma preserves_ret {A} (a : A) : preserves I (ret a).
Proof. intros w H; exact H. Qed.

Lemma preserves_bind {A B} (m : M A) (k : A -> M B) :
  preserves I m -> (forall a, preserves I (k a)) -> preserves I (bind m k).
Proof.
  intros Hm Hk w Hw.
  specialize (Hm w Hw).
  unfold run, bind in *.
  destruct (m w) as [[a|e] w']; simpl in *; [|exact Hm].
  apply (Hk a w' Hm).
Qed.

Lemma preserves_try_except {A} (body : M A) (handler : Exn -> M A) :
  preserves I body -> (forall e, preserves I (handler e)) ->
  preserves I (try_except body handler).
Proof.
  intros Hb Hh w Hw.
  specialize (Hb w Hw).
  unfold run, try_except in *.
  destruct (body w) as [[a|e] w']; simpl in *; [exact Hb|].
  apply (Hh e w' Hb).
Qed.

Lemma preserves_try_finally {A} (body : M A) (cleanup : M unit) :
  preserves I body -> preserves I cleanup -> preserves I (try_finally body cleanup).
Proof.
  intros Hb Hc w Hw.
  specialize (Hb w Hw).
  unfold run, try_finally in *.
  destruct (body w) as [r w']; simpl in *.
  specialize (Hc w' Hb).
  unfold run in Hc.
  destruct (cleanup w') as [[u|e] w'']; simpl in *; exact Hc.
Qed.

Lemma preserves_for_each {A} (xs : list A) (body : A -> M unit) :
  (forall x, In x xs -> preserves I (body x)) -> preserves I (for_each xs body).
Proof.
  induction xs as [|x xs IH]; intros Hb; simpl.
  - apply preserves_ret.
  - apply preserves_bind.
    + apply Hb; now left.
    + intros _; apply IH.
      intros y Hy; apply Hb; now right.
Qed.

End Preservation.

(** ** Lookups in [source_documents] *)

Lemma path_is_true (p : str) (r : DocRow) : path_is p r = true <-> file_path r = p.
Proof. apply str_eqb_eq. Qed.

Lemma fetch_document_some (p : str) (st : Store) (r : DocRow) :
  fetch_document p st = Some r -> In r (source_documents st) /\ file_path r = p.
Proof.
  intros H.
  apply find_some in H.
  destruct H as [Hin Hp].
  split; [exact Hin|].
  now apply path_is_true.
Qed.

Lemma fetch_document_none (p : str) (st : Store) :
  fetch_document p st = None ->
  forall r, In r (source_documents st) -> file_path r <> p.
Proof.
  intros H r Hin E.
  apply (find_none _ _ H) in Hin.
  apply path_is_true in E.
  congruence.
Qed.

Lemma same_key_same_row {A B} (f : A -> B) (l : list A) (x y : A) :
  NoDup (map f l) -> In x l -> In y l -> f x = f y -> x = y.
Proof.
  induction l as [|a l IH]; simpl; intros Hnd Hx Hy E; [contradiction|].
  inversion Hnd as [|? ? Hnotin Hnd']; subst.
  destruct Hx as [<-|Hx], Hy as [<-|Hy].
  - reflexivity.
  - exfalso; apply Hnotin; rewrite E; now apply in_map.
  - exfalso; apply Hnotin; rewrite <- E; now apply in_map.
  - now apply IH.
Qed.

Lemma fetch_document_unique (p : str) (st : Store) (r : DocRow) :
  unique_paths st -> In r (source_documents st) -> file_path r = p ->
  fetch_document p st = Some r.
Proof.
  intros Hu Hin Hp.
  destruct (fetch_document p st) as [r'|] eqn:E.
  - apply fetch_document_some in E.
    destruct E as [Hin' Hp'].
    f_equal.
    apply (same_key_same_row file_path (source_documents st)); auto.
    congruence.
  - exfalso.
    now apply (fetch_document_none _ _ E r Hin).
Qed.

(** ** One document at a time *)

Section PerFile.

Variable env : Env.

Lemma calculate_file_hash_eq (p : str) :
  calculate_file_hash env p =
  if can_open (tree env) p then Ret (fingerprint env p) else Raise (OSError p).
Proof. reflexivity. Qed.

Lemma hashed_is_opened (p h : str) :
  calculate_file_hash env p = Ret h -> can_open (tree env) p = true /\ h = fingerprint env p.
Proof.
  rewrite calculate_file_hash_eq.
  destruct (can_open (tree env) p); [|discriminate].
  intros [= <-]; auto.
Qed.

Lemma opened_is_hashed (p : str) :
  can_open (tree env) p = true -> calculate_file_hash env p = Ret (fingerprint env p).
Proof. intros H; now rewrite calculate_file_hash_eq, H. Qed.

Lemma index_file_opened (p : str) (w : World) :
  can_open (tree env) p = true ->
  index_file env p w = index_opened env p (fingerprint env p) w.
Proof.
  intros H.
  unfold index_file, index_opened, try_except.
  unfold bind at 1, returned.
  now rewrite calculate_file_hash_eq, H.
Qed.

Lemma index_file_not_opened (p : str) (w : World) :
  can_open (tree env) p = false ->
  index_file env p w = (Ret tt, snd (print (FileFailed p (OSError p)) w)).
Proof.
  intros H.
  unfold index_file, try_except.
  unfold bind at 1, returned.
  now rewrite calculate_file_hash_eq, H.
Qed.

Lemma process_markdown_file_result (p : str) (w : World) :
  can_open (tree env) p = true ->
  result (process_markdown_file env p) w = Ret (chunks_of env p).
Proof.
  intros Ho.
  unfold result, process_markdown_file, chunks_of.
  rewrite Ho.
  destruct (decode_utf8 (lib env) (read_bytes (tree env) p)) as [content|].
  - destruct (negb (truthy (strip content))); reflexivity.
  - reflexivity.
Qed.

Lemma process_markdown_file_frame (p : str) (w : World) :
  let w' := run (process_markdown_file env p) w in
  db w' = db w /\ pg_log w' = pg_log w /\ http_log w' = http_log w.
Proof.
  unfold run, process_markdown_file.
  destruct (can_open (tree env) p); [|simpl; auto].
  destruct (decode_utf8 (lib env) (read_bytes (tree env) p)) as [content|].
  - destruct (negb (truthy (strip content))); simpl; auto.
  - simpl; auto.
Qed.

Lemma process_markdown_file_eq (p : str) (w : World) :
  can_open (tree env) p = true ->
  exists w', process_markdown_file env p w = (Ret (chunks_of env p), w') /\
             db w' = db w /\ pg_log w' = pg_log w /\ http_log w' = http_log w.
Proof.
  intros Ho.
  pose proof (process_markdown_file_result p w Ho) as Hr.
  pose proof (process_markdown_file_frame p w) as Hf.
  unfold result, run in *.
  destruct (process_markdown_file env p w) as [r w'] eqn:E; simpl in *.
  subst r.
  now exists w'.
Qed.

Lemma check_file_needs_update_eq (p h : str) (w : World) :
  check_file_needs_update env p h w =
  if store_fault (pg env) (length (pg_log w))
  then (Raise (PostgresError (length (pg_log w))), log_stmt (SelectFileHash p) w)
  else (Ret match fetch_document p (db w) with
            | None => true
            | Some r => negb (str_eqb (file_hash r) h)
            end,
        log_stmt (SelectFileHash p) w).
Proof.
  unfold check_file_needs_update, bind, pg_call.
  destruct (store_fault (pg env) (length (pg_log w))); [reflexivity|].
  destruct (fetch_document p (db w)); reflexivity.
Qed.

Lemma index_file_nothing_to_do (p : str) (w : World) :
  nothing_to_do env p (db w) ->
  let w' := run (index_file env p) w in
  result (index_file env p) w = Ret tt /\
  db w' = db w /\
  pg_log w' = pg_log w ++ [SelectFileHash p] /\
  http_log w' = http_log w.
Proof.
  intros H.
  assert (Ho : can_open (tree env) p = true).
  { destruct H as [(r & _ & Hh)|[Ho _]]; [|exact Ho].
    now apply hashed_is_opened in Hh. }
  unfold run, result.
  rewrite (index_file_opened p w Ho).
  unfold index_opened, try_except, bind.
  rewrite check_file_needs_update_eq.
  destruct (store_fault (pg env) (length (pg_log w))); [simpl; auto|].
  destruct (fetch_document p (db w)) as [r|] eqn:Ef.
  - destruct (str_eqb (file_hash r) (fingerprint env p)) eqn:Eh; simpl.
    + auto.
    + destruct H as [(r' & Hr' & Hh)|[_ Hc]].
      * rewrite Ef in Hr'; injection Hr' as <-.
        apply hashed_is_opened in Hh.
        apply str_eqb_neq in Eh; tauto.
      * destruct (process_markdown_file_eq p
                    (snd (print (Processing (path_name p)) (log_stmt (SelectFileHash p) w)))
                    Ho)
          as (w2 & E & Hdb & Hpg & Hhttp).
        simpl in E; rewrite E, Hc; simpl.
        rewrite Hdb, Hpg, Hhttp; auto.
  - destruct H as [(r' & Hr' & _)|[_ Hc]]; [rewrite Ef in Hr'; discriminate|].
    simpl.
    destruct (process_markdown_file_eq p
                (snd (print (Processing (path_name p)) (log_stmt (SelectFileHash p) w))) Ho)
      as (w2 & E & Hdb & Hpg & Hhttp).
    simpl in E; rewrite E, Hc; simpl.
    rewrite Hdb, Hpg, Hhttp; auto.
Qed.

End PerFile.

(** ** How the write statements move the tables *)

Lemma touch_file_path (h q : str) (now : Z) (r : DocRow) :
  file_path (touch h q now r) = file_path r.
Proof. unfold touch; destruct (path_is q r); reflexivity. Qed.

Lemma fetch_after_update (p h q : str) (now : Z) (st : Store) :
  fetch_document p (sql_update_document h q now st) =
  option_map (touch h q now) (fetch_document p st).
Proof.
  unfold fetch_document; simpl.
  induction (source_documents st) as [|r l IH]; simpl; [reflexivity|].
  unfold path_is at 1.
  rewrite touch_file_path.
  fold (path_is p r).
  destruct (path_is p r); [reflexivity|exact IH].
Qed.

Lemma fetch_after_insert_document (p q h : str) (d : option Z) (st : Store) :
  fetch_document p (snd (sql_insert_document q h d st)) =
  match fetch_document p st with
  | Some r => Some r
  | None =>
      if str_eqb q p
      then Some {| doc_id := source_documents_id_seq st; file_path := q; file_hash := h;
                   last_indexed_at := d |}
      else None
  end.
Proof.
  unfold fetch_document; simpl.
  induction (source_documents st) as [|r l IH]; simpl.
  - unfold path_is; simpl.
    destruct (str_eqb q p); reflexivity.
  - destruct (path_is p r); [reflexivity|exact IH].
Qed.

Lemma update_keeps_paths (h q : str) (now : Z) (st : Store) :
  map file_path (source_documents (sql_update_document h q now st)) =
  map file_path (source_documents st).
Proof.
  simpl.
  rewrite map_map.
  apply map_ext.
  intros r; apply touch_file_path.
Qed.

Lemma updated_rows (h q : str) (now : Z) (st : Store) (r : DocRow) :
  In r (source_documents (sql_update_document h q now st)) ->
  file_path r = q -> file_hash r = h /\ last_indexed_at r = Some now.
Proof.
  simpl.
  intros Hin Hq.
  apply in_map_iff in Hin.
  destruct Hin as (r0 & <- & _).
  rewrite touch_file_path in Hq.
  unfold touch.
  apply path_is_true in Hq.
  rewrite Hq; simpl; auto.
Qed.

Lemma untouched_rows (h q : str) (now : Z) (st : Store) (r : DocRow) :
  In r (source_documents st) -> file_path r <> q ->
  In r (source_documents (sql_update_document h q now st)).
Proof.
  simpl.
  intros Hin Hq.
  apply in_map_iff.
  exists r; split; [|exact Hin].
  unfold touch.
  destruct (path_is q r) eqn:E; [|reflexivity].
  apply path_is_true in E; contradiction.
Qed.

Lemma deleted_chunks (id : Z) (st : Store) (c : ChunkRow) :
  In c (document_chunks (sql_delete_chunks id st)) <->
  In c (document_chunks st) /\ source_id c <> id.
Proof.
  simpl.
  rewrite filter_In.
  rewrite negb_true_iff, Z.eqb_neq.
  reflexivity.
Qed.

Lemma subseq_refl {A} (l : list A) : subseq l l.
Proof. induction l; constructor; assumption. Qed.

Lemma subseq_In {A} (l1 l2 : list A) (x : A) : subseq l1 l2 -> In x l1 -> In x l2.
Proof.
  induction 1 as [|y l1 l2 _ IH|y l1 l2 _ IH]; simpl; intros Hin.
  - contradiction.
  - right; now apply IH.
  - destruct Hin as [->|Hin]; [now left|right; now apply IH].
Qed.

Lemma subseq_map {A B} (f : A -> B) (l1 l2 : list A) :
  subseq l1 l2 -> subseq (map f l1) (map f l2).
Proof. induction 1; simpl; constructor; assumption. Qed.

Lemma subseq_sorted {A} (R : A -> A -> Prop) (l1 l2 : list A) :
  subseq l1 l2 -> StronglySorted R l2 -> StronglySorted R l1.
Proof.
  induction 1 as [|y l1 l2 Hs IH|y l1 l2 Hs IH]; intros Hst.
  - constructor.
  - inversion Hst; subst; auto.
  - inversion Hst as [|? ? Hst' Hall]; subst.
    constructor; [auto|].
    rewrite Forall_forall in *.
    intros x Hx.
    apply Hall.
    now apply (subseq_In l1 l2).
Qed.

(** ** Writing a document and its chunks *)

Section Writes.

Variable env : Env.

Lemma insert_chunk_eq (sid : Z) (c : Chunk) (w : World) :
  insert_chunk env sid c w =
  match ollama env (length (http_log w)) (text c) with
  | Http200 v =>
      let w1 := log_stmt (chunk_insert sid c v) (posted (text c) w) in
      if store_fault (pg env) (length (pg_log w))
      then print (ChunkFailed (PostgresError (length (pg_log w)))) w1
      else (Ret tt,
            set_db (sql_insert_chunk sid (text c) (vec_str (normalize v)) (chunk_metadata c)
                      (db w)) w1)
  | HttpStatus error_text => print (ChunkFailed (EmbeddingFailed error_text)) (posted (text c) w)
  | NoConnection => print (ChunkFailed ClientError) (posted (text c) w)
  end.
Proof.
  unfold insert_chunk, try_except, bind, get_embedding, pg_call.
  destruct (ollama env (length (http_log w)) (text c)); try reflexivity.
  simpl.
  destruct (store_fault (pg env) (length (pg_log w))); reflexivity.
Qed.

Lemma insert_chunk_returns (sid : Z) (c : Chunk) (w : World) :
  result (insert_chunk env sid c) w = Ret tt.
Proof.
  unfold result.
  rewrite insert_chunk_eq.
  destruct (ollama env (length (http_log w)) (text c)); try reflexivity.
  simpl.
  destruct (store_fault (pg env) (length (pg_log w))); reflexivity.
Qed.

(** [insert_chunks] returns normally, leaves [source_documents] alone and
    appends to [document_chunks] one row for each chunk whose embedding and
    insertion both succeeded, in order. *)
Lemma insert_chunks_appends (sid : Z) (chunks : list Chunk) (w : World) :
  let w' := run (insert_chunks env sid chunks) w in
  result (insert_chunks env sid chunks) w = Ret tt /\
  source_documents (db w') = source_documents (db w) /\
  exists rows,
    document_chunks (db w') = document_chunks (db w) ++ rows /\
    Forall (fun r => source_id r = sid) rows /\
    subseq (map row_content rows) (map chunk_content chunks).
Proof.
  revert w.
  induction chunks as [|c chunks IH]; intros w; simpl.
  - repeat split.
    exists []; rewrite app_nil_r; repeat split; constructor.
  - unfold run, result, insert_chunks in *; simpl.
    unfold bind.
    pose proof (insert_chunk_returns sid c w) as Hr.
    unfold result in Hr.
    destruct (insert_chunk env sid c w) as [r w1] eqn:E; simpl in Hr; subst r.
    destruct (IH w1) as (Hres & Hdocs & rows & Hrows & Hsid & Hsub).
    rewrite insert_chunk_eq in E.
    destruct (ollama env (length (http_log w)) (text c)) as [v|t|].
    + simpl in E.
      destruct (store_fault (pg env) (length (pg_log w))); injection E as <-; simpl in *.
      * repeat split; auto.
        exists rows; repeat split; auto.
        now constructor.
      * repeat split; auto.
        eexists; split; [rewrite Hrows, <- app_assoc; reflexivity|].
        split; [constructor; [reflexivity|exact Hsid]|].
        simpl; now constructor.
    + injection E as <-; simpl in *.
      repeat split; auto.
      exists rows; repeat split; auto.
      now constructor.
    + injection E as <-; simpl in *.
      repeat split; auto.
      exists rows; repeat split; auto.
      now constructor.
Qed.

(** When nothing fails every chunk is written. *)
Lemma insert_chunks_all (sid : Z) (chunks : list Chunk) (w : World) :
  (forall n, store_fault (pg env) n = false) ->
  (forall n t, exists v, ollama env n t = Http200 v) ->
  exists rows,
    document_chunks (db (run (insert_chunks env sid chunks) w)) =
      document_chunks (db w) ++ rows /\
    map row_content rows = map chunk_content chunks.
Proof.
  intros Hpg Hol.
  revert w.
  induction chunks as [|c chunks IH]; intros w.
  - exists []; simpl; now rewrite app_nil_r.
  - unfold run, insert_chunks in *; simpl.
    unfold bind.
    rewrite insert_chunk_eq.
    destruct (Hol (length (http_log w)) (text c)) as [v ->].
    simpl.
    rewrite Hpg.
    match goal with |- context [for_each chunks _ ?w1] => destruct (IH w1) as (rows & Hrows & Hmap) end.
    eexists; split.
    + rewrite Hrows; simpl.
      rewrite <- app_assoc; reflexivity.
    + simpl; now rewrite Hmap.
Qed.

(** [update_source_document] when none of its statements fails. *)
Lemma update_source_document_eq (p h : str) (w : World) :
  let n := length (pg_log w) in
  store_fault (pg env) n = false ->
  store_fault (pg env) (S n) = false ->
  store_fault (pg env) (S (S n)) = false ->
  update_source_document env p h w =
  match fetch_document p (db w) with
  | Some r =>
      (Ret (doc_id r),
       set_db (sql_delete_chunks (doc_id r)
                 (sql_update_document h p (current_timestamp (pg env) (S n)) (db w)))
         (log_stmt (DeleteChunks (doc_id r))
            (log_stmt (UpdateDocument h p) (log_stmt (SelectId p) w))))
  | None =>
      let (id, st) :=
        sql_insert_document p h
          (default_last_indexed_at (pg env) (current_timestamp (pg env) (S n))) (db w) in
      (Ret id, set_db st (log_stmt (InsertDocument p h) (log_stmt (SelectId p) w)))
  end.
Proof.
  intros n H0 H1 H2.
  assert (L : forall s l, length (l ++ [s : Stmt]) = S (length l)).
  { intros s l; rewrite length_app; simpl; lia. }
  unfold update_source_document, bind, pg_call.
  fold n; rewrite H0.
  destruct (fetch_document p (db w)) as [r|]; simpl.
  - rewrite L; fold n; rewrite H1; simpl.
    rewrite !L; fold n; rewrite H2; simpl.
    reflexivity.
  - rewrite L; fold n; rewrite H1; simpl.
    reflexivity.
Qed.

End Writes.

(** ** Invariants of a whole pass *)

(** A property of the world that survives logging, printing and requests to
    the embedding service, and survives the four write statements as
    [index_file] issues them, survives every method of the indexer, on
    every exit. *)
Section MethodInvariants.

Variable env : Env.
Variable I : World -> Prop.

Hypothesis I_log : forall s w, I w -> I (log_stmt s w).
Hypothesis I_posted : forall t w, I w -> I (posted t w).
Hypothesis I_print : forall m w, I w -> I (run (print m) w).
Hypothesis I_update : forall q now w,
  I w -> I (set_db (sql_update_document (fingerprint env q) q now (db w)) w).
Hypothesis I_delete : forall id w, I w -> I (set_db (sql_delete_chunks id (db w)) w).
Hypothesis I_insert_document : forall q d w,
  I w -> fetch_document q (db w) = None ->
  I (set_db (snd (sql_insert_document q (fingerprint env q) d (db w))) w).
Hypothesis I_insert_chunk : forall sid t vec meta w,
  I w -> I (set_db (sql_insert_chunk sid t vec meta (db w)) w).

Lemma inv_print (m : Msg) : preserves I (print m).
Proof. intros w; apply I_print. Qed.

Lemma inv_get_embedding (t : str) : preserves I (get_embedding env t).
Proof.
  intros w H.
  unfold run, get_embedding.
  destruct (ollama env (length (http_log w)) t); apply (I_posted t w H).
Qed.

Lemma inv_read {A} (s : Stmt) (f : Store -> A) :
  preserves I (pg_call env s (fun _ st => (f st, st))).
Proof.
  intros w H.
  unfold run, pg_call.
  destruct (store_fault (pg env) (length (pg_log w))); apply (I_log s w H).
Qed.

Lemma inv_write {A} (s : Stmt) (sem : nat -> Store -> A * Store) :
  (forall n w, I w -> I (set_db (snd (sem n (db w))) w)) ->
  preserves I (pg_call env s sem).
Proof.
  intros Hsem w H.
  unfold run, pg_call.
  destruct (store_fault (pg env) (length (pg_log w))); simpl.
  - apply (I_log s w H).
  - specialize (Hsem (length (pg_log w)) (log_stmt s w) (I_log s w H)).
    simpl in Hsem.
    destruct (sem (length (pg_log w)) (db w)) as [a st]; exact Hsem.
Qed.

Lemma inv_close : preserves I close.
Proof. intros w H; apply (I_log Close w H). Qed.

Lemma inv_process_markdown_file (p : str) : preserves I (process_markdown_file env p).
Proof.
  unfold process_markdown_file.
  destruct (can_open (tree env) p); [|intros w H; exact H].
  destruct (decode_utf8 (lib env) (read_bytes (tree env) p)) as [content|].
  - destruct (negb (truthy (strip content))); apply preserves_ret.
  - apply preserves_bind; [apply inv_print|intros _; apply preserves_ret].
Qed.

Lemma inv_check_file_needs_update (p h : str) :
  preserves I (check_file_needs_update env p h).
Proof.
  apply preserves_bind; [apply inv_read|].
  intros [r|]; apply preserves_ret.
Qed.

Lemma inv_update_source_document (p : str) :
  preserves I (update_source_document env p (fingerprint env p)).
Proof.
  assert (Hrest : forall r : DocRow,
    preserves I
      (pg_call env (UpdateDocument (fingerprint env p) p)
         (fun n st => (tt, sql_update_document (fingerprint env p) p
                             (current_timestamp (pg env) n) st)) ;;
       pg_call env (DeleteChunks (doc_id r))
         (fun _ st => (tt, sql_delete_chunks (doc_id r) st)) ;;
       ret (doc_id r))).
  { intros r.
    apply preserves_bind.
    - apply inv_write; intros n w H; apply (I_update p _ w H).
    - intros _; apply preserves_bind.
      + apply inv_write; intros n w H; apply (I_delete _ w H).
      + intros _; apply preserves_ret. }
  intros w H.
  unfold run, update_source_document, bind at 1, pg_call at 1.
  destruct (store_fault (pg env) (length (pg_log w))); [apply (I_log _ w H)|].
  simpl.
  destruct (fetch_document p (db w)) as [r|] eqn:Ef.
  - apply (Hrest r (log_stmt (SelectId p) w)), I_log, H.
  - unfold pg_call.
    match goal with |- context [if ?c then _ else _] => destruct c end.
    + exact (I_log (InsertDocument p (fingerprint env p)) _
               (I_log (SelectId p) w H)).
    + exact (I_insert_document p _
               (log_stmt (InsertDocument p (fingerprint env p))
                  (log_stmt (SelectId p) w))
               (I_log _ _ (I_log _ _ H)) Ef).
Qed.

Lemma inv_insert_chunks (sid : Z) (chunks : list Chunk) :
  preserves I (insert_chunks env sid chunks).
Proof.
  apply preserves_for_each.
  intros c _.
  apply preserves_try_except.
  - apply preserves_bind; [apply inv_get_embedding|].
    intros v; apply inv_write.
    intros n w H; apply (I_insert_chunk _ _ _ _ w H).
  - intros e; apply inv_print.
Qed.

Lemma inv_index_opened (p : str) : preserves I (index_opened env p (fingerprint env p)).
Proof.
  apply preserves_try_except; [|intros e; apply inv_print].
  apply preserves_bind; [apply inv_check_file_needs_update|].
  intros needs.
  destruct (negb needs); [apply inv_print|].
  apply preserves_bind; [apply inv_print|intros _].
  apply preserves_bind; [apply inv_process_markdown_file|intros chunks].
  destruct (negb (truthy chunks)); [apply inv_print|].
  apply preserves_bind; [apply inv_update_source_document|intros sid].
  apply preserves_bind; [apply inv_insert_chunks|intros _].
  apply inv_print.
Qed.

Lemma inv_index_file (p : str) : preserves I (index_file env p).
Proof.
  intros w H.
  unfold run.
  destruct (can_open (tree env) p) eqn:Ho.
  - rewrite (index_file_opened env p w Ho).
    now apply inv_index_opened.
  - rewrite (index_file_not_opened env p w Ho).
    now apply I_print.
Qed.

Lemma inv_index_all_files : preserves I (index_all_files env).
Proof.
  apply preserves_bind; [apply inv_read|intros _].
  apply preserves_try_finally; [|apply inv_close].
  apply preserves_bind; [apply inv_print|intros _].
  apply preserves_for_each.
  intros p _; apply inv_index_file.
Qed.

End MethodInvariants.

(** ** Exceptions: where they stop *)

Section Exceptions.

Variable env : Env.

Lemma length_log (s : Stmt) (l : list Stmt) : length (l ++ [s]) = S (length l).
Proof. rewrite length_app; simpl; lia. Qed.

(** [index_file] never lets an exception out. *)
Lemma index_file_returns (p : str) (w : World) : result (index_file env p) w = Ret tt.
Proof.
  unfold result, index_file, try_except.
  match goal with |- fst (match ?b with _ => _ end) = _ => destruct b as [[[]|e] w'] end;
    reflexivity.
Qed.


Lemma for_each_returns {A} (xs : list A) (body : A -> M unit) (w : World) :
  (forall x w', result (body x) w' = Ret tt) ->
  result (for_each xs body) w = Ret tt.
Proof.
  intros Hb.
  revert w.
  induction xs as [|x xs IH]; intros w; [reflexivity|].
  specialize (Hb x w) as Hx.
  unfold result in *; simpl; unfold bind.
  destruct (body x w) as [[[]|e] w1]; simpl in Hx; [apply IH|discriminate].
Qed.

Lemma for_each_cons {A} (x : A) (xs : list A) (body : A -> M unit) (w : World) :
  result (body x) w = Ret tt ->
  run (for_each (x :: xs) body) w = run (for_each xs body) (run (body x) w).
Proof.
  unfold result, run; simpl; unfold bind.
  destruct (body x w) as [[[]|e] w1]; simpl; [reflexivity|discriminate].
Qed.

Lemma try_except_bind_ret {A B} (m : M A) (k : A -> M B) (h : Exn -> M B)
  (w : World) (a : A) (w1 : World) :
  m w = (Ret a, w1) -> try_except (bind m k) h w = try_except (k a) h w1.
Proof. unfold try_except, bind; intros ->; reflexivity. Qed.

Lemma try_except_bind_raise {A B} (m : M A) (k : A -> M B) (h : Exn -> M B)
  (w : World) (e : Exn) (w1 : World) :
  m w = (Raise e, w1) -> try_except (bind m k) h w = h e w1.
Proof. unfold try_except, bind; intros ->; reflexivity. Qed.




(** [index_all_files], step by step. *)
Lemma index_all_files_eq (w : World) :
  let n := length (pg_log w) in
  index_all_files env w =
  if store_fault (pg env) n then (Raise (PostgresError n), log_stmt Connect w)
  else
    (Ret tt,
     log_stmt Close
       (run (for_each (rglob_md (tree env)) (index_file env))
            (run (print (Found (length (rglob_md (tree env))))) (log_stmt Connect w)))).
Proof.
  intros n.
  unfold index_all_files, connect, bind at 1, pg_call.
  fold n.
  destruct (store_fault (pg env) n); [reflexivity|].
  unfold try_finally, bind, close.
  simpl.
  pose proof (for_each_returns (rglob_md (tree env)) (index_file env)
                (run (print (Found (length (rglob_md (tree env))))) (log_stmt Connect w))
                (index_file_returns)) as Hr.
  unfold result, run in *; simpl in *.
  match goal with
  | |- context [for_each ?l ?f ?w0] => destruct (for_each l f w0) as [[[]|e] w1]
  end; simpl in *; [reflexivity|discriminate].
Qed.

(** [search_similar], step by step. *)
Lemma search_similar_eq (query : str) (limit : Z) (w : World) :
  let n := length (pg_log w) in
  search_similar env query limit w =
  if store_fault (pg env) n then (Raise (PostgresError n), log_stmt Connect w)
  else
    let w1 := posted query (log_stmt Connect w) in
    match ollama env (length (http_log w)) query with
    | Http200 v =>
        let vec := vec_str (normalize v) in
        let w2 := log_stmt Close (log_stmt (SelectNearest vec limit) w1) in
        if (limit <? 0)%Z || store_fault (pg env) (S n)
        then (Raise (PostgresError (S n)), w2)
        else (Ret (sql_select_nearest (l2_distance (pg env)) vec limit (db w)), w2)
    | HttpStatus error_text => (Raise (EmbeddingFailed error_text), log_stmt Close w1)
    | NoConnection => (Raise ClientError, log_stmt Close w1)
    end.
Proof.
  intros n.
  unfold search_similar, connect, bind at 1, pg_call.
  fold n.
  destruct (store_fault (pg env) n); [reflexivity|].
  unfold try_finally, bind, get_embedding, close, fetch_nearest, pg_call.
  simpl.
  destruct (ollama env (length (http_log w)) query) as [v|t|]; try reflexivity.
  destruct (limit <? 0)%Z; simpl.
  - rewrite length_log; reflexivity.
  - rewrite length_log; fold n.
    destruct (store_fault (pg env) (S n)); reflexivity.
Qed.

End Exceptions.

(** ** The nearest-neighbour query *)

Lemma insert_by_distance_In (r x : SearchResult) (l : list SearchResult) :
  In x (insert_by_distance r l) <-> x = r \/ In x l.
Proof.
  induction l as [|y l IH]; simpl.
  - intuition.
  - destruct (Qle_bool (distance r) (distance y)); simpl.
    + intuition.
    + rewrite IH; intuition.
Qed.

Lemma insert_by_distance_length (r : SearchResult) (l : list SearchResult) :
  length (insert_by_distance r l) = S (length l).
Proof.
  induction l as [|y l IH]; simpl; [reflexivity|].
  destruct (Qle_bool (distance r) (distance y)); simpl; [reflexivity|].
  now rewrite IH.
Qed.

Lemma insert_by_distance_sorted (r : SearchResult) (l : list SearchResult) :
  StronglySorted closer l -> StronglySorted closer (insert_by_distance r l).
Proof.
  induction 1 as [|y l Hs IH Hall]; simpl.
  - repeat constructor.
  - destruct (Qle_bool (distance r) (distance y)) eqn:E.
    + apply Qle_bool_iff in E.
      constructor; [now constructor|].
      constructor; [exact E|].
      rewrite Forall_forall in *.
      intros x Hx.
      unfold closer in *.
      apply Qle_trans with (distance y); auto.
    + assert (Hyr : closer y r).
      { unfold closer.
        apply Qlt_le_weak, Qnot_le_lt.
        intros Hle.
        apply Qle_bool_iff in Hle.
        congruence. }
      constructor; [exact IH|].
      rewrite Forall_forall in *.
      intros x Hx.
      apply insert_by_distance_In in Hx.
      destruct Hx as [->|Hx]; auto.
Qed.

Lemma order_by_distance_In (x : SearchResult) (l : list SearchResult) :
  In x (order_by_distance l) <-> In x l.
Proof.
  induction l as [|y l IH]; simpl; [reflexivity|].
  rewrite insert_by_distance_In, IH.
  intuition.
Qed.

Lemma order_by_distance_length (l : list SearchResult) :
  length (order_by_distance l) = length l.
Proof.
  induction l as [|y l IH]; simpl; [reflexivity|].
  now rewrite insert_by_distance_length, IH.
Qed.

Lemma order_by_distance_sorted (l : list SearchResult) :
  StronglySorted closer (order_by_distance l).
Proof.
  induction l as [|y l IH]; simpl; [constructor|].
  now apply insert_by_distance_sorted.
Qed.

Lemma subseq_firstn {A} (k : nat) (l : list A) : subseq (firstn k l) l.
Proof.
  revert k.
  induction l as [|x l IH]; intros k.
  - rewrite firstn_nil; constructor.
  - destruct k as [|k]; simpl.
    + apply subseq_drop, (IH 0%nat).
    + apply subseq_keep, IH.
Qed.

Lemma firstn_sorted {A} (R : A -> A -> Prop) (k : nat) (l : list A) :
  StronglySorted R l -> StronglySorted R (firstn k l).
Proof. apply subseq_sorted, subseq_firstn. Qed.

Lemma joined_In (dist : str -> str -> Q) (q : str) (st : Store) (r : SearchResult) :
  In r (joined dist q st) <->
  exists dc sd,
    In dc (document_chunks st) /\ In sd (source_documents st) /\
    source_id dc = doc_id sd /\
    r = {| res_text := chunk_text dc; res_metadata := metadata dc;
           res_file_path := file_path sd; distance := dist (embedding dc) q |}.
Proof.
  unfold joined.
  rewrite in_flat_map.
  split.
  - intros (dc & Hdc & Hr).
    apply in_map_iff in Hr.
    destruct Hr as (sd & <- & Hsd).
    apply filter_In in Hsd.
    destruct Hsd as [Hsd Heq].
    apply Z.eqb_eq in Heq.
    now exists dc, sd.
  - intros (dc & sd & Hdc & Hsd & Heq & ->).
    exists dc; split; [exact Hdc|].
    apply in_map_iff.
    exists sd; split; [reflexivity|].
    apply filter_In; split; [exact Hsd|].
    now apply Z.eqb_eq.
Qed.

(** ** Chunk indices *)

Section ChunkIndices.

Variable p : str.

Lemma processed_chunks_origin (docs : list Document) (i : nat) (c : Chunk) :
  In c (processed_chunks p i docs) ->
  exists d,
    (i <= index_of c)%nat /\
    nth_error docs (index_of c - i) = Some d /\
    text c = strip (page_content d) /\
    nonblank d = true /\
    headers (chunk_metadata c) = doc_metadata d.
Proof.
  revert i.
  induction docs as [|d docs IH]; intros i Hin; simpl in Hin; [contradiction|].
  assert (Hrest : In c (processed_chunks p (S i) docs) ->
                  exists d0,
                    (i <= index_of c)%nat /\
                    nth_error (d :: docs) (index_of c - i) = Some d0 /\
                    text c = strip (page_content d0) /\
                    nonblank d0 = true /\
                    headers (chunk_metadata c) = doc_metadata d0).
  { intros H.
    destruct (IH (S i) H) as (d0 & Hle & Hnth & Hrest).
    exists d0.
    split; [lia|].
    split; [|exact Hrest].
    replace (index_of c - i)%nat with (S (index_of c - S i)) by lia.
    exact Hnth. }
  destruct (truthy (strip (page_content d))) eqn:E; simpl in Hin.
  - destruct Hin as [<-|Hin]; [|now apply Hrest].
    exists d.
    unfold index_of, nonblank; simpl.
    rewrite Nat.sub_diag.
    repeat split; auto.
  - now apply Hrest.
Qed.

Lemma processed_chunks_increasing (docs : list Document) (i : nat) :
  StronglySorted lt (map index_of (processed_chunks p i docs)).
Proof.
  revert i.
  induction docs as [|d docs IH]; intros i; simpl; [constructor|].
  destruct (truthy (strip (page_content d))); simpl; [|apply IH].
  constructor; [apply IH|].
  apply Forall_forall.
  intros j Hj.
  apply in_map_iff in Hj.
  destruct Hj as (c & <- & Hc).
  destruct (processed_chunks_origin docs (S i) c Hc) as (_ & Hle & _).
  unfold index_of at 1; simpl.
  lia.
Qed.

Lemma processed_chunks_consecutive (docs : list Document) (i : nat) :
  forallb nonblank docs = true ->
  map index_of (processed_chunks p i docs) = seq i (length docs).
Proof.
  revert i.
  induction docs as [|d docs IH]; intros i H; simpl in *; [reflexivity|].
  apply andb_true_iff in H.
  destruct H as [Hd Hdocs].
  unfold nonblank in Hd.
  rewrite Hd; simpl.
  now rewrite IH.
Qed.

End ChunkIndices.

Lemma row_index_of_content (rows : list ChunkRow) :
  map row_index rows = map (fun tm => chunk_index (snd tm)) (map row_content rows).
Proof. rewrite map_map; reflexivity. Qed.

Lemma index_of_content (chunks : list Chunk) :
  map index_of chunks = map (fun tm => chunk_index (snd tm)) (map chunk_content chunks).
Proof. rewrite map_map; reflexivity. Qed.

(** ** Two passes over the same tree *)

Lemma same_content_hash (env1 env2 : Env) (p : str) :
  same_content env1 env2 -> calculate_file_hash env2 p = calculate_file_hash env1 p.
Proof.
  intros [Hl Ht].
  unfold calculate_file_hash.
  now rewrite Hl, Ht.
Qed.

Lemma same_content_chunks (env1 env2 : Env) (p : str) :
  same_content env1 env2 -> chunks_of env2 p = chunks_of env1 p.
Proof.
  intros [Hl Ht].
  unfold chunks_of.
  now rewrite Hl, Ht.
Qed.

Lemma same_content_nothing_to_do (env1 env2 : Env) (p : str) (st : Store) :
  same_content env1 env2 -> nothing_to_do env1 p st -> nothing_to_do env2 p st.
Proof.
  intros Hs [(r & Hr & Hh)|[Ho Hc]].
  - left; exists r; split; [exact Hr|].
    now rewrite (same_content_hash env1 env2 p Hs).
  - right; split; [|now rewrite (same_content_chunks env1 env2 p Hs)].
    destruct Hs as [_ Ht]; now rewrite Ht.
Qed.

Section Settled.

Variable env : Env.

(** Once a file has nothing to do, indexing any file of the same tree keeps
    it so: the only fingerprint ever written for a path is that of the file
    at that path. *)
Lemma nothing_to_do_after_update (p q : str) (now : Z) (st : Store) :
  nothing_to_do env p st ->
  nothing_to_do env p (sql_update_document (fingerprint env q) q now st).
Proof.
  intros [(r & Hr & Hh)|Hc]; [left|now right].
  rewrite fetch_after_update, Hr; simpl.
  exists (touch (fingerprint env q) q now r).
  split; [reflexivity|].
  unfold touch.
  destruct (path_is q r) eqn:E; [simpl|exact Hh].
  apply path_is_true in E.
  apply fetch_document_some in Hr.
  destruct Hr as [_ Hp].
  apply hashed_is_opened in Hh.
  destruct Hh as [Ho _].
  rewrite (opened_is_hashed env p Ho).
  congruence.
Qed.

Lemma nothing_to_do_after_insert (p q : str) (d : option Z) (st : Store) :
  nothing_to_do env p st ->
  nothing_to_do env p (snd (sql_insert_document q (fingerprint env q) d st)).
Proof.
  intros [(r & Hr & Hh)|Hc]; [left|now right].
  rewrite fetch_after_insert_document, Hr.
  now exists r.
Qed.

Lemma nothing_to_do_is_kept (p q : str) :
  preserves (fun w => nothing_to_do env p (db w)) (index_file env q).
Proof.
  apply inv_index_file; simpl; intros; auto.
  - now apply nothing_to_do_after_update.
  - now apply nothing_to_do_after_insert.
Qed.

Hypothesis store_works : forall n, store_fault (pg env) n = false.

(** With a working store, [index_file] leaves its file with nothing to do. *)
Lemma index_file_settles (p : str) (w : World) :
  can_open (tree env) p = true ->
  nothing_to_do env p (db (run (index_file env p) w)).
Proof.
  intros Ho.
  destruct (fetch_document p (db w)) as [r|] eqn:Ef.
  - destruct (str_eqb (file_hash r) (fingerprint env p)) eqn:Eh.
    + apply str_eqb_eq in Eh.
      apply (nothing_to_do_is_kept p p).
      left; exists r; split; [exact Ef|].
      now rewrite (opened_is_hashed env p Ho), Eh.
    + pose proof (check_file_needs_update_eq env p (fingerprint env p) w) as E.
      rewrite store_works, Ef, Eh in E; simpl in E.
      unfold run; rewrite (index_file_opened env p w Ho); unfold index_opened.
      rewrite (try_except_bind_ret _ _ _ _ _ _ E); simpl.
      unfold try_except, bind at 1; simpl.
      unfold bind at 1.
      match goal with
      | |- context [process_markdown_file env p ?w1] =>
          destruct (process_markdown_file_eq env p w1 Ho) as (w2 & -> & Hdb & Hpg & _)
      end.
      destruct (chunks_of env p) as [|c chunks] eqn:Ec; simpl.
      * right; now split.
      * unfold bind at 1.
        rewrite update_source_document_eq by apply store_works.
        rewrite Hdb; simpl; rewrite Ef.
        unfold bind at 1.
        match goal with
        | |- context [insert_chunks env ?sid ?cs ?w3] =>
            destruct (insert_chunks_appends env sid cs w3) as (Hres & Hdocs & _);
            unfold result, run in Hres, Hdocs;
            destruct (insert_chunks env sid cs w3) as [o w4]
        end.
        simpl in Hres, Hdocs; subst o; simpl.
        left.
        unfold fetch_document; rewrite Hdocs.
        change (exists r0, fetch_document p
                  (sql_update_document (fingerprint env p) p
                     (current_timestamp (pg env) (S (length (pg_log w2)))) (db w)) = Some r0 /\
                 calculate_file_hash env p = Ret (file_hash r0)).
        rewrite fetch_after_update, Ef; simpl.
        eexists; split; [reflexivity|].
        unfold touch.
        apply fetch_document_some in Ef.
        destruct Ef as [_ Hp].
        apply path_is_true in Hp.
        rewrite Hp; simpl.
        now apply opened_is_hashed.
  - pose proof (check_file_needs_update_eq env p (fingerprint env p) w) as E.
    rewrite store_works, Ef in E; simpl in E.
    unfold run; rewrite (index_file_opened env p w Ho); unfold index_opened.
    rewrite (try_except_bind_ret _ _ _ _ _ _ E); simpl.
    unfold try_except, bind at 1; simpl.
    unfold bind at 1.
    match goal with
    | |- context [process_markdown_file env p ?w1] =>
        destruct (process_markdown_file_eq env p w1 Ho) as (w2 & -> & Hdb & Hpg & _)
    end.
    destruct (chunks_of env p) as [|c chunks] eqn:Ec; simpl.
    + right; now split.
    + unfold bind at 1.
      rewrite update_source_document_eq by apply store_works.
      rewrite Hdb; simpl; rewrite Ef.
      unfold bind at 1.
      match goal with
      | |- context [insert_chunks env ?sid ?cs ?w3] =>
          destruct (insert_chunks_appends env sid cs w3) as (Hres & Hdocs & _);
          unfold result, run in Hres, Hdocs;
          destruct (insert_chunks env sid cs w3) as [o w4]
      end.
      simpl in Hres, Hdocs; subst o; simpl.
      left.
      unfold fetch_document; rewrite Hdocs; simpl.
      pose proof (fetch_after_insert_document p p (fingerprint env p)
                    (default_last_indexed_at (pg env)
                       (current_timestamp (pg env) (S (length (pg_log w2))))) (db w)) as F.
      rewrite Ef, str_eqb_refl in F.
      unfold fetch_document in F; simpl in F.
      rewrite F.
      eexists; split; [reflexivity|].
      now apply opened_is_hashed.
Qed.

End Settled.

Lemma pass_settles_every_file (env : Env) (files : list str) (w : World) (p : str) :
  (forall n, store_fault (pg env) n = false) ->
  can_open (tree env) p = true ->
  In p files ->
  nothing_to_do env p (db (run (for_each files (index_file env)) w)).
Proof.
  intros Hok Ho.
  revert w.
  induction files as [|x files IH]; intros w Hin; [contradiction|].
  rewrite for_each_cons by apply index_file_returns.
  destruct Hin as [->|Hin].
  - apply (preserves_for_each (fun w => nothing_to_do env p (db w))).
    + intros q _; apply nothing_to_do_is_kept.
    + now apply index_file_settles.
  - now apply IH.
Qed.

(** An entry that cannot be opened is given up before anything is sent. *)
Lemma index_file_not_opened_frame (env : Env) (p : str) (w : World) :
  can_open (tree env) p = false ->
  let w' := run (index_file env p) w in
  db w' = db w /\ pg_log w' = pg_log w /\ http_log w' = http_log w /\
  stdout w' = stdout w ++ [FileFailed p (OSError p)].
Proof.
  intros Ho.
  unfold run.
  rewrite (index_file_not_opened env p w Ho); simpl; auto.
Qed.

Lemma settled_pass_only_checks (env : Env) (files : list str) (w : World) :
  (forall p, In p files -> can_open (tree env) p = true -> nothing_to_do env p (db w)) ->
  let w' := run (for_each files (index_file env)) w in
  db w' = db w /\
  pg_log w' = pg_log w ++ map SelectFileHash (filter (can_open (tree env)) files) /\
  http_log w' = http_log w.
Proof.
  revert w.
  induction files as [|x files IH]; intros w Hall; cbv zeta.
  - simpl; now rewrite app_nil_r.
  - rewrite for_each_cons by apply index_file_returns.
    cbn [filter].
    destruct (can_open (tree env) x) eqn:Ho.
    + destruct (index_file_nothing_to_do env x w) as (_ & Hdb & Hpg & Hhttp).
      { apply Hall; [now left|exact Ho]. }
      destruct (IH (run (index_file env x) w)) as (Hdb' & Hpg' & Hhttp').
      { intros p Hp; rewrite Hdb; apply Hall; now right. }
      rewrite Hdb', Hpg', Hhttp', Hdb, Hpg, Hhttp, <- app_assoc.
      simpl; auto.
    + destruct (index_file_not_opened_frame env x w Ho) as (Hdb & Hpg & Hhttp & _).
      destruct (IH (run (index_file env x) w)) as (Hdb' & Hpg' & Hhttp').
      { intros p Hp; rewrite Hdb; apply Hall; now right. }
      rewrite Hdb', Hpg', Hhttp', Hdb, Hpg, Hhttp.
      auto.
Qed.

(** ** Uniqueness of paths is an invariant *)

Lemma NoDup_snoc {A} (l : list A) (x : A) : NoDup l -> ~ In x l -> NoDup (l ++ [x]).
Proof.
  induction 1 as [|y l Hy Hl IH]; simpl; intros Hx.
  - constructor; [intros []|constructor].
  - constructor.
    + rewrite in_app_iff; simpl.
      intros [H|[H|[]]]; [contradiction|].
      apply Hx; now left.
    + apply IH.
      intros H; apply Hx; now right.
Qed.

(** A pass never creates a second row for a path: it inserts only after the
    SELECT found none. *)
Lemma unique_paths_is_kept (env : Env) :
  preserves (fun w => unique_paths (db w)) (index_all_files env).
Proof.
  apply inv_index_all_files; simpl; intros; auto.
  - unfold unique_paths; now rewrite update_keeps_paths.
  - unfold unique_paths; simpl.
    rewrite map_app; simpl.
    apply NoDup_snoc; [assumption|].
    intros Hin.
    apply in_map_iff in Hin.
    destruct Hin as (r & Hr & Hin).
    match goal with
    | Hf : fetch_document _ _ = None |- _ => now apply (fetch_document_none _ _ Hf r)
    end.
Qed.

(** ** Reindexing a changed document *)

(** The effect of [update_source_document] when its statements succeed. *)
Lemma upsert_effect (env : Env) (p h : str) (w : World) :
  let n := length (pg_log w) in
  let now := current_timestamp (pg env) (S n) in
  store_fault (pg env) n = false ->
  store_fault (pg env) (S n) = false ->
  store_fault (pg env) (S (S n)) = false ->
  let w' := run (update_source_document env p h) w in
  match fetch_document p (db w) with
  | None =>
      (forall r, In r (source_documents (db w)) -> file_path r <> p) /\
      result (update_source_document env p h) w = Ret (source_documents_id_seq (db w)) /\
      source_documents (db w') =
        source_documents (db w) ++
        [{| doc_id := source_documents_id_seq (db w); file_path := p; file_hash := h;
            last_indexed_at := default_last_indexed_at (pg env) now |}] /\
      document_chunks (db w') = document_chunks (db w)
  | Some r =>
      In r (source_documents (db w)) /\ file_path r = p /\
      result (update_source_document env p h) w = Ret (doc_id r) /\
      map file_path (source_documents (db w')) = map file_path (source_documents (db w)) /\
      (forall r', In r' (source_documents (db w')) -> file_path r' = p ->
                  file_hash r' = h /\ last_indexed_at r' = Some now) /\
      (forall r', In r' (source_documents (db w)) -> file_path r' <> p ->
                  In r' (source_documents (db w'))) /\
      (forall c, In c (document_chunks (db w')) <->
                 In c (document_chunks (db w)) /\ source_id c <> doc_id r)
  end.
Proof.
  intros n now H0 H1 H2 w'.
  unfold w', run, result.
  rewrite (update_source_document_eq env p h w H0 H1 H2).
  fold n; fold now.
  destruct (fetch_document p (db w)) as [r|] eqn:Ef.
  - destruct (fetch_document_some _ _ _ Ef) as [Hin Hp].
    simpl.
    split; [exact Hin|].
    split; [exact Hp|].
    split; [reflexivity|].
    split.
    { rewrite map_map.
      apply map_ext; intros r'; apply touch_file_path. }
    split.
    { intros r' Hin' Hp'.
      apply (updated_rows h p now (db w) r' Hin' Hp'). }
    split.
    { intros r' Hin' Hp'.
      apply (untouched_rows h p now (db w) r' Hin' Hp'). }
    intros c.
    apply (deleted_chunks (doc_id r) (sql_update_document h p now (db w)) c).
  - simpl.
    split; [apply (fetch_document_none _ _ Ef)|].
    repeat split.
Qed.

(** When the stored fingerprint differs from the current one, the file has
    chunks, and the check and the upsert succeed, [index_file] leaves in
    [document_chunks] the rows of the other documents followed by the rows
    it has just inserted: no earlier row of this document is left. *)
Lemma changed_document_is_replaced (env : Env) (p h : str) (w : World) (r : DocRow) :
  let n := length (pg_log w) in
  store_fault (pg env) n = false ->
  store_fault (pg env) (S n) = false ->
  store_fault (pg env) (S (S n)) = false ->
  store_fault (pg env) (S (S (S n))) = false ->
  fetch_document p (db w) = Some r ->
  calculate_file_hash env p = Ret h ->
  file_hash r <> h ->
  chunks_of env p <> [] ->
  exists rows,
    document_chunks (db (run (index_file env p) w)) =
      filter (fun c => negb (source_id c =? doc_id r)%Z) (document_chunks (db w)) ++ rows /\
    Forall (fun c => source_id c = doc_id r) rows /\
    subseq (map row_content rows) (map chunk_content (chunks_of env p)).
Proof.
  intros n H0 H1 H2 H3 Ef Hhash Hh Hc.
  destruct (hashed_is_opened env p h Hhash) as [Ho ->].
  apply str_eqb_neq in Hh.
  pose proof (check_file_needs_update_eq env p (fingerprint env p) w) as E.
  fold n in E.
  rewrite H0, Ef, Hh in E; simpl in E.
  unfold run; rewrite (index_file_opened env p w Ho); unfold index_opened.
  rewrite (try_except_bind_ret _ _ _ _ _ _ E); simpl.
  unfold try_except, bind at 1; simpl.
  unfold bind at 1.
  match goal with
  | |- context [process_markdown_file env p ?w1] =>
      destruct (process_markdown_file_eq env p w1 Ho) as (w2 & -> & Hdb & Hpg & _)
  end.
  simpl in Hdb, Hpg.
  destruct (chunks_of env p) as [|c chunks] eqn:Ec; [contradiction|]; simpl.
  unfold bind at 1.
  assert (Hn : length (pg_log w2) = S n).
  { rewrite Hpg; apply length_log. }
  rewrite update_source_document_eq by (rewrite Hn; assumption).
  rewrite Hdb, Ef.
  unfold bind at 1.
  match goal with
  | |- context [insert_chunks env ?sid ?cs ?w3] =>
      destruct (insert_chunks_appends env sid cs w3) as (Hres & _ & rows & Hrows & Hsid & Hsub);
      unfold result, run in Hres, Hrows;
      destruct (insert_chunks env sid cs w3) as [o w4]
  end.
  simpl in Hres, Hrows; subst o; simpl.
  exists rows.
  split; [exact Hrows|].
  split; [exact Hsid|exact Hsub].
Qed.

(** ** From the check to the upsert *)

(** A file that has chunks is processed without a word. *)
Lemma process_markdown_file_quiet (env : Env) (p : str) (w : World) :
  can_open (tree env) p = true ->
  chunks_of env p <> [] ->
  process_markdown_file env p w = (Ret (chunks_of env p), w).
Proof.
  intros Ho.
  unfold chunks_of, process_markdown_file.
  rewrite Ho.
  destruct (decode_utf8 (lib env) (read_bytes (tree env) p)) as [content|];
    [|contradiction].
  destruct (negb (truthy (strip content))); [contradiction|reflexivity].
Qed.

(** [update_source_document] when its DELETE fails. *)
Lemma update_source_document_delete_fails (env : Env) (p h : str) (w : World) (r : DocRow) :
  let n := length (pg_log w) in
  store_fault (pg env) n = false ->
  store_fault (pg env) (S n) = false ->
  store_fault (pg env) (S (S n)) = true ->
  fetch_document p (db w) = Some r ->
  update_source_document env p h w =
  (Raise (PostgresError (S (S n))),
   set_db (sql_update_document h p (current_timestamp (pg env) (S n)) (db w))
     (log_stmt (DeleteChunks (doc_id r))
        (log_stmt (UpdateDocument h p) (log_stmt (SelectId p) w)))).
Proof.
  intros n H0 H1 H2 Hf.
  unfold update_source_document, bind, pg_call.
  fold n; rewrite H0, Hf; simpl.
  rewrite length_log; fold n; rewrite H1; simpl.
  rewrite !length_log; fold n; rewrite H2; simpl.
  reflexivity.
Qed.

(** When the check succeeds and asks for an update and the file has chunks,
    [index_file] goes on with the upsert; what follows depends on its
    outcome only. *)
Lemma index_file_upsert_step (env : Env) (p h : str) (w : World) :
  calculate_file_hash env p = Ret h ->
  store_fault (pg env) (length (pg_log w)) = false ->
  (forall r, fetch_document p (db w) = Some r -> file_hash r <> h) ->
  chunks_of env p <> [] ->
  exists w2,
    w2 = run (print (Processing (path_name p))) (log_stmt (SelectFileHash p) w) /\
    db w2 = db w /\ pg_log w2 = pg_log w ++ [SelectFileHash p] /\ http_log w2 = http_log w /\
    index_file env p w =
    match update_source_document env p h w2 with
    | (Ret sid, w3) =>
        print (Indexed (path_name p) (length (chunks_of env p)))
          (run (insert_chunks env sid (chunks_of env p)) w3)
    | (Raise e, w3) => print (FileFailed p e) w3
    end.
Proof.
  intros Hhash H0 Hneeds Hc.
  destruct (hashed_is_opened env p h Hhash) as [Ho ->].
  pose proof (check_file_needs_update_eq env p (fingerprint env p) w) as E.
  rewrite H0 in E.
  assert (Hb : match fetch_document p (db w) with
               | Some r => negb (str_eqb (file_hash r) (fingerprint env p))
               | None => true
               end = true).
  { destruct (fetch_document p (db w)) as [r|]; [|reflexivity].
    specialize (Hneeds r eq_refl).
    apply str_eqb_neq in Hneeds.
    now rewrite Hneeds. }
  rewrite Hb in E.
  pose proof (process_markdown_file_quiet env p
                (run (print (Processing (path_name p))) (log_stmt (SelectFileHash p) w)) Ho Hc)
    as Ep.
  exists (run (print (Processing (path_name p))) (log_stmt (SelectFileHash p) w)).
  split; [reflexivity|].
  split; [reflexivity|].
  split; [reflexivity|].
  split; [reflexivity|].
  set (w2 := run (print (Processing (path_name p))) (log_stmt (SelectFileHash p) w)) in *.
  rewrite (index_file_opened env p w Ho); unfold index_opened.
  rewrite (try_except_bind_ret _ _ _ _ _ _ E); simpl negb; cbv iota.
  unfold try_except, bind at 1 2.
  change (print (Processing (path_name p)) (log_stmt (SelectFileHash p) w))
    with (Ret tt, w2).
  cbv beta iota.
  rewrite Ep.
  destruct (chunks_of env p) as [|c chunks] eqn:Ec; [contradiction|].
  change (negb (truthy (c :: chunks))) with false; cbv beta iota.
  unfold bind at 1.
  destruct (update_source_document env p (fingerprint env p) w2) as [[sid|e] w3];
    [|reflexivity].
  unfold bind at 1.
  pose proof (insert_chunks_appends env sid (c :: chunks) w3) as (Hres & _).
  unfold result, run in *.
  destruct (insert_chunks env sid (c :: chunks) w3) as [o w4].
  simpl in Hres; subst o.
  reflexivity.
Qed.


(** ** Files without chunks *)

(** The three named causes of an empty chunk list. *)
Lemma undecodable_or_blank_file (env : Env) (p : str) :
  can_open (tree env) p = true ->
  decode_utf8 (lib env) (read_bytes (tree env) p) = None \/
  (exists content, decode_utf8 (lib env) (read_bytes (tree env) p) = Some content /\
                   strip content = []) ->
  forall w, result (process_markdown_file env p) w = Ret [].
Proof.
  intros Ho H w.
  rewrite process_markdown_file_result by exact Ho.
  unfold chunks_of.
  destruct H as [->|(content & -> & ->)]; reflexivity.
Qed.

(** * Part III: the claims *)

(** ** C1: a document with a fingerprint and no chunk *)

(** C1, as the code has it.  The decision to skip looks at the fingerprint
    only.  When the first row for a path stores the current fingerprint of
    the file, [index_file] sends the SELECT of the check and nothing else:
    no request goes to the embedding service and both tables stay as they
    are, whatever the number of chunk rows of that document, zero
    included. *)
Theorem index_file_same_fingerprint_skips (env : Env) (p : str) (w : World) (r : DocRow) :
  fetch_document p (db w) = Some r ->
  calculate_file_hash env p = Ret (file_hash r) ->
  let w' := run (index_file env p) w in
  result (index_file env p) w = Ret tt /\
  db w' = db w /\
  http_log w' = http_log w /\
  pg_log w' = pg_log w ++ [SelectFileHash p].
Proof.
  intros Hf Hh w'.
  destruct (index_file_nothing_to_do env p w) as (Hr & Hdb & Hpg & Hhttp).
  { left; now exists r. }
  auto.
Qed.

Lemma index_file_same_fingerprint_skips_witness :
  fetch_document (py "a.md") (db Runs.chunkless) = Some Runs.hello_row /\
  calculate_file_hash Runs.one_note (py "a.md") = Ret (file_hash Runs.hello_row) /\
  document_chunks (db Runs.chunkless) = [] /\
  let w' := run (index_file Runs.one_note (py "a.md")) Runs.chunkless in
  result (index_file Runs.one_note (py "a.md")) Runs.chunkless = Ret tt /\
  db w' = db Runs.chunkless /\
  http_log w' = http_log Runs.chunkless /\
  pg_log w' = pg_log Runs.chunkless ++ [SelectFileHash (py "a.md")].
Proof.
  split; [reflexivity|].
  split; [reflexivity|].
  split; [reflexivity|].
  apply (index_file_same_fingerprint_skips Runs.one_note (py "a.md") Runs.chunkless
           Runs.hello_row).
  - reflexivity.
  - reflexivity.
Defined.

(** C1, as the spec has it, fails.  The note [a.md] is indexed while the
    service is down: the pass stores its fingerprint and no chunk.  The
    content stays the same and the service comes back; the next pass finds
    the stored fingerprint equal to the current one, prints that the file is
    up to date, asks for no embedding and leaves the document without
    chunks. *)
Lemma chunkless_document_is_never_redone :
  let w1 := Runs.chunkless in
  let w2 := run (index_all_files Runs.one_note) w1 in
  source_documents (db w1) = [Runs.hello_row] /\
  document_chunks (db w1) = [] /\
  calculate_file_hash Runs.one_note (py "a.md") = Ret Runs.hello_digest /\
  stdout w2 = stdout w1 ++ [Found 1; UpToDate (py "a.md")] /\
  http_log w2 = http_log w1 /\
  document_chunks (db w2) = [].
Proof. vm_compute. repeat split. Qed.

(** ** C2: idempotence of a pass *)

(** C2.  Let a pass run with a store that does not fail, and let a second
    pass run over the same files with the same content, whatever the
    services do then.  The second pass sends no write statement (no INSERT,
    UPDATE or DELETE, on either table) and no request to the embedding
    service, and leaves both tables exactly as the first pass left them; if
    it can connect, all it sends is the check of each file that can be
    opened.  This covers every tree on which the first pass embedded and
    wrote every chunk, and also the entries of the listing that [open]
    refuses: they are given up before anything is sent, in both passes. *)
Theorem second_pass_writes_nothing (env1 env2 : Env) (w0 : World) :
  same_content env1 env2 ->
  (forall n, store_fault (pg env1) n = false) ->
  let w1 := run (index_all_files env1) w0 in
  let w2 := run (index_all_files env2) w1 in
  db w2 = db w1 /\
  document_chunks (db w2) = document_chunks (db w1) /\
  filter is_write (pg_log w2) = filter is_write (pg_log w1) /\
  http_log w2 = http_log w1 /\
  (store_fault (pg env2) (length (pg_log w1)) = false ->
   pg_log w2 =
     pg_log w1 ++ [Connect]
     ++ map SelectFileHash (filter (can_open (tree env2)) (rglob_md (tree env2)))
     ++ [Close]).
Proof.
  intros Hsame Hok w1 w2.
  assert (Hsettled : forall p, In p (rglob_md (tree env2)) ->
                               can_open (tree env2) p = true ->
                               nothing_to_do env2 p (db w1)).
  { intros p Hp Ho.
    apply (same_content_nothing_to_do env1 env2 p _ Hsame).
    unfold w1, run.
    rewrite index_all_files_eq, Hok; simpl.
    destruct Hsame as [_ Ht].
    apply pass_settles_every_file; [exact Hok|now rewrite <- Ht|now rewrite <- Ht]. }
  assert (Hreads : forall files,
            filter is_write (map SelectFileHash files) = []).
  { intros files; induction files; simpl; auto. }
  unfold w2, run.
  rewrite index_all_files_eq.
  destruct (store_fault (pg env2) (length (pg_log w1))); simpl.
  - repeat split.
    + rewrite filter_app; simpl; apply app_nil_r.
    + discriminate.
  - destruct (settled_pass_only_checks env2 (rglob_md (tree env2))
                (run (print (Found (length (rglob_md (tree env2))))) (log_stmt Connect w1)))
      as (Hdb & Hpg & Hhttp).
    { exact Hsettled. }
    simpl in Hdb, Hpg, Hhttp.
    rewrite Hdb, Hpg, Hhttp.
    repeat split.
    + rewrite !filter_app, Hreads; simpl.
      now rewrite !app_nil_r.
    + intros _.
      now rewrite <- !app_assoc.
Qed.

Lemma second_pass_writes_nothing_witness :
  let w1 := Twice.after_first in
  let w2 := run (index_all_files Twice.second) w1 in
  same_content Twice.first Twice.second /\
  (forall n, store_fault (pg Twice.first) n = false) /\
  length (document_chunks (db w1)) = 4%nat /\
  db w2 = db w1 /\
  filter is_write (pg_log w2) = filter is_write (pg_log w1) /\
  http_log w2 = http_log w1.
Proof.
  intros w1 w2.
  assert (Hsame : same_content Twice.first Twice.second) by (split; reflexivity).
  assert (Hok : forall n, store_fault (pg Twice.first) n = false) by (intros n; reflexivity).
  split; [exact Hsame|].
  split; [exact Hok|].
  split; [reflexivity|].
  destruct (second_pass_writes_nothing Twice.first Twice.second Demo.fresh Hsame Hok)
    as (Hdb & _ & Hw & Hhttp & _).
  split; [exact Hdb|].
  split; [exact Hw|exact Hhttp].
Defined.

(** ** C3: store failures *)




(** ** C4: normalisation *)

(** C4, as the code has it.  Whenever the service answers 200 with a vector
    [v], [get_embedding] returns [v], and the literal that goes to the
    store, in the INSERT of [insert_chunks] and in the query of
    [search_similar], is built from the components of [v] each divided by
    [np.linalg.norm(v)].  There is no test on the norm: this holds for every
    [v], the zero vector included. *)
Theorem embedding_is_divided_by_its_norm (env : Env) (w : World) (v : list float) :
  let unit_vec := vec_str (map (fun x => x / linalg_norm v)%float v) in
  (forall sid c,
     ollama env (length (http_log w)) (text c) = Http200 v ->
     result (get_embedding env (text c)) w = Ret v /\
     pg_log (run (insert_chunk env sid c) w) =
       pg_log w ++ [InsertChunk sid (text c) unit_vec (chunk_metadata c)]) /\
  (forall query limit,
     store_fault (pg env) (length (pg_log w)) = false ->
     ollama env (length (http_log w)) query = Http200 v ->
     result (get_embedding env query) w = Ret v /\
     pg_log (run (search_similar env query limit) w) =
       pg_log w ++ [Connect; SelectNearest unit_vec limit; Close]).
Proof.
  intros unit_vec.
  split.
  - intros sid c Hv.
    split.
    + unfold result, get_embedding; rewrite Hv; reflexivity.
    + unfold run.
      rewrite insert_chunk_eq, Hv; simpl.
      destruct (store_fault (pg env) (length (pg_log w))); reflexivity.
  - intros query limit Hok Hv.
    split.
    + unfold result, get_embedding; rewrite Hv; reflexivity.
    + unfold run.
      rewrite search_similar_eq, Hok, Hv; simpl.
      destruct ((limit <? 0)%Z || store_fault (pg env) (S (length (pg_log w)))); simpl;
        rewrite <- !app_assoc; reflexivity.
Qed.

Lemma embedding_is_divided_by_its_norm_witness :
  let env := Degenerate.env in
  let w := Demo.fresh in
  let v := [0; 0]%float in
  ollama env (length (http_log w)) (py "hello") = Http200 v /\
  store_fault (pg env) (length (pg_log w)) = false /\
  pg_log (run (insert_chunk env 1 Degenerate.hello) w) =
    pg_log w ++ [InsertChunk 1 (py "hello")
                   (vec_str (map (fun x => x / linalg_norm v)%float v))
                   (chunk_metadata Degenerate.hello)] /\
  pg_log (run (search_similar env (py "hello") 5) w) =
    pg_log w ++ [Connect;
                 SelectNearest (vec_str (map (fun x => x / linalg_norm v)%float v)) 5;
                 Close].
Proof.
  intros env w v.
  pose proof (embedding_is_divided_by_its_norm env w v) as [Hins Hsearch].
  assert (Hv : ollama env (length (http_log w)) (py "hello") = Http200 v) by reflexivity.
  assert (Hok : store_fault (pg env) (length (pg_log w)) = false) by reflexivity.
  split; [exact Hv|].
  split; [exact Hok|].
  split.
  - exact (proj2 (Hins 1%Z Degenerate.hello Hv)).
  - exact (proj2 (Hsearch (py "hello") 5%Z Hok Hv)).
Defined.

(** C4, as the spec has it, fails.  For the zero vector [get_embedding]
    returns normally, the norm is zero, the division is carried out and
    gives [nan] in every component, no exception is raised, and the INSERT
    is sent with the literal [[nan,nan]]. *)
Lemma zero_vector_is_divided_by_zero :
  result (get_embedding Degenerate.env (py "hello")) Demo.fresh = Ret [0; 0]%float /\
  linalg_norm [0; 0]%float = 0%float /\
  normalize [0; 0]%float = [nan; nan]%float /\
  result (insert_chunk Degenerate.env 1 Degenerate.hello) Demo.fresh = Ret tt /\
  stdout (run (insert_chunk Degenerate.env 1 Degenerate.hello) Demo.fresh) = [] /\
  pg_log (run (insert_chunk Degenerate.env 1 Degenerate.hello) Demo.fresh) =
    [InsertChunk 1 (py "hello") (py "[nan,nan]") (chunk_metadata Degenerate.hello)].
Proof. vm_compute. repeat split. Qed.

(** ** C5: upserting a document *)

(** C5, as the code has it.  When its statements succeed,
    [update_source_document] does one of two things.  If no row has the path, it appends one row with the path
    and the fingerprint, under the next id of the sequence, and leaves
    [document_chunks] alone.  Otherwise it inserts no row, gives every row of
    that path the new fingerprint and the current timestamp, keeps the other
    rows, returns the id of the row it found, and in the same call deletes
    exactly the chunk rows owned by that id.  So when [index_file] reindexes
    a document whose fingerprint has changed, [document_chunks] afterwards
    holds the rows of the other documents and, after them, the rows just
    inserted for this one: none of its earlier rows is left.  The UPDATE and
    the DELETE are two statements, each in effect as soon as it returns:
    when the DELETE fails after the UPDATE, the call raises with the new
    fingerprint stored and every chunk row still in place. *)
Theorem update_source_document_upserts (env : Env) (p : str) (w : World) :
  let n := length (pg_log w) in
  (forall h,
     let now := current_timestamp (pg env) (S n) in
     let w' := run (update_source_document env p h) w in
     store_fault (pg env) n = false ->
     store_fault (pg env) (S n) = false ->
     store_fault (pg env) (S (S n)) = false ->
     match fetch_document p (db w) with
     | None =>
         (forall r, In r (source_documents (db w)) -> file_path r <> p) /\
         result (update_source_document env p h) w = Ret (source_documents_id_seq (db w)) /\
         source_documents (db w') =
           source_documents (db w) ++
           [{| doc_id := source_documents_id_seq (db w); file_path := p; file_hash := h;
               last_indexed_at := default_last_indexed_at (pg env) now |}] /\
         document_chunks (db w') = document_chunks (db w)
     | Some r =>
         In r (source_documents (db w)) /\ file_path r = p /\
         result (update_source_document env p h) w = Ret (doc_id r) /\
         map file_path (source_documents (db w')) = map file_path (source_documents (db w)) /\
         (forall r', In r' (source_documents (db w')) -> file_path r' = p ->
                     file_hash r' = h /\ last_indexed_at r' = Some now) /\
         (forall r', In r' (source_documents (db w)) -> file_path r' <> p ->
                     In r' (source_documents (db w'))) /\
         (forall c, In c (document_chunks (db w')) <->
                    In c (document_chunks (db w)) /\ source_id c <> doc_id r)
     end) /\
  (forall r h,
     store_fault (pg env) n = false ->
     store_fault (pg env) (S n) = false ->
     store_fault (pg env) (S (S n)) = false ->
     store_fault (pg env) (S (S (S n))) = false ->
     fetch_document p (db w) = Some r ->
     calculate_file_hash env p = Ret h ->
     file_hash r <> h ->
     chunks_of env p <> [] ->
     exists rows,
       document_chunks (db (run (index_file env p) w)) =
         filter (fun c => negb (source_id c =? doc_id r)%Z) (document_chunks (db w)) ++ rows /\
       Forall (fun c => source_id c = doc_id r) rows /\
       subseq (map row_content rows) (map chunk_content (chunks_of env p))) /\
  (forall r h,
     let now := current_timestamp (pg env) (S n) in
     let w' := run (update_source_document env p h) w in
     store_fault (pg env) n = false ->
     store_fault (pg env) (S n) = false ->
     store_fault (pg env) (S (S n)) = true ->
     fetch_document p (db w) = Some r ->
     result (update_source_document env p h) w = Raise (PostgresError (S (S n))) /\
     source_documents (db w') = map (touch h p now) (source_documents (db w)) /\
     document_chunks (db w') = document_chunks (db w)).
Proof.
  intros n.
  split; [|split].
  - intros h now w' H0 H1 H2.
    exact (upsert_effect env p h w H0 H1 H2).
  - intros r h H0 H1 H2 H3 Hf Hhash Hh Hc.
    exact (changed_document_is_replaced env p h w r H0 H1 H2 H3 Hf Hhash Hh Hc).
  - intros r h now w' H0 H1 H2 Hf.
    unfold w', result, run.
    rewrite (update_source_document_delete_fails env p h w r H0 H1 H2 Hf).
    simpl; auto.
Qed.

Lemma update_source_document_upserts_witness :
  let env := Runs.edited in
  let w := Runs.indexed in
  let p := py "a.md" in
  let h := py "3908c567feda72bc0dbdb2dff040fe0d3470dcd51b942374378a476930dbf6b3" in
  let n := length (pg_log w) in
  let now := current_timestamp (pg env) (S n) in
  let w' := run (update_source_document env p h) w in
  (store_fault (pg env) n = false /\
   store_fault (pg env) (S n) = false /\
   store_fault (pg env) (S (S n)) = false /\
   store_fault (pg env) (S (S (S n))) = false) /\
  (fetch_document p (db w) = Some Runs.hello_row /\
   calculate_file_hash env p = Ret h /\
   file_hash Runs.hello_row <> h /\
   chunks_of env p <> []) /\
  result (update_source_document env p h) w = Ret 1%Z /\
  (forall r', In r' (source_documents (db w')) -> file_path r' = p ->
              file_hash r' = h /\ last_indexed_at r' = Some now) /\
  (forall c, In c (document_chunks (db w')) <->
             In c (document_chunks (db w)) /\ source_id c <> 1%Z) /\
  exists rows,
    document_chunks (db (run (index_file env p) w)) =
      filter (fun c => negb (source_id c =? 1)%Z) (document_chunks (db w)) ++ rows /\
    Forall (fun c => source_id c = 1%Z) rows.
Proof.
  intros env w p h n now w'.
  assert (Hf : fetch_document p (db w) = Some Runs.hello_row) by reflexivity.
  assert (Hhash : calculate_file_hash env p = Ret h) by reflexivity.
  assert (Hh : file_hash Runs.hello_row <> h) by (vm_compute; discriminate).
  assert (Hc : chunks_of env p <> []) by (vm_compute; discriminate).
  split; [repeat split; reflexivity|].
  split; [repeat split; assumption|].
  destruct (update_source_document_upserts env p w) as (Hupsert & Hreindex & _).
  specialize (Hupsert h eq_refl eq_refl eq_refl).
  cbv zeta in Hupsert.
  rewrite Hf in Hupsert.
  destruct Hupsert as (_ & _ & Hres & _ & Hrows & _ & Hchunks).
  split; [exact Hres|].
  split; [exact Hrows|].
  split; [exact Hchunks|].
  destruct (Hreindex Runs.hello_row h eq_refl eq_refl eq_refl eq_refl Hf Hhash Hh Hc)
    as (rows & Hdoc & Hsid & _).
  exists rows.
  split; [exact Hdoc|exact Hsid].
Defined.

(** C5, as the spec has it, fails.  The note [a.md] is indexed, then
    edited; when it is indexed again the UPDATE of its row succeeds and the
    DELETE of its chunks fails.  [index_file] returns normally: the row
    holds the fingerprint of the new content and the chunk of the old
    content is still there. *)
Lemma failed_delete_is_a_partial_merge :
  let w := Runs.indexed in
  let w' := run (index_file Stale.env (py "a.md")) w in
  map chunk_text (document_chunks (db w)) = [py "hello"] /\
  map text (chunks_of Stale.env (py "a.md")) = [py "hello again"] /\
  nth_error (pg_log w') (length (pg_log w) + 3) = Some (DeleteChunks 1) /\
  store_fault (pg Stale.env) (length (pg_log w) + 3) = true /\
  result (index_file Stale.env (py "a.md")) w = Ret tt /\
  map file_hash (source_documents (db w')) =
    [py "3908c567feda72bc0dbdb2dff040fe0d3470dcd51b942374378a476930dbf6b3"] /\
  map chunk_text (document_chunks (db w')) = [py "hello"].
Proof. vm_compute. repeat split. Qed.

(** ** C6: ranking *)

(** C6.  When the connection and the query succeed and the service embeds
    the query text as [v], [search_similar] with a limit [k >= 0] returns a
    list of at most [k] results (as many as the join has rows, if fewer), in
    non-decreasing order of the distance between the normalised query vector
    and the stored embedding; every result is a chunk row joined with the
    path of the document that owns it; without chunk rows the list is empty
    and no exception is raised.  The tables are not changed. *)
Theorem search_similar_ranks (env : Env) (query : str) (limit : Z) (w : World)
  (v : list float) :
  let n := length (pg_log w) in
  let q := vec_str (normalize v) in
  store_fault (pg env) n = false ->
  store_fault (pg env) (S n) = false ->
  ollama env (length (http_log w)) query = Http200 v ->
  (0 <= limit)%Z ->
  exists results,
    result (search_similar env query limit) w = Ret results /\
    db (run (search_similar env query limit) w) = db w /\
    (Z.of_nat (length results) <= limit)%Z /\
    length results =
      Nat.min (Z.to_nat limit) (length (joined (l2_distance (pg env)) q (db w))) /\
    StronglySorted closer results /\
    (forall r, In r results ->
       exists dc sd,
         In dc (document_chunks (db w)) /\ In sd (source_documents (db w)) /\
         source_id dc = doc_id sd /\
         res_text r = chunk_text dc /\ res_metadata r = metadata dc /\
         res_file_path r = file_path sd /\
         distance r = l2_distance (pg env) (embedding dc) q) /\
    (document_chunks (db w) = [] -> results = []).
Proof.
  intros n q H0 H1 Hv Hk.
  exists (sql_select_nearest (l2_distance (pg env)) q limit (db w)).
  unfold result, run.
  rewrite search_similar_eq; fold n; rewrite H0, Hv; simpl.
  fold q.
  replace (limit <? 0)%Z with false by (symmetry; apply Z.ltb_ge; exact Hk).
  rewrite H1; simpl.
  split; [reflexivity|].
  split; [reflexivity|].
  assert (Hlen : length (sql_select_nearest (l2_distance (pg env)) q limit (db w)) =
                 Nat.min (Z.to_nat limit)
                   (length (joined (l2_distance (pg env)) q (db w)))).
  { unfold sql_select_nearest.
    now rewrite length_firstn, order_by_distance_length. }
  split; [rewrite Hlen; lia|].
  split; [exact Hlen|].
  split.
  { apply firstn_sorted, order_by_distance_sorted. }
  split.
  { intros r Hr.
    unfold sql_select_nearest in Hr.
    apply (subseq_In _ _ r (subseq_firstn _ _)) in Hr.
    apply order_by_distance_In, joined_In in Hr.
    destruct Hr as (dc & sd & Hdc & Hsd & Heq & ->).
    exists dc, sd; simpl; repeat split; auto. }
  intros Hnone.
  unfold sql_select_nearest, joined.
  rewrite Hnone; simpl.
  apply firstn_nil.
Qed.

Lemma search_similar_ranks_witness :
  let env := Library.env in
  let w := Library.filled in
  let n := length (pg_log w) in
  store_fault (pg env) n = false /\
  store_fault (pg env) (S n) = false /\
  ollama env (length (http_log w)) (py "world") = Http200 [4; 3]%float /\
  (0 <= 2)%Z /\
  exists results,
    result (search_similar env (py "world") 2) w = Ret results /\
    length results = 2%nat /\
    StronglySorted closer results.
Proof.
  intros env w n.
  split; [reflexivity|].
  split; [reflexivity|].
  split; [reflexivity|].
  split; [lia|].
  destruct (search_similar_ranks env (py "world") 2 w [4; 3]%float)
    as (results & Hres & _ & _ & Hlen & Hsorted & _).
  - reflexivity.
  - reflexivity.
  - reflexivity.
  - lia.
  - exists results.
    split; [exact Hres|].
    split; [rewrite Hlen; reflexivity|exact Hsorted].
Defined.

(** ** C7: the norm of what is stored *)

(** C7, at an input where the code breaks it.  The squares overflow, so
    [np.linalg.norm] is infinite and every quotient is zero: the pass
    returns normally, prints no failure, and the row of [a.md] holds the
    zero vector, whose norm is 0 and not 1. *)
Lemma overflowing_embedding_is_stored_as_zero :
  let w := run (index_all_files Overflow.env) Demo.fresh in
  linalg_norm [1e200; 1e200]%float = infinity /\
  normalize [1e200; 1e200]%float = [0; 0]%float /\
  result (index_all_files Overflow.env) Demo.fresh = Ret tt /\
  stdout w = [Found 1; Processing (py "a.md"); Indexed (py "a.md") 1] /\
  map embedding (document_chunks (db w)) = [py "[0.00000000,0.00000000]"].
Proof. vm_compute. repeat split. Qed.

(** ** C8: the decision to reindex *)

(** C8.  On a store whose paths are unique, [check_file_needs_update]
    answers true if and only if no row has the given path or the row with
    that path has a fingerprint different from the given one; it answers
    false exactly when a row with that path and an equal fingerprint
    exists.  The check sends one SELECT and changes no table. *)
Theorem check_file_needs_update_iff (env : Env) (p h : str) (w : World) :
  unique_paths (db w) ->
  store_fault (pg env) (length (pg_log w)) = false ->
  exists b : bool,
    check_file_needs_update env p h w = (Ret b, log_stmt (SelectFileHash p) w) /\
    (b = true <->
       (forall r, In r (source_documents (db w)) -> file_path r <> p) \/
       (exists r, In r (source_documents (db w)) /\ file_path r = p /\ file_hash r <> h)) /\
    (b = false <->
       exists r, In r (source_documents (db w)) /\ file_path r = p /\ file_hash r = h).
Proof.
  intros Hu Hok.
  rewrite check_file_needs_update_eq, Hok.
  destruct (fetch_document p (db w)) as [r|] eqn:Ef.
  - destruct (fetch_document_some _ _ _ Ef) as [Hin Hp].
    exists (negb (str_eqb (file_hash r) h)).
    split; [reflexivity|].
    destruct (str_eqb (file_hash r) h) eqn:Eh; simpl.
    + apply str_eqb_eq in Eh.
      split; split; try discriminate.
      * intros [Hnone|(r' & Hin' & Hp' & Hh')]; exfalso.
        -- now apply (Hnone r).
        -- rewrite (fetch_document_unique _ _ _ Hu Hin' Hp') in Ef.
           injection Ef as ->; contradiction.
      * intros _; now exists r.
      * reflexivity.
    + apply str_eqb_neq in Eh.
      split; split; try reflexivity; try discriminate.
      * intros _; right; now exists r.
      * intros (r' & Hin' & Hp' & Hh'); exfalso.
        rewrite (fetch_document_unique _ _ _ Hu Hin' Hp') in Ef.
        injection Ef as ->; contradiction.
  - exists true.
    split; [reflexivity|].
    split; split; try reflexivity; try discriminate.
    + intros _; left; apply (fetch_document_none _ _ Ef).
    + intros (r & Hin & Hp & _); exfalso.
      now apply (fetch_document_none _ _ Ef r).
Qed.

Lemma check_file_needs_update_iff_witness :
  unique_paths (db Runs.indexed) /\
  store_fault (pg Runs.one_note) (length (pg_log Runs.indexed)) = false /\
  exists b : bool,
    check_file_needs_update Runs.one_note (py "a.md") Runs.hello_digest Runs.indexed =
      (Ret b, log_stmt (SelectFileHash (py "a.md")) Runs.indexed) /\
    (b = true <->
       (forall r, In r (source_documents (db Runs.indexed)) -> file_path r <> py "a.md") \/
       (exists r, In r (source_documents (db Runs.indexed)) /\ file_path r = py "a.md" /\
                  file_hash r <> Runs.hello_digest)) /\
    (b = false <->
       exists r, In r (source_documents (db Runs.indexed)) /\ file_path r = py "a.md" /\
                 file_hash r = Runs.hello_digest).
Proof.
  assert (Hu : unique_paths (db Runs.indexed)).
  { unfold unique_paths.
    vm_compute.
    constructor; [intros []|constructor]. }
  split; [exact Hu|].
  split; [reflexivity|].
  apply (check_file_needs_update_iff Runs.one_note (py "a.md") Runs.hello_digest Runs.indexed).
  - exact Hu.
  - reflexivity.
Defined.

(** ** C9: chunk indices *)

(** C9, as the code has it.  The [chunk_index] of a chunk is the position of
    its segment in the list that the splitter returned, blank segments
    counted.  For the rows that [insert_chunks] writes for the chunks of one
    document: each row's index points at the segment whose stripped text the
    row holds; the indices increase strictly from row to row; and when no
    segment is blank and neither the service nor the store fails, they are
    [0, 1, ..., n-1] for the [n] segments. *)
Theorem chunk_index_is_the_segment_position (env : Env) (p : str) (docs : list Document)
  (sid : Z) (w : World) :
  let chunks := processed_chunks p 0 docs in
  let w' := run (insert_chunks env sid chunks) w in
  exists rows,
    document_chunks (db w') = document_chunks (db w) ++ rows /\
    (forall r, In r rows ->
       exists d, nth_error docs (row_index r) = Some d /\
                 chunk_text r = strip (page_content d) /\
                 headers (metadata r) = doc_metadata d) /\
    StronglySorted lt (map row_index rows) /\
    (forallb nonblank docs = true ->
     (forall n, store_fault (pg env) n = false) ->
     (forall n t, exists v, ollama env n t = Http200 v) ->
     map row_index rows = seq 0 (length docs)).
Proof.
  intros chunks w'.
  destruct (insert_chunks_appends env sid chunks w) as (_ & _ & rows & Hrows & _ & Hsub).
  exists rows.
  split; [exact Hrows|].
  split.
  { intros r Hr.
    assert (Hc : In (row_content r) (map chunk_content chunks)).
    { apply (subseq_In _ _ _ Hsub).
      now apply in_map. }
    apply in_map_iff in Hc.
    destruct Hc as (c & Hcr & Hc).
    unfold chunk_content, row_content in Hcr.
    injection Hcr as Ht Hm.
    destruct (processed_chunks_origin p docs 0 c Hc) as (d & _ & Hnth & Htext & _ & Hh).
    exists d.
    unfold row_index.
    rewrite <- Hm, <- Ht.
    rewrite Nat.sub_0_r in Hnth.
    auto. }
  split.
  { rewrite row_index_of_content.
    apply (subseq_sorted lt _ (map index_of chunks)).
    - rewrite index_of_content.
      now apply subseq_map.
    - apply processed_chunks_increasing. }
  intros Hnb Hpg Hol.
  destruct (insert_chunks_all env sid chunks w Hpg Hol) as (rows' & Hrows' & Hmap).
  unfold w' in Hrows.
  rewrite Hrows in Hrows'.
  apply app_inv_head in Hrows'.
  subst rows'.
  rewrite row_index_of_content, Hmap, <- index_of_content.
  now apply processed_chunks_consecutive.
Qed.

Lemma chunk_index_is_the_segment_position_witness :
  let env := Sections.healthy in
  let docs := split_text (lib env) (py Demo.three_sections) in
  let w' := run (insert_chunks env 1 (processed_chunks (py "n.md") 0 docs)) Demo.fresh in
  forallb nonblank docs = true /\
  (forall n, store_fault (pg env) n = false) /\
  (forall n t, exists v, ollama env n t = Http200 v) /\
  map row_index (document_chunks (db w')) = [0; 1; 2]%nat.
Proof.
  intros env docs w'.
  assert (Hnb : forallb nonblank docs = true) by reflexivity.
  assert (Hpg : forall n, store_fault (pg env) n = false) by (intros n; reflexivity).
  assert (Hol : forall n t, exists v, ollama env n t = Http200 v).
  { intros n t; exists [3; 4]%float; reflexivity. }
  split; [exact Hnb|].
  split; [exact Hpg|].
  split; [exact Hol|].
  destruct (chunk_index_is_the_segment_position env (py "n.md") docs 1 Demo.fresh)
    as (rows & Hrows & _ & _ & Hall).
  change (document_chunks (db w') = rows) in Hrows.
  rewrite Hrows.
  exact (Hall Hnb Hpg Hol).
Defined.

(** C9, as the spec has it, fails.  Of the three segments of [n.md] the
    second is not embedded; the two rows that are written carry the indices
    0 and 2. *)
Lemma persisted_indices_skip_failed_chunks :
  let w' := run (index_all_files Sections.env) Demo.fresh in
  map (fun d => strip (page_content d)) (split_text (lib Sections.env) (py Demo.three_sections))
    = [py "x"; py "y"; py "z"] /\
  stdout w' = [Found 1; Processing (py "n.md");
               ChunkFailed (EmbeddingFailed (py "internal error"));
               Indexed (py "n.md") 3] /\
  map (fun r => (chunk_text r, row_index r)) (document_chunks (db w')) =
    [(py "x", 0%nat); (py "z", 2%nat)].
Proof. vm_compute. repeat split. Qed.

(** ** C10: a file without chunks *)

(** C10.  When the current content of a path gives no chunk
    ([process_markdown_file] returns the empty list: the file does not
    decode, is empty or blank, or has only blank segments), [index_file]
    returns normally, sends the SELECT of the check and nothing else, and
    leaves every row of both tables as it was. *)
Theorem index_file_without_chunks (env : Env) (p : str) (w : World) :
  result (process_markdown_file env p) w = Ret [] ->
  let w' := run (index_file env p) w in
  result (index_file env p) w = Ret tt /\
  db w' = db w /\
  pg_log w' = pg_log w ++ [SelectFileHash p] /\
  filter is_write (pg_log w') = filter is_write (pg_log w).
Proof.
  intros H w'.
  assert (Ho : can_open (tree env) p = true).
  { unfold result, process_markdown_file in H.
    destruct (can_open (tree env) p); [reflexivity|discriminate]. }
  rewrite process_markdown_file_result in H by exact Ho.
  injection H as H.
  destruct (index_file_nothing_to_do env p w) as (Hr & Hdb & Hpg & _).
  { right; split; [exact Ho|exact H]. }
  repeat split; auto.
  unfold w'; rewrite Hpg, filter_app; simpl.
  apply app_nil_r.
Qed.

Lemma index_file_without_chunks_witness :
  result (process_markdown_file Runs.blank_note (py "blank.md")) Runs.indexed = Ret [] /\
  let w' := run (index_file Runs.blank_note (py "blank.md")) Runs.indexed in
  result (index_file Runs.blank_note (py "blank.md")) Runs.indexed = Ret tt /\
  db w' = db Runs.indexed /\
  pg_log w' = pg_log Runs.indexed ++ [SelectFileHash (py "blank.md")] /\
  filter is_write (pg_log w') = filter is_write (pg_log Runs.indexed).
Proof.
  split; [reflexivity|].
  apply (index_file_without_chunks Runs.blank_note (py "blank.md") Runs.indexed).
  reflexivity.
Defined.

(** * Part IV: further properties of the indexer and of the bot *)

(** ** Reading and hashing a file *)

Lemma read_blocks_concat (size : nat) (fuel : nat) (data : bytes) :
  (0 < size)%nat -> (length data <= fuel)%nat ->
  concat (read_blocks fuel size data) = data.
Proof.
  intros Hsize.
  revert data.
  induction fuel as [|fuel IH]; intros data Hlen.
  - destruct data; [reflexivity|simpl in Hlen; lia].
  - destruct data as [|b data]; [reflexivity|].
    cbn [read_blocks concat].
    rewrite IH.
    + apply firstn_skipn.
    + rewrite length_skipn.
      lia.
Qed.

Lemma read_blocks_sizes (size : nat) (fuel : nat) (data : bytes) :
  (0 < size)%nat ->
  Forall (fun block => (0 < length block <= size)%nat) (read_blocks fuel size data).
Proof.
  intros Hsize.
  revert data.
  induction fuel as [|fuel IH]; intros data; [constructor|].
  destruct data as [|b data]; [constructor|].
  cbn [read_blocks].
  constructor; [|apply IH].
  rewrite length_firstn.
  simpl length.
  lia.
Qed.

(** X1.  The read loop of [calculate_file_hash] feeds the hash object the
    whole file and nothing else: the blocks it reads, put end to end, are the
    bytes of the file, and every block has between 1 and 4096 bytes (the
    empty file gives no block). *)
Theorem file_is_read_in_full (data : bytes) :
  let blocks := read_blocks (length data) 4096 data in
  concat blocks = data /\
  Forall (fun block => (0 < length block <= 4096)%nat) blocks /\
  (data = [] -> blocks = []).
Proof.
  intros blocks.
  split; [apply read_blocks_concat; lia|].
  split; [apply read_blocks_sizes; lia|].
  intros ->; reflexivity.
Qed.

Lemma fold_update_concat (L : Libraries) (blocks : list bytes) (s : sha256_state L) :
  (forall s a b, sha256_update L (sha256_update L s a) b = sha256_update L s (a ++ b)) ->
  (forall s, sha256_update L s [] = s) ->
  fold_left (sha256_update L) blocks s = sha256_update L s (concat blocks).
Proof.
  intros Happ Hnil.
  revert s.
  induction blocks as [|b blocks IH]; intros s; simpl.
  - now rewrite Hnil.
  - now rewrite IH, Happ.
Qed.

(** X2.  For a hash object that is a stream (feeding [a] and then [b] is
    feeding [a ++ b], and feeding nothing changes nothing), the fingerprint
    computed in blocks of 4096 bytes is the digest of the file fed at once.
    Files with the same bytes get the same fingerprint, whatever their
    length.  An entry that cannot be opened has no fingerprint: the
    exception of [open] leaves [calculate_file_hash]. *)
Theorem fingerprint_is_digest_of_file (env : Env) (p : str) :
  (forall s a b, sha256_update (lib env) (sha256_update (lib env) s a) b =
                 sha256_update (lib env) s (a ++ b)) ->
  (forall s, sha256_update (lib env) s [] = s) ->
  calculate_file_hash env p =
  if can_open (tree env) p
  then Ret (sha256_hexdigest (lib env)
              (sha256_update (lib env) (sha256_new (lib env)) (read_bytes (tree env) p)))
  else Raise (OSError p).
Proof.
  intros Happ Hnil.
  unfold calculate_file_hash.
  destruct (can_open (tree env) p); [|reflexivity].
  cbv zeta.
  rewrite (fold_update_concat (lib env) _ _ Happ Hnil).
  rewrite read_blocks_concat by lia.
  reflexivity.
Qed.

Lemma fingerprint_is_digest_of_file_witness :
  let env := Runs.one_note in
  (forall s a b, sha256_update (lib env) (sha256_update (lib env) s a) b =
                 sha256_update (lib env) s (a ++ b)) /\
  (forall s, sha256_update (lib env) s [] = s) /\
  calculate_file_hash env (py "a.md") =
  Ret (sha256_hexdigest (lib env)
         (sha256_update (lib env) (sha256_new (lib env)) (read_bytes (tree env) (py "a.md")))).
Proof.
  intros env.
  assert (Happ : forall s a b, sha256_update (lib env) (sha256_update (lib env) s a) b =
                               sha256_update (lib env) s (a ++ b)).
  { intros s a b; simpl; symmetry; apply app_assoc. }
  assert (Hnil : forall s, sha256_update (lib env) s [] = s).
  { intros s; simpl; apply app_nil_r. }
  split; [exact Happ|].
  split; [exact Hnil|].
  exact (fingerprint_is_digest_of_file env (py "a.md") Happ Hnil).
Defined.

(** ** The chunks of a file *)

Lemma lstrip_head (s : str) (c : N) (t : str) : lstrip s = c :: t -> isspace c = false.
Proof.
  induction s as [|x s IH]; simpl; [discriminate|].
  destruct (isspace x) eqn:E; [exact IH|].
  intros H; injection H as <- _; exact E.
Qed.

Lemma lstrip_snoc (s : str) (c : N) : isspace c = false -> lstrip (s ++ [c]) = lstrip s ++ [c].
Proof.
  intros Hc.
  induction s as [|x s IH]; simpl.
  - now rewrite Hc.
  - destruct (isspace x); [exact IH|reflexivity].
Qed.

(** [strip] leaves no whitespace at either end. *)
Lemma strip_ends (s : str) :
  (forall c t, strip s = c :: t -> isspace c = false) /\
  (forall c t, rev (strip s) = c :: t -> isspace c = false).
Proof.
  unfold strip.
  split.
  - destruct (lstrip s) as [|a u] eqn:E; [simpl; discriminate|].
    pose proof (lstrip_head s a u E) as Ha.
    simpl rev at 2.
    rewrite (lstrip_snoc (rev u) a Ha), rev_app_distr; simpl.
    intros c t H; injection H as <- _; exact Ha.
  - rewrite rev_involutive.
    apply lstrip_head.
Qed.

Lemma processed_chunks_shape (p : str) (docs : list Document) (i : nat) :
  Forall (fun c =>
            text c <> [] /\
            (forall x t, text c = x :: t -> isspace x = false) /\
            (forall x t, rev (text c) = x :: t -> isspace x = false) /\
            meta_file_name (chunk_metadata c) = path_name p /\
            meta_file_path (chunk_metadata c) = p)
         (processed_chunks p i docs) /\
  (length (processed_chunks p i docs) <= length docs)%nat.
Proof.
  revert i.
  induction docs as [|d docs IH]; intros i; simpl; [split; [constructor|lia]|].
  destruct (IH (S i)) as [Hall Hlen].
  destruct (strip (page_content d)) as [|x t] eqn:E; simpl.
  - split; [exact Hall|lia].
  - split; [|lia].
    constructor; [|exact Hall].
    simpl.
    destruct (strip_ends (page_content d)) as [Hhead Hlast].
    rewrite E in Hhead, Hlast.
    split; [discriminate|].
    split; [exact Hhead|].
    split; [exact Hlast|].
    split; reflexivity.
Qed.

(** X3.  [process_markdown_file] raises in one case only: the entry cannot
    be opened, and then the exception of [open] leaves it with nothing
    printed.  On a file that can be opened it returns normally; a file that
    does not decode is reported and gives the empty list.  Every chunk it
    returns has a text that is not empty and neither starts nor ends with
    whitespace, and carries the name and the relative path of the file;
    there are at most as many chunks as the splitter returned segments.  On
    every exit no table, store operation or request is touched. *)
Theorem chunks_are_stripped_and_labelled (env : Env) (p : str) (w : World) :
  let w' := run (process_markdown_file env p) w in
  (db w' = db w /\ pg_log w' = pg_log w /\ http_log w' = http_log w) /\
  if can_open (tree env) p
  then
    exists chunks,
      result (process_markdown_file env p) w = Ret chunks /\
      Forall (fun c =>
                text c <> [] /\
                (forall x t, text c = x :: t -> isspace x = false) /\
                (forall x t, rev (text c) = x :: t -> isspace x = false) /\
                meta_file_name (chunk_metadata c) = path_name p /\
                meta_file_path (chunk_metadata c) = p)
             chunks /\
      (forall content,
         decode_utf8 (lib env) (read_bytes (tree env) p) = Some content ->
         (length chunks <= length (split_text (lib env) content))%nat /\
         stdout w' = stdout w) /\
      (decode_utf8 (lib env) (read_bytes (tree env) p) = None ->
       chunks = [] /\ stdout w' = stdout w ++ [BadEncoding p])
  else
    result (process_markdown_file env p) w = Raise (OSError p) /\ w' = w.
Proof.
  intros w'.
  split; [apply process_markdown_file_frame|].
  destruct (can_open (tree env) p) eqn:Ho.
  - exists (chunks_of env p).
    split; [now apply process_markdown_file_result|].
    split.
    { unfold chunks_of.
      destruct (decode_utf8 (lib env) (read_bytes (tree env) p)) as [content|]; [|constructor].
      destruct (negb (truthy (strip content))); [constructor|].
      apply processed_chunks_shape. }
    split.
    { intros content Hd.
      unfold w', run, chunks_of, process_markdown_file.
      rewrite Ho, Hd.
      destruct (negb (truthy (strip content))); simpl; [split; [lia|reflexivity]|].
      split; [apply processed_chunks_shape|reflexivity]. }
    intros Hd.
    unfold w', run, chunks_of, process_markdown_file.
    rewrite Ho, Hd.
    split; reflexivity.
  - unfold w', result, run, process_markdown_file.
    rewrite Ho.
    split; reflexivity.
Qed.

(** ** What [insert_chunks] sends *)

Lemma insert_chunk_logs (env : Env) (sid : Z) (c : Chunk) (w : World) :
  http_log (run (insert_chunk env sid c) w) = http_log w ++ [text c] /\
  pg_log (run (insert_chunk env sid c) w) =
    pg_log w ++ inserts_for env sid (length (http_log w)) [c].
Proof.
  unfold run; rewrite insert_chunk_eq.
  cbn [inserts_for].
  destruct (ollama env (length (http_log w)) (text c)) as [v|t|]; simpl.
  - destruct (store_fault (pg env) (length (pg_log w))); simpl; auto.
  - now rewrite app_nil_r.
  - now rewrite app_nil_r.
Qed.

Lemma inserts_for_cons (env : Env) (sid : Z) (n : nat) (c : Chunk) (chunks : list Chunk) :
  inserts_for env sid n (c :: chunks) =
  inserts_for env sid n [c] ++ inserts_for env sid (S n) chunks.
Proof.
  cbn [inserts_for].
  destruct (ollama env n (text c)); reflexivity.
Qed.

(** X4.  [insert_chunks] posts one request per chunk, in order, whatever
    fails on the way; it sends one INSERT for each chunk whose request was
    answered with a vector, carrying that chunk's text and metadata and the
    normalised vector, and no other statement; it returns normally and
    leaves [source_documents] alone. *)
Theorem insert_chunks_requests_and_inserts (env : Env) (sid : Z) (chunks : list Chunk)
  (w : World) :
  let w' := run (insert_chunks env sid chunks) w in
  result (insert_chunks env sid chunks) w = Ret tt /\
  http_log w' = http_log w ++ map text chunks /\
  pg_log w' = pg_log w ++ inserts_for env sid (length (http_log w)) chunks /\
  source_documents (db w') = source_documents (db w).
Proof.
  cbv zeta.
  destruct (insert_chunks_appends env sid chunks w) as (Hres & Hdocs & _).
  split; [exact Hres|].
  split; [|split; [|exact Hdocs]]; clear Hres Hdocs.
  - revert w.
    induction chunks as [|c chunks IH]; intros w; [simpl; now rewrite app_nil_r|].
    unfold insert_chunks in *.
    rewrite for_each_cons by apply insert_chunk_returns.
    rewrite IH.
    destruct (insert_chunk_logs env sid c w) as [-> _].
    now rewrite <- app_assoc.
  - revert w.
    induction chunks as [|c chunks IH]; intros w; [simpl; now rewrite app_nil_r|].
    unfold insert_chunks in *.
    rewrite for_each_cons by apply insert_chunk_returns.
    rewrite IH.
    destruct (insert_chunk_logs env sid c w) as [-> ->].
    rewrite length_app, Nat.add_1_r, <- app_assoc.
    now rewrite <- inserts_for_cons.
Qed.

(** ** Keys *)

Lemma NoDup_filter_map {A B} (f : A -> B) (keep : A -> bool) (l : list A) :
  NoDup (map f l) -> NoDup (map f (filter keep l)).
Proof.
  induction l as [|x l IH]; simpl; intros H; [constructor|].
  inversion H as [|? ? Hx Hl]; subst.
  destruct (keep x); simpl; [|now apply IH].
  constructor; [|now apply IH].
  intros Hin; apply Hx.
  apply in_map_iff in Hin.
  destruct Hin as (y & Hy & Hin).
  apply filter_In in Hin.
  rewrite <- Hy.
  apply in_map; tauto.
Qed.

Lemma touch_doc_id (h q : str) (now : Z) (r : DocRow) : doc_id (touch h q now r) = doc_id r.
Proof. unfold touch; destruct (path_is q r); reflexivity. Qed.

Lemma keys_fresh_is_kept (env : Env) :
  preserves (fun w => keys_fresh (db w)) (index_all_files env).
Proof.
  apply inv_index_all_files; simpl; intros; auto.
  - (* UPDATE *)
    destruct H as (Hd & Hdb & Hc & Hcb).
    split; [|split; [|split]]; simpl; auto.
    + rewrite map_map.
      erewrite map_ext; [exact Hd|].
      intros r; apply touch_doc_id.
    + intros r Hr.
      apply in_map_iff in Hr.
      destruct Hr as (r0 & <- & Hr0).
      rewrite touch_doc_id; auto.
  - (* DELETE *)
    destruct H as (Hd & Hdb & Hc & Hcb).
    split; [|split; [|split]]; simpl; auto.
    + now apply NoDup_filter_map.
    + intros c Hin.
      apply filter_In in Hin.
      apply Hcb; tauto.
  - (* INSERT INTO source_documents *)
    destruct H as (Hd & Hdb & Hc & Hcb).
    split; [|split; [|split]]; simpl; auto.
    + rewrite map_app; simpl.
      apply NoDup_snoc; [exact Hd|].
      intros Hin.
      apply in_map_iff in Hin.
      destruct Hin as (r & Hr & Hin).
      specialize (Hdb r Hin); lia.
    + intros r Hin.
      apply in_app_iff in Hin.
      destruct Hin as [Hin|[<-|[]]]; simpl; [specialize (Hdb r Hin)|]; lia.
  - (* INSERT INTO document_chunks *)
    destruct H as (Hd & Hdb & Hc & Hcb).
    split; [|split; [|split]]; simpl; auto.
    + rewrite map_app; simpl.
      apply NoDup_snoc; [exact Hc|].
      intros Hin.
      apply in_map_iff in Hin.
      destruct Hin as (c & Hr & Hin).
      specialize (Hcb c Hin); lia.
    + intros c Hin.
      apply in_app_iff in Hin.
      destruct Hin as [Hin|[<-|[]]]; simpl; [specialize (Hcb c Hin)|]; lia.
Qed.

(** X5.  A pass keeps the keys of the store: if no two rows of
    [source_documents] share a path, no two rows of either table share an
    id, and both sequences are ahead of the ids in use, the same holds after
    [index_all_files], whatever fails during the pass.  A pass inserts a
    document only after its SELECT found none for the path. *)
Theorem pass_keeps_the_keys (env : Env) (w : World) :
  unique_paths (db w) ->
  keys_fresh (db w) ->
  let w' := run (index_all_files env) w in
  unique_paths (db w') /\ keys_fresh (db w').
Proof.
  intros Hu Hk.
  split.
  - now apply (unique_paths_is_kept env).
  - now apply (keys_fresh_is_kept env).
Qed.

Lemma pass_keeps_the_keys_witness :
  let w := Demo.fresh in
  let w' := run (index_all_files Outage.env) w in
  unique_paths (db w) /\ keys_fresh (db w) /\
  unique_paths (db w') /\ keys_fresh (db w').
Proof.
  intros w w'.
  assert (Hu : unique_paths (db w)) by constructor.
  assert (Hk : keys_fresh (db w)).
  { repeat split; try constructor; intros ? []. }
  split; [exact Hu|].
  split; [exact Hk|].
  exact (pass_keeps_the_keys Outage.env w Hu Hk).
Defined.

(** ** The first indexing of a note *)

Lemma first_indexing_appends (env : Env) (p h : str) (w : World) :
  (forall n, store_fault (pg env) n = false) ->
  (forall n t, exists v, ollama env n t = Http200 v) ->
  fetch_document p (db w) = None ->
  calculate_file_hash env p = Ret h ->
  chunks_of env p <> [] ->
  let w' := run (index_file env p) w in
  let id := source_documents_id_seq (db w) in
  exists ts rows,
    source_documents (db w') =
      source_documents (db w) ++
      [{| doc_id := id; file_path := p; file_hash := h;
          last_indexed_at := ts |}] /\
    document_chunks (db w') = document_chunks (db w) ++ rows /\
    map row_content rows = map chunk_content (chunks_of env p) /\
    Forall (fun c => source_id c = id) rows.
Proof.
  intros Hpg Hol Hf Hhash Hc w' id.
  destruct (index_file_upsert_step env p h w Hhash (Hpg _)) as (w2 & _ & Hdb & Hlog & _ & E);
    [intros r Hr; congruence|exact Hc|].
  unfold w', run; rewrite E; clear E.
  rewrite update_source_document_eq by apply Hpg.
  rewrite Hdb, Hf.
  cbn [sql_insert_document].
  match goal with
  | |- context [run (insert_chunks env ?sid ?cs) ?w3] =>
      destruct (insert_chunks_appends env sid cs w3) as (_ & Hdocs & rows & Hrows & Hsid & _);
      destruct (insert_chunks_all env sid cs w3 Hpg Hol) as (rows' & Hrows' & Hmap)
  end.
  rewrite Hrows in Hrows'.
  apply app_inv_head in Hrows'; subst rows'.
  eexists; exists rows.
  simpl.
  rewrite Hdocs, Hrows; simpl.
  repeat split; auto.
Qed.

(** X6.  The first indexing of a note.  When no row has the path, the file
    has chunks and neither the store nor the service fails, [index_file]
    appends one document row with the path, the fingerprint of the file and
    the next id of the sequence, then one chunk row per chunk, in order, each owned by
    that id and holding the chunk's text and metadata. *)
Theorem new_note_is_indexed_in_full (env : Env) (p h : str) (w : World) :
  (forall n, store_fault (pg env) n = false) ->
  (forall n t, exists v, ollama env n t = Http200 v) ->
  fetch_document p (db w) = None ->
  calculate_file_hash env p = Ret h ->
  chunks_of env p <> [] ->
  let w' := run (index_file env p) w in
  let id := source_documents_id_seq (db w) in
  exists ts rows,
    source_documents (db w') =
      source_documents (db w) ++
      [{| doc_id := id; file_path := p; file_hash := h;
          last_indexed_at := ts |}] /\
    document_chunks (db w') = document_chunks (db w) ++ rows /\
    map row_content rows = map chunk_content (chunks_of env p) /\
    Forall (fun c => source_id c = id) rows.
Proof. exact (first_indexing_appends env p h w). Qed.

Lemma new_note_is_indexed_in_full_witness :
  let env := Sections.healthy in
  let w := Runs.indexed in
  let w' := run (index_file env (py "n.md")) w in
  let h := py "afecce24683e8b96a48f1a0ab2c5f038a14cbfa26a38842391061f145fa995a3" in
  (forall n, store_fault (pg env) n = false) /\
  (forall n t, exists v, ollama env n t = Http200 v) /\
  fetch_document (py "n.md") (db w) = None /\
  calculate_file_hash env (py "n.md") = Ret h /\
  chunks_of env (py "n.md") <> [] /\
  exists ts rows,
    source_documents (db w') =
      source_documents (db w) ++
      [{| doc_id := 2; file_path := py "n.md"; file_hash := h; last_indexed_at := ts |}] /\
    document_chunks (db w') = document_chunks (db w) ++ rows /\
    map row_content rows = map chunk_content (chunks_of env (py "n.md")) /\
    Forall (fun c => source_id c = 2%Z) rows.
Proof.
  intros env w w' h.
  assert (Hpg : forall n, store_fault (pg env) n = false) by (intros n; reflexivity).
  assert (Hol : forall n t, exists v, ollama env n t = Http200 v).
  { intros n t; exists [3; 4]%float; reflexivity. }
  assert (Hf : fetch_document (py "n.md") (db w) = None) by reflexivity.
  assert (Hh : calculate_file_hash env (py "n.md") = Ret h) by reflexivity.
  assert (Hc : chunks_of env (py "n.md") <> []) by (vm_compute; discriminate).
  split; [exact Hpg|].
  split; [exact Hol|].
  split; [exact Hf|].
  split; [exact Hh|].
  split; [exact Hc|].
  exact (new_note_is_indexed_in_full env (py "n.md") h w Hpg Hol Hf Hh Hc).
Defined.

(** X7.  The upsert is not atomic.  When the document exists with another
    fingerprint, the file has chunks, the check, the SELECT and the UPDATE
    succeed and the DELETE fails, [index_file] prints the failure and
    returns normally; the rows of that path now hold the new fingerprint
    while [document_chunks] is exactly as before, old chunks included; and
    from then on every indexing of the unchanged file is skipped, so the old
    chunks stay. *)
Theorem failed_delete_leaves_stale_chunks (env : Env) (p h : str) (w : World) (r : DocRow) :
  let n := length (pg_log w) in
  store_fault (pg env) n = false ->
  store_fault (pg env) (S n) = false ->
  store_fault (pg env) (S (S n)) = false ->
  store_fault (pg env) (S (S (S n))) = true ->
  fetch_document p (db w) = Some r ->
  calculate_file_hash env p = Ret h ->
  file_hash r <> h ->
  chunks_of env p <> [] ->
  let w' := run (index_file env p) w in
  result (index_file env p) w = Ret tt /\
  stdout w' = stdout w ++ [Processing (path_name p);
                           FileFailed p (PostgresError (S (S (S n))))] /\
  (forall r', In r' (source_documents (db w')) -> file_path r' = p ->
              file_hash r' = h) /\
  document_chunks (db w') = document_chunks (db w) /\
  http_log w' = http_log w /\
  (forall env2, same_content env env2 ->
                db (run (index_file env2 p) w') = db w' /\
                http_log (run (index_file env2 p) w') = http_log w').
Proof.
  intros n H0 H1 H2 H3 Hf Hhash Hh Hc w'.
  split; [apply index_file_returns|].
  destruct (index_file_upsert_step env p h w Hhash H0) as (w2 & Hw2 & Hdb & Hlog & Hhttp & E);
    [intros r0 Hr0; congruence|exact Hc|].
  assert (Hn : length (pg_log w2) = S n) by (rewrite Hlog; apply length_log).
  rewrite (update_source_document_delete_fails env p _ w2 r) in E;
    try (rewrite Hn; assumption); [|now rewrite Hdb].
  unfold w', run; rewrite E, Hn, Hdb, Hw2; simpl.
  split; [now rewrite <- app_assoc|].
  split.
  { intros r' Hin Hp.
    apply in_map_iff in Hin.
    destruct Hin as (r0 & <- & _).
    rewrite touch_file_path in Hp.
    unfold touch.
    apply path_is_true in Hp.
    now rewrite Hp. }
  split; [reflexivity|].
  split; [reflexivity|].
  intros env2 Hsame.
  match goal with
  | |- context [index_file env2 p ?w1] =>
      destruct (index_file_nothing_to_do env2 p w1) as (_ & Hdb' & _ & Hhttp')
  end.
  - apply (same_content_nothing_to_do env env2 p _ Hsame).
    left; simpl.
    rewrite fetch_after_update, Hf; simpl.
    eexists; split; [reflexivity|].
    unfold touch.
    apply fetch_document_some in Hf.
    destruct Hf as [_ Hp].
    apply path_is_true in Hp.
    now rewrite Hp.
  - unfold run in Hdb', Hhttp'; simpl in Hdb', Hhttp'.
    split; assumption.
Qed.

Lemma failed_delete_leaves_stale_chunks_witness :
  let env := Stale.env in
  let w := Runs.indexed in
  let p := py "a.md" in
  let n := length (pg_log w) in
  let w' := run (index_file env p) w in
  let h := py "3908c567feda72bc0dbdb2dff040fe0d3470dcd51b942374378a476930dbf6b3" in
  (store_fault (pg env) n = false /\
   store_fault (pg env) (S n) = false /\
   store_fault (pg env) (S (S n)) = false /\
   store_fault (pg env) (S (S (S n))) = true) /\
  (fetch_document p (db w) = Some Runs.hello_row /\
   calculate_file_hash env p = Ret h /\
   file_hash Runs.hello_row <> h /\
   chunks_of env p <> []) /\
  result (index_file env p) w = Ret tt /\
  (forall r', In r' (source_documents (db w')) -> file_path r' = p ->
              file_hash r' = h) /\
  document_chunks (db w') = document_chunks (db w) /\
  db (run (index_file Runs.edited p) w') = db w'.
Proof.
  intros env w p n w' h.
  assert (Hf : fetch_document p (db w) = Some Runs.hello_row) by reflexivity.
  assert (Hhash : calculate_file_hash env p = Ret h) by reflexivity.
  assert (Hh : file_hash Runs.hello_row <> h) by (vm_compute; discriminate).
  assert (Hc : chunks_of env p <> []) by (vm_compute; discriminate).
  split; [repeat split; reflexivity|].
  split; [repeat split; assumption|].
  destruct (failed_delete_leaves_stale_chunks env p h w Runs.hello_row
              eq_refl eq_refl eq_refl eq_refl Hf Hhash Hh Hc)
    as (Hres & _ & Hrows & Hchunks & _ & Hskip).
  split; [exact Hres|].
  split; [exact Hrows|].
  split; [exact Hchunks|].
  apply (Hskip Runs.edited).
  split; reflexivity.
Defined.

(** ** The connection *)




(** ** Searching *)

(** X9.  [search_similar] never writes.  On every exit both tables are as
    before.  If the connection fails nothing else happens.  Otherwise
    exactly one request goes to the embedding service, with the query text;
    if it fails, its exception reaches the caller and the store sees only
    the connection and its release; if it succeeds, the store sees the
    connection, one query and the release. *)
Theorem search_reads_only (env : Env) (query : str) (limit : Z) (w : World) :
  let n := length (pg_log w) in
  let w' := run (search_similar env query limit) w in
  db w' = db w /\
  stdout w' = stdout w /\
  if store_fault (pg env) n
  then result (search_similar env query limit) w = Raise (PostgresError n) /\
       pg_log w' = pg_log w ++ [Connect] /\ http_log w' = http_log w
  else
    http_log w' = http_log w ++ [query] /\
    match ollama env (length (http_log w)) query with
    | Http200 v =>
        pg_log w' = pg_log w ++ [Connect; SelectNearest (vec_str (normalize v)) limit; Close]
    | HttpStatus error_text =>
        result (search_similar env query limit) w = Raise (EmbeddingFailed error_text) /\
        pg_log w' = pg_log w ++ [Connect; Close]
    | NoConnection =>
        result (search_similar env query limit) w = Raise ClientError /\
        pg_log w' = pg_log w ++ [Connect; Close]
    end.
Proof.
  intros n w'.
  unfold w', result, run.
  rewrite search_similar_eq; fold n.
  destruct (store_fault (pg env) n); simpl; [auto|].
  destruct (ollama env (length (http_log w)) query) as [v|t|]; simpl.
  - destruct ((limit <? 0)%Z || store_fault (pg env) (S n)); simpl;
      rewrite <- !app_assoc; auto.
  - rewrite <- !app_assoc; auto.
  - rewrite <- !app_assoc; auto.
Qed.

Lemma insert_by_distance_perm (r : SearchResult) (l : list SearchResult) :
  Permutation (insert_by_distance r l) (r :: l).
Proof.
  induction l as [|x l IH]; simpl; [reflexivity|].
  destruct (Qle_bool (distance r) (distance x)); [reflexivity|].
  rewrite IH.
  apply perm_swap.
Qed.

Lemma order_by_distance_perm (l : list SearchResult) :
  Permutation (order_by_distance l) l.
Proof.
  induction l as [|x l IH]; simpl; [reflexivity|].
  rewrite insert_by_distance_perm.
  now constructor.
Qed.

Lemma sorted_split {A} (R : A -> A -> Prop) (k : nat) (l : list A) :
  StronglySorted R l ->
  forall a b, In a (firstn k l) -> In b (skipn k l) -> R a b.
Proof.
  intros Hs.
  revert k.
  induction Hs as [|x l Hs IH Hall]; intros k a b Ha Hb.
  - rewrite firstn_nil in Ha; contradiction.
  - destruct k as [|k]; simpl in Ha, Hb; [contradiction|].
    destruct Ha as [<-|Ha].
    + rewrite Forall_forall in Hall.
      apply Hall.
      apply (subseq_In (skipn k l) l); [|exact Hb].
      clear.
      revert k.
      induction l as [|y l IH]; intros k.
      * rewrite skipn_nil; constructor.
      * destruct k; simpl; [apply subseq_refl|apply subseq_drop, IH].
    + now apply (IH k).
Qed.

(** X10.  The results of a search are the nearest rows: together with the
    rows it leaves out they are all the rows of the join, each once, and
    every result is at least as close to the query as every row left out.
    With a limit that covers the join nothing is left out. *)
Theorem search_returns_the_nearest (env : Env) (query : str) (limit : Z) (w : World)
  (v : list float) :
  let n := length (pg_log w) in
  let q := vec_str (normalize v) in
  let rows := joined (l2_distance (pg env)) q (db w) in
  store_fault (pg env) n = false ->
  store_fault (pg env) (S n) = false ->
  ollama env (length (http_log w)) query = Http200 v ->
  (0 <= limit)%Z ->
  exists results left_out,
    result (search_similar env query limit) w = Ret results /\
    Permutation (results ++ left_out) rows /\
    (forall a b, In a results -> In b left_out -> closer a b) /\
    ((length rows <= Z.to_nat limit)%nat -> left_out = []).
Proof.
  intros n q rows H0 H1 Hv Hk.
  exists (firstn (Z.to_nat limit) (order_by_distance rows)),
         (skipn (Z.to_nat limit) (order_by_distance rows)).
  unfold result.
  rewrite search_similar_eq; fold n; rewrite H0, Hv; simpl.
  fold q.
  replace (limit <? 0)%Z with false by (symmetry; apply Z.ltb_ge; exact Hk).
  rewrite H1; simpl.
  split; [reflexivity|].
  split; [rewrite firstn_skipn; apply order_by_distance_perm|].
  split.
  - apply sorted_split, order_by_distance_sorted.
  - intros Hlen.
    apply skipn_all2.
    now rewrite order_by_distance_length.
Qed.

Lemma search_returns_the_nearest_witness :
  let env := Library.env in
  let w := Library.filled in
  let n := length (pg_log w) in
  store_fault (pg env) n = false /\
  store_fault (pg env) (S n) = false /\
  ollama env (length (http_log w)) (py "world") = Http200 [4; 3]%float /\
  (0 <= 2)%Z /\
  exists results left_out,
    result (search_similar env (py "world") 2) w = Ret results /\
    (forall a b, In a results -> In b left_out -> closer a b).
Proof.
  intros env w n.
  split; [reflexivity|].
  split; [reflexivity|].
  split; [reflexivity|].
  split; [lia|].
  destruct (search_returns_the_nearest env (py "world") 2 w [4; 3]%float)
    as (results & left_out & Hres & _ & Hnear & _).
  - reflexivity.
  - reflexivity.
  - reflexivity.
  - lia.
  - exists results, left_out.
    split; [exact Hres|exact Hnear].
Defined.

(** ** Every chunk has its document *)

Lemma owned_after_update (h q : str) (now : Z) (st : Store) :
  chunks_owned st -> chunks_owned (sql_update_document h q now st).
Proof.
  intros H c Hc.
  destruct (H c Hc) as (d & Hd & Hid).
  exists (touch h q now d).
  split; [simpl; now apply in_map|].
  now rewrite touch_doc_id.
Qed.

Lemma owned_after_delete (id : Z) (st : Store) :
  chunks_owned st -> chunks_owned (sql_delete_chunks id st).
Proof.
  intros H c Hc.
  apply deleted_chunks in Hc.
  destruct Hc as [Hc _].
  exact (H c Hc).
Qed.

Lemma owned_after_insert_document (p h : str) (d0 : option Z) (st : Store) :
  chunks_owned st -> chunks_owned (snd (sql_insert_document p h d0 st)).
Proof.
  intros H c Hc.
  destruct (H c Hc) as (d & Hd & Hid).
  exists d; split; [simpl; apply in_or_app; now left|exact Hid].
Qed.

Lemma owned_is_kept_by_upsert (env : Env) (p : str) :
  preserves (fun w => chunks_owned (db w))
            (update_source_document env p (fingerprint env p)).
Proof.
  apply inv_update_source_document; simpl; intros; auto.
  - now apply owned_after_update.
  - now apply owned_after_delete.
  - now apply owned_after_insert_document.
Qed.

(** The id that the upsert returns is the id of a document row. *)
Lemma upsert_returns_a_document (env : Env) (p h : str) (w : World) (sid : Z) (w' : World) :
  update_source_document env p h w = (Ret sid, w') ->
  exists d, In d (source_documents (db w')) /\ doc_id d = sid.
Proof.
  unfold update_source_document, bind, pg_call, ret.
  destruct (store_fault (pg env) (length (pg_log w))); [discriminate|].
  simpl.
  destruct (fetch_document p (db w)) as [r|] eqn:Ef.
  - match goal with |- context [if ?c then _ else _] => destruct c end; [discriminate|].
    simpl.
    match goal with |- context [if ?c then _ else _] => destruct c end; [discriminate|].
    simpl.
    intros H; injection H as <- <-.
    apply fetch_document_some in Ef.
    destruct Ef as [Hin _].
    eexists; split; [simpl; apply in_map, Hin|].
    apply touch_doc_id.
  - match goal with |- context [if ?c then _ else _] => destruct c end; [discriminate|].
    simpl.
    intros H; injection H as <- <-.
    eexists; split; [simpl; apply in_or_app; right; left; reflexivity|].
    reflexivity.
Qed.

(** What [index_file] can do to the tables: nothing, an upsert that fails
    part of the way, or an upsert followed by the insertion of chunks under
    the id that the upsert returned. *)
Lemma index_file_cases (env : Env) (p : str) (w : World) :
  let h := fingerprint env p in
  db (run (index_file env p) w) = db w \/
  exists w2,
    db w2 = db w /\
    match update_source_document env p h w2 with
    | (Ret sid, w3) =>
        db (run (index_file env p) w) =
        db (run (insert_chunks env sid (chunks_of env p)) w3)
    | (Raise e, w3) => db (run (index_file env p) w) = db w3
    end.
Proof.
  intros h.
  destruct (can_open (tree env) p) eqn:Ho.
  2:{ left; now destruct (index_file_not_opened_frame env p w Ho) as (Hdb & _). }
  pose proof (opened_is_hashed env p Ho) as Hhash.
  fold h in Hhash.
  destruct (store_fault (pg env) (length (pg_log w))) eqn:H0.
  { left.
    pose proof (check_file_needs_update_eq env p h w) as E.
    rewrite H0 in E.
    unfold run; rewrite (index_file_opened env p w Ho); unfold index_opened.
    fold h.
    now rewrite (try_except_bind_raise _ _ _ _ _ _ E). }
  assert (Hskip : nothing_to_do env p (db w) -> db (run (index_file env p) w) = db w).
  { intros H; now destruct (index_file_nothing_to_do env p w H) as (_ & Hdb & _). }
  destruct (chunks_of env p) as [|c chunks] eqn:Ec.
  { left; apply Hskip; right; now split. }
  destruct (fetch_document p (db w)) as [r|] eqn:Ef.
  - destruct (str_eqb (file_hash r) h) eqn:Eh.
    + left; apply Hskip; left.
      exists r; split; [exact Ef|].
      apply str_eqb_eq in Eh.
      now rewrite Eh.
    + right.
      destruct (index_file_upsert_step env p h w Hhash H0) as (w2 & _ & Hdb & _ & _ & E).
      * intros r0 Hr0.
        rewrite Ef in Hr0; injection Hr0 as <-.
        now apply str_eqb_neq.
      * rewrite Ec; discriminate.
      * exists w2; split; [exact Hdb|].
        unfold run at 1 3; rewrite E; fold h.
        rewrite Ec.
        destruct (update_source_document env p h w2) as [[sid|e] w3]; reflexivity.
  - right.
    destruct (index_file_upsert_step env p h w Hhash H0) as (w2 & _ & Hdb & _ & _ & E).
    + intros r0 Hr0; rewrite Ef in Hr0; discriminate.
    + rewrite Ec; discriminate.
    + exists w2; split; [exact Hdb|].
      unfold run at 1 3; rewrite E; fold h.
      rewrite Ec.
      destruct (update_source_document env p h w2) as [[sid|e] w3]; reflexivity.
Qed.

Lemma owned_is_kept_by_index_file (env : Env) (p : str) :
  preserves (fun w => chunks_owned (db w)) (index_file env p).
Proof.
  intros w H.
  destruct (index_file_cases env p w) as [->|(w2 & Hdb & Hcase)]; [exact H|].
  pose proof (owned_is_kept_by_upsert env p w2) as Hup.
  unfold preserves, run in Hup.
  rewrite Hdb in Hup.
  specialize (Hup H).
  destruct (update_source_document env p (fingerprint env p) w2)
    as [[sid|e] w3] eqn:E; simpl in Hup; rewrite Hcase; [|exact Hup].
  destruct (upsert_returns_a_document env p _ w2 sid w3 E) as (d & Hd & Hid).
  destruct (insert_chunks_appends env sid (chunks_of env p) w3)
    as (_ & Hdocs & rows & Hrows & Hsid & _).
  intros c Hc.
  rewrite Hrows in Hc.
  rewrite Hdocs.
  apply in_app_iff in Hc.
  destruct Hc as [Hc|Hc]; [exact (Hup c Hc)|].
  rewrite Forall_forall in Hsid.
  exists d; split; [exact Hd|].
  now rewrite (Hsid c Hc).
Qed.

Lemma owned_is_kept_by_pass (env : Env) :
  preserves (fun w => chunks_owned (db w)) (index_all_files env).
Proof.
  apply preserves_bind; [intros w H; unfold run, connect, pg_call;
                         destruct (store_fault (pg env) (length (pg_log w))); exact H|].
  intros _.
  apply preserves_try_finally; [|intros w H; exact H].
  apply preserves_bind; [intros w H; exact H|].
  intros _.
  apply preserves_for_each.
  intros p _.
  apply owned_is_kept_by_index_file.
Qed.

(** X11.  A pass keeps every chunk with its document: if every row of
    [document_chunks] has the id of a row of [source_documents] in
    [source_id], the same holds after [index_all_files], whatever fails
    during the pass.  Chunks are inserted only under the id that the upsert
    of their document returned, and a pass deletes no document. *)
Theorem pass_keeps_chunks_owned (env : Env) (w : World) :
  chunks_owned (db w) ->
  chunks_owned (db (run (index_all_files env) w)).
Proof. apply (owned_is_kept_by_pass env). Qed.

Lemma pass_keeps_chunks_owned_witness :
  chunks_owned (db Demo.fresh) /\
  chunks_owned (db (run (index_all_files Sections.env) Demo.fresh)).
Proof.
  assert (H : chunks_owned (db Demo.fresh)) by (intros c []).
  split; [exact H|].
  exact (pass_keeps_chunks_owned Sections.env Demo.fresh H).
Defined.

Lemma only_owner {A} (f : A -> Z) (l : list A) (x : A) :
  NoDup (map f l) -> In x l ->
  filter (fun y => (f x =? f y)%Z) l = [x].
Proof.
  induction l as [|y l IH]; simpl; intros Hnd Hin; [contradiction|].
  inversion Hnd as [|? ? Hy Hl]; subst.
  destruct Hin as [->|Hin].
  - rewrite Z.eqb_refl.
    f_equal.
    clear IH Hl Hnd.
    induction l as [|z l IHl]; simpl; [reflexivity|].
    destruct (f x =? f z)%Z eqn:E.
    + exfalso; apply Hy.
      apply Z.eqb_eq in E.
      rewrite E; simpl; now left.
    + apply IHl.
      intros H; apply Hy; simpl; now right.
  - destruct (f x =? f y)%Z eqn:E.
    + exfalso; apply Hy.
      apply Z.eqb_eq in E.
      rewrite <- E.
      now apply in_map.
    + now apply IH.
Qed.

Lemma joined_one_per_chunk (dist : str -> str -> Q) (q : str) (st : Store) :
  NoDup (map doc_id (source_documents st)) ->
  chunks_owned st ->
  Forall2 (fun dc r =>
             res_text r = chunk_text dc /\ res_metadata r = metadata dc /\
             distance r = dist (embedding dc) q /\
             exists sd, In sd (source_documents st) /\ doc_id sd = source_id dc /\
                        res_file_path r = file_path sd)
          (document_chunks st) (joined dist q st).
Proof.
  intros Hnd Hown.
  unfold joined, chunks_owned in *.
  induction (document_chunks st) as [|dc chunks IH]; simpl; [constructor|].
  destruct (Hown dc (or_introl eq_refl)) as (sd & Hsd & Hid).
  assert (Hf : filter (fun sd0 => (source_id dc =? doc_id sd0)%Z) (source_documents st)
               = [sd]).
  { rewrite <- Hid; now apply only_owner. }
  rewrite Hf; simpl.
  constructor.
  - split; [reflexivity|].
    split; [reflexivity|].
    split; [reflexivity|].
    exists sd; auto.
  - apply IH.
    intros c Hc; apply Hown; now right.
Qed.

Lemma Forall2_map_eq {A B C} (f : A -> C) (g : B -> C) (l : list A) (l' : list B) :
  Forall2 (fun a b => g b = f a) l l' -> map g l' = map f l.
Proof. induction 1; simpl; congruence. Qed.

(** X12.  On a store where the document ids are distinct and every chunk
    has its document, a search whose limit covers the chunk table returns
    every stored chunk exactly once: the texts and metadata of the results
    are, up to order, those of the rows of [document_chunks]. *)
Theorem search_covers_every_chunk (env : Env) (query : str) (limit : Z) (w : World)
  (v : list float) :
  let n := length (pg_log w) in
  store_fault (pg env) n = false ->
  store_fault (pg env) (S n) = false ->
  ollama env (length (http_log w)) query = Http200 v ->
  NoDup (map doc_id (source_documents (db w))) ->
  chunks_owned (db w) ->
  (Z.of_nat (length (document_chunks (db w))) <= limit)%Z ->
  exists results,
    result (search_similar env query limit) w = Ret results /\
    length results = length (document_chunks (db w)) /\
    Permutation (map (fun r => (res_text r, res_metadata r)) results)
                (map row_content (document_chunks (db w))).
Proof.
  intros n H0 H1 Hv Hnd Hown Hk.
  set (q := vec_str (normalize v)).
  pose proof (joined_one_per_chunk (l2_distance (pg env)) q (db w) Hnd Hown) as Hj.
  assert (Hlen : length (joined (l2_distance (pg env)) q (db w)) =
                 length (document_chunks (db w))).
  { symmetry; apply (Forall2_length Hj). }
  assert (Hmap : map (fun r => (res_text r, res_metadata r))
                     (joined (l2_distance (pg env)) q (db w)) =
                 map row_content (document_chunks (db w))).
  { apply Forall2_map_eq.
    eapply Forall2_impl; [|exact Hj].
    intros dc r (Ht & Hm & _).
    unfold row_content; simpl; congruence. }
  exists (sql_select_nearest (l2_distance (pg env)) q limit (db w)).
  unfold result.
  rewrite search_similar_eq; fold n; rewrite H0, Hv; simpl.
  fold q.
  replace (limit <? 0)%Z with false by (symmetry; apply Z.ltb_ge; lia).
  rewrite H1; simpl.
  split; [reflexivity|].
  unfold sql_select_nearest.
  rewrite firstn_all2 by (rewrite order_by_distance_length, Hlen; lia).
  split; [now rewrite order_by_distance_length|].
  rewrite <- Hmap.
  apply Permutation_map, order_by_distance_perm.
Qed.

Lemma search_covers_every_chunk_witness :
  let env := Library.env in
  let w := Library.filled in
  let n := length (pg_log w) in
  store_fault (pg env) n = false /\
  store_fault (pg env) (S n) = false /\
  ollama env (length (http_log w)) (py "world") = Http200 [4; 3]%float /\
  NoDup (map doc_id (source_documents (db w))) /\
  chunks_owned (db w) /\
  (Z.of_nat (length (document_chunks (db w))) <= 10)%Z /\
  exists results,
    result (search_similar env (py "world") 10) w = Ret results /\
    length results = 3%nat.
Proof.
  intros env w n.
  assert (Hnd : NoDup (map doc_id (source_documents (db w)))).
  { vm_compute.
    repeat (constructor; [simpl; intuition discriminate|]).
    constructor. }
  assert (Hown : chunks_owned (db w)).
  { apply (owned_is_kept_by_pass env Demo.fresh).
    intros c []. }
  assert (Hk : (Z.of_nat (length (document_chunks (db w))) <= 10)%Z)
    by (vm_compute; discriminate).
  split; [reflexivity|].
  split; [reflexivity|].
  split; [reflexivity|].
  split; [exact Hnd|].
  split; [exact Hown|].
  split; [exact Hk|].
  destruct (search_covers_every_chunk env (py "world") 10 w [4; 3]%float
              eq_refl eq_refl eq_refl Hnd Hown Hk) as (results & Hres & Hlen & _).
  exists results.
  split; [exact Hres|exact Hlen].
Defined.

(** X13.  What is indexed is found.  After the first indexing of a note
    (a file that can be opened and has chunks) with a working store and
    service, a search whose limit covers the join returns, for every chunk
    of the note, a result with that chunk's text and metadata and the note's
    path. *)
Theorem indexed_note_is_found (env : Env) (p : str) (w : World) (query : str) (limit : Z) :
  (forall n, store_fault (pg env) n = false) ->
  (forall n t, exists v, ollama env n t = Http200 v) ->
  fetch_document p (db w) = None ->
  can_open (tree env) p = true ->
  chunks_of env p <> [] ->
  let w' := run (index_file env p) w in
  (forall q, Z.of_nat (length (joined (l2_distance (pg env)) q (db w'))) <= limit)%Z ->
  exists results,
    result (search_similar env query limit) w' = Ret results /\
    forall c, In c (chunks_of env p) ->
      exists r, In r results /\
                res_text r = text c /\ res_metadata r = chunk_metadata c /\
                res_file_path r = p.
Proof.
  intros Hpg Hol Hf Ho Hc w' Hk.
  destruct (first_indexing_appends env p (fingerprint env p) w Hpg Hol Hf
              (opened_is_hashed env p Ho) Hc)
    as (ts & rows & Hdocs & Hrows & Hmap & Hsid).
  fold w' in Hdocs, Hrows.
  destruct (Hol (length (http_log w')) query) as [v Hv].
  set (q := vec_str (normalize v)).
  exists (sql_select_nearest (l2_distance (pg env)) q limit (db w')).
  unfold result.
  rewrite search_similar_eq, Hpg, Hv; simpl.
  fold q.
  specialize (Hk q).
  replace (limit <? 0)%Z with false by (symmetry; apply Z.ltb_ge; lia).
  rewrite Hpg; simpl.
  split; [reflexivity|].
  intros c Hin.
  assert (Hrow : exists row, In row rows /\ row_content row = chunk_content c).
  { assert (H : In (chunk_content c) (map row_content rows)).
    { rewrite Hmap; now apply in_map. }
    apply in_map_iff in H.
    destruct H as (row & Hrc & Hrow).
    now exists row. }
  destruct Hrow as (row & Hrow & Hrc).
  unfold row_content, chunk_content in Hrc.
  injection Hrc as Ht Hm.
  eexists; split.
  - unfold sql_select_nearest.
    rewrite firstn_all2 by (rewrite order_by_distance_length; lia).
    apply order_by_distance_In, joined_In.
    exists row.
    eexists.
    split; [rewrite Hrows; apply in_or_app; now right|].
    split; [rewrite Hdocs; apply in_or_app; right; left; reflexivity|].
    split; [|reflexivity].
    rewrite Forall_forall in Hsid.
    now rewrite (Hsid row Hrow).
  - simpl; auto.
Qed.

Lemma indexed_note_is_found_witness :
  let env := Sections.healthy in
  let w := Runs.indexed in
  let p := py "n.md" in
  let w' := run (index_file env p) w in
  (forall n, store_fault (pg env) n = false) /\
  (forall n t, exists v, ollama env n t = Http200 v) /\
  fetch_document p (db w) = None /\
  can_open (tree env) p = true /\
  chunks_of env p <> [] /\
  (forall q, Z.of_nat (length (joined (l2_distance (pg env)) q (db w'))) <= 10)%Z /\
  exists results,
    result (search_similar env (py "x") 10) w' = Ret results /\
    forall c, In c (chunks_of env p) ->
      exists r, In r results /\
                res_text r = text c /\ res_metadata r = chunk_metadata c /\
                res_file_path r = p.
Proof.
  intros env w p w'.
  assert (Hpg : forall n, store_fault (pg env) n = false) by (intros n; reflexivity).
  assert (Hol : forall n t, exists v, ollama env n t = Http200 v).
  { intros n t; exists [3; 4]%float; reflexivity. }
  assert (Hf : fetch_document p (db w) = None) by reflexivity.
  assert (Ho : can_open (tree env) p = true) by reflexivity.
  assert (Hc : chunks_of env p <> []) by (vm_compute; discriminate).
  assert (Hk : forall q,
             (Z.of_nat (length (joined (l2_distance (pg env)) q (db w'))) <= 10)%Z).
  { intros q; vm_compute; discriminate. }
  split; [exact Hpg|].
  split; [exact Hol|].
  split; [exact Hf|].
  split; [exact Ho|].
  split; [exact Hc|].
  split; [exact Hk|].
  exact (indexed_note_is_found env p w (py "x") 10 Hpg Hol Hf Ho Hc Hk).
Defined.

(** ** Clearing the tables *)

Lemma settled_pass_keeps_store (env : Env) (w : World) :
  (forall p, In p (rglob_md (tree env)) -> can_open (tree env) p = true ->
             nothing_to_do env p (db w)) ->
  db (run (index_all_files env) w) = db w.
Proof.
  intros H.
  unfold run.
  rewrite index_all_files_eq.
  destruct (store_fault (pg env) (length (pg_log w))); [reflexivity|].
  destruct (settled_pass_only_checks env (rglob_md (tree env))
              (run (print (Found (length (rglob_md (tree env))))) (log_stmt Connect w)))
    as (Hdb & _); [exact H|].
  exact Hdb.
Qed.

(** X14.  [raw_start] clears everything or says so.  If the connection
    cannot be opened the exception reaches the caller and nothing else
    happens.  Otherwise the connection is closed on every exit; the call
    returns normally only after all four statements, with both tables empty
    and both id sequences at 1; and if a statement fails, the exception is
    printed and raised again, the statements before it have taken effect and
    those after it were not sent. *)
Theorem raw_start_clears_or_raises (env : Env) (execute_fault : nat -> bool)
    (s : Maintenance.Session) :
  let n := length (pg_log (Maintenance.world s)) in
  let s' := Layer.after (Maintenance.raw_start env execute_fault) s in
  let w' := Maintenance.world s' in
  match Layer.outcome (Maintenance.raw_start env execute_fault) s with
  | Layer.Ok _ =>
      store_fault (pg env) n = false /\
      db w' = {| source_documents := []; document_chunks := [];
                 source_documents_id_seq := 1; document_chunks_id_seq := 1 |} /\
      pg_log w' = pg_log (Maintenance.world s) ++ [Connect; Close] /\
      Maintenance.executed s' = Maintenance.executed s ++ Maintenance.statements
  | Layer.Err e =>
      if store_fault (pg env) n
      then e = PostgresError n /\
           s' = {| Maintenance.world := log_stmt Connect (Maintenance.world s);
                   Maintenance.executed := Maintenance.executed s;
                   Maintenance.console := Maintenance.console s |}
      else
        pg_log w' = pg_log (Maintenance.world s) ++ [Connect; Close] /\
        exists k,
          (k < 4)%nat /\
          e = PostgresError (length (Maintenance.executed s) + k) /\
          execute_fault (length (Maintenance.executed s) + k)%nat = true /\
          Maintenance.executed s' =
            Maintenance.executed s ++ firstn (S k) Maintenance.statements /\
          db w' = fold_left (fun st stmt => Maintenance.sql stmt st)
                            (firstn k Maintenance.statements) (db (Maintenance.world s)) /\
          last (Maintenance.console s') Maintenance.Clearing = Maintenance.ClearingFailed e
  end.
Proof.
  intros n s' w'.
  unfold w', s', Layer.after, Layer.outcome, Maintenance.raw_start.
  unfold Layer.try_finally, Layer.try_except, Layer.bind, Maintenance.say,
    Maintenance.execute, Maintenance.in_world, close, connect, pg_call.
  fold n.
  destruct (store_fault (pg env) n) eqn:En; simpl.
  - split; reflexivity.
  - set (m := length (Maintenance.executed s)).
    destruct (execute_fault m) eqn:E0; simpl.
    { split; [now rewrite <- app_assoc|].
      exists 0%nat; rewrite Nat.add_0_r; fold m; simpl.
      rewrite last_last.
      repeat split; auto. }
    rewrite length_app; simpl; fold m.
    destruct (execute_fault (m + 1)%nat) eqn:E1; simpl.
    { split; [now rewrite <- app_assoc|].
      exists 1%nat; fold m; simpl.
      rewrite last_last, <- app_assoc.
      repeat split; auto. }
    rewrite !length_app; simpl; fold m.
    destruct (execute_fault (m + 1 + 1)%nat) eqn:E2; simpl.
    { split; [now rewrite <- app_assoc|].
      exists 2%nat; fold m; simpl.
      replace (m + 2)%nat with (m + 1 + 1)%nat by lia.
      rewrite last_last, <- !app_assoc.
      repeat split; auto. }
    rewrite !length_app; simpl; fold m.
    destruct (execute_fault (m + 1 + 1 + 1)%nat) eqn:E3; simpl.
    { split; [now rewrite <- app_assoc|].
      exists 3%nat; fold m; simpl.
      replace (m + 3)%nat with (m + 1 + 1 + 1)%nat by lia.
      rewrite last_last, <- !app_assoc.
      repeat split; auto. }
    rewrite <- !app_assoc; simpl.
    repeat split; auto.
Qed.

Lemma passes_preserve (I : World -> Prop) (env : Env) (k : nat) (w : World) :
  preserves I (index_all_files env) -> I w -> I (Maintenance.passes env k w).
Proof.
  intros Hp.
  revert w.
  induction k as [|k IH]; intros w Hw; simpl; [exact Hw|].
  apply IH, Hp, Hw.
Qed.

Lemma passes_keep_settled_store (env : Env) (k : nat) (w : World) :
  (forall p, In p (rglob_md (tree env)) -> can_open (tree env) p = true ->
             nothing_to_do env p (db w)) ->
  db (Maintenance.passes env k w) = db w.
Proof.
  revert w.
  induction k as [|k IH]; intros w H; simpl; [reflexivity|].
  pose proof (settled_pass_keeps_store env w H) as Hdb.
  rewrite IH; [exact Hdb|].
  now rewrite Hdb.
Qed.

Lemma raw_start_ok_clears (env : Env) (execute_fault : nat -> bool) (s : Maintenance.Session) :
  Layer.outcome (Maintenance.raw_start env execute_fault) s = Layer.Ok tt ->
  db (Maintenance.world (Layer.after (Maintenance.raw_start env execute_fault) s)) =
  {| source_documents := []; document_chunks := [];
     source_documents_id_seq := 1; document_chunks_id_seq := 1 |}.
Proof.
  unfold Layer.after, Layer.outcome, Maintenance.raw_start.
  unfold Layer.try_finally, Layer.try_except, Layer.bind, Maintenance.say,
    Maintenance.execute, Maintenance.in_world, close, connect, pg_call.
  destruct (store_fault (pg env) _); simpl; [discriminate|].
  repeat match goal with
         | |- context [if execute_fault ?n then _ else _] =>
             destruct (execute_fault n); simpl; [discriminate|]
         end.
  reflexivity.
Qed.

(** X15.  A clean start establishes the keys.  Whatever the tables held
    before, once [raw_start] has returned normally every state reached by
    any number of indexing passes, whatever fails during them, has one row
    per path, ids that are keys of both tables, sequences ahead of the ids
    in use, and no chunk without its document. *)
Theorem clean_start_establishes_the_keys (env : Env) (execute_fault : nat -> bool)
    (s : Maintenance.Session) :
  Layer.outcome (Maintenance.raw_start env execute_fault) s = Layer.Ok tt ->
  forall (env' : Env) (k : nat),
    let w := Maintenance.passes env' k
               (Maintenance.world (Layer.after (Maintenance.raw_start env execute_fault) s)) in
    unique_paths (db w) /\ keys_fresh (db w) /\ chunks_owned (db w).
Proof.
  intros Hok env' k w.
  pose proof (raw_start_ok_clears env execute_fault s Hok) as Hdb.
  unfold w.
  split; [|split].
  - apply (passes_preserve (fun w => unique_paths (db w)));
      [apply unique_paths_is_kept|].
    rewrite Hdb; constructor.
  - apply (passes_preserve (fun w => keys_fresh (db w)));
      [apply keys_fresh_is_kept|].
    rewrite Hdb.
    repeat split; simpl; try constructor; intros ? [].
  - apply (passes_preserve (fun w => chunks_owned (db w)));
      [apply owned_is_kept_by_pass|].
    rewrite Hdb.
    intros c [].
Qed.

Lemma clean_start_establishes_the_keys_witness :
  let s := Maintenance.session Library.filled in
  let works := fun _ : nat => false in
  Layer.outcome (Maintenance.raw_start Library.env works) s = Layer.Ok tt /\
  forall (env' : Env) (k : nat),
    let w := Maintenance.passes env' k
               (Maintenance.world (Layer.after (Maintenance.raw_start Library.env works) s)) in
    unique_paths (db w) /\ keys_fresh (db w) /\ chunks_owned (db w).
Proof.
  intros s works.
  assert (H : Layer.outcome (Maintenance.raw_start Library.env works) s = Layer.Ok tt)
    by reflexivity.
  split; [exact H|].
  exact (clean_start_establishes_the_keys Library.env works s H).
Defined.

Lemma search_without_chunks (env : Env) (query : str) (limit : Z) (w : World)
    (results : list SearchResult) :
  document_chunks (db w) = [] ->
  result (search_similar env query limit) w = Ret results ->
  results = [].
Proof.
  intros Hc.
  unfold result.
  rewrite search_similar_eq.
  destruct (store_fault (pg env) (length (pg_log w))); simpl; [discriminate|].
  destruct (ollama env (length (http_log w)) query) as [v|t|]; simpl; try discriminate.
  destruct ((limit <? 0)%Z || store_fault (pg env) (S (length (pg_log w)))); simpl;
    [discriminate|].
  intros [= <-].
  unfold sql_select_nearest, joined.
  rewrite Hc; simpl.
  apply firstn_nil.
Qed.

(** X16.  Clearing is not atomic, and a pass does not repair it.  Let every
    note of the tree that can be opened have its row with the current
    fingerprint.  If the
    connection opens, DELETE FROM document_chunks succeeds and DELETE FROM
    source_documents fails, [raw_start] raises that failure and leaves the
    documents with no chunk at all; after any number of indexing passes,
    whatever the services do, [document_chunks] is still empty,
    [source_documents] is as it was, and every search that returns, returns
    nothing. *)
Theorem failed_clearing_is_not_repaired (env : Env) (execute_fault : nat -> bool)
    (s : Maintenance.Session) :
  let m := length (Maintenance.executed s) in
  store_fault (pg env) (length (pg_log (Maintenance.world s))) = false ->
  execute_fault m = false ->
  execute_fault (S m) = true ->
  (forall p, In p (rglob_md (tree env)) -> can_open (tree env) p = true ->
     exists r, fetch_document p (db (Maintenance.world s)) = Some r /\
               calculate_file_hash env p = Ret (file_hash r)) ->
  Layer.outcome (Maintenance.raw_start env execute_fault) s = Layer.Err (PostgresError (S m)) /\
  forall k : nat,
    let w := Maintenance.passes env k
               (Maintenance.world (Layer.after (Maintenance.raw_start env execute_fault) s)) in
    document_chunks (db w) = [] /\
    source_documents (db w) = source_documents (db (Maintenance.world s)) /\
    forall (query : str) (limit : Z) (results : list SearchResult),
      result (search_similar env query limit) w = Ret results -> results = [].
Proof.
  intros m Hc H0 H1 Hrows.
  assert (E : Maintenance.raw_start env execute_fault s =
              (Layer.Err (PostgresError (S m)),
               {| Maintenance.world :=
                    log_stmt Close
                      (set_db (Maintenance.sql Maintenance.DeleteAllChunks
                                 (db (Maintenance.world s)))
                         (log_stmt Connect (Maintenance.world s)));
                  Maintenance.executed :=
                    Maintenance.executed s ++
                    [Maintenance.DeleteAllChunks; Maintenance.DeleteAllDocuments];
                  Maintenance.console :=
                    Maintenance.console s ++
                    [Maintenance.Clearing; Maintenance.ChunksCleared;
                     Maintenance.ClearingFailed (PostgresError (S m))] |})).
  { unfold Maintenance.raw_start.
    unfold Layer.try_finally, Layer.try_except, Layer.bind, Maintenance.say,
      Maintenance.execute, Maintenance.in_world, close, connect, pg_call.
    rewrite Hc; simpl.
    fold m; rewrite H0; simpl.
    rewrite length_app; simpl.
    replace (length (Maintenance.executed s) + 1)%nat with (S m) by (unfold m; lia).
    rewrite H1; simpl.
    unfold set_db, log_stmt; simpl.
    now rewrite <- !app_assoc. }
  unfold Layer.outcome, Layer.after.
  rewrite E; simpl.
  split; [reflexivity|].
  intros k.
  match goal with
  | |- context [Maintenance.passes env k ?w0] => set (w1 := w0)
  end.
  assert (Hdb : db (Maintenance.passes env k w1) = db w1).
  { apply passes_keep_settled_store.
    intros p Hp Ho.
    destruct (Hrows p Hp Ho) as (r & Hr & Hh).
    left; exists r; split; [exact Hr|exact Hh]. }
  cbv zeta.
  rewrite Hdb.
  split; [reflexivity|].
  split; [reflexivity|].
  intros query limit results.
  apply search_without_chunks.
  now rewrite Hdb.
Qed.

Lemma failed_clearing_is_not_repaired_witness :
  let s := Maintenance.session Runs.indexed in
  let second_fails := fun n : nat => Nat.eqb n 1 in
  length (document_chunks (db Runs.indexed)) = 1%nat /\
  Layer.outcome (Maintenance.raw_start Runs.one_note second_fails) s =
    Layer.Err (PostgresError 1) /\
  forall k : nat,
    let w := Maintenance.passes Runs.one_note k
               (Maintenance.world
                  (Layer.after (Maintenance.raw_start Runs.one_note second_fails) s)) in
    document_chunks (db w) = [] /\
    source_documents (db w) = source_documents (db Runs.indexed) /\
    forall (query : str) (limit : Z) (results : list SearchResult),
      result (search_similar Runs.one_note query limit) w = Ret results -> results = [].
Proof.
  intros s second_fails.
  split; [reflexivity|].
  apply (failed_clearing_is_not_repaired Runs.one_note second_fails s).
  - reflexivity.
  - reflexivity.
  - reflexivity.
  - intros p [<-|[]] _.
    exists Runs.hello_row.
    split; vm_compute; reflexivity.
Defined.

(** ** The text of an answer and its parts *)

Lemma response_from_entries (relevance : Q -> str) (results : list SearchResult) :
  forall (i : nat) (response_text : str),
    Bot.response_from relevance i results response_text =
    response_text ++ concat (Bot.entries_from relevance i results).
Proof.
  induction results as [|r rest IH]; intros i acc; cbn [Bot.response_from Bot.entries_from concat].
  - now rewrite app_nil_r.
  - now rewrite IH, app_assoc.
Qed.

Lemma entry_not_empty (relevance : Q -> str) (i : nat) (r : SearchResult) :
  Bot.entry relevance i r <> [].
Proof. unfold Bot.entry; simpl; discriminate. Qed.

Lemma header_not_empty (query : str) (results : list SearchResult) :
  Bot.header query results <> [].
Proof. unfold Bot.header; simpl; discriminate. Qed.

Lemma split_from_spec (relevance : Q -> str) (results : list SearchResult) :
  forall (i : nat) (parts : list str) (current_part : str) (ps : list str) (c : str),
    Bot.split_from relevance i results parts current_part = (ps, c) ->
    concat ps ++ c =
      concat parts ++ current_part ++ concat (Bot.entries_from relevance i results) /\
    (length ps <= length parts + length results)%nat /\
    (current_part <> [] -> Forall (fun p => p <> []) parts ->
     c <> [] /\ Forall (fun p => p <> []) ps) /\
    (Forall (fun e => (length e <= 4000)%nat) (Bot.entries_from relevance i results) ->
     (length current_part <= 4000)%nat ->
     Forall (fun p => (length p <= 4000)%nat) parts ->
     (length c <= 4000)%nat /\ Forall (fun p => (length p <= 4000)%nat) ps).
Proof.
  induction results as [|r rest IH]; intros i parts cur ps c;
    cbn [Bot.split_from Bot.entries_from concat].
  - intros [= <- <-].
    rewrite !app_nil_r.
    repeat split; auto; lia.
  - cbv zeta.
    destruct (Nat.ltb_spec 4000 (length (cur ++ Bot.entry relevance i r))) as [Hlong|Hfits];
      intros E; destruct (IH _ _ _ _ _ E) as (Hcat & Hlen & Hne & Hsz).
    + split; [|split; [|split]].
      * rewrite Hcat, concat_app; simpl.
        now rewrite app_nil_r, <- !app_assoc.
      * rewrite length_app in Hlen; simpl in *; lia.
      * intros Hcur Hparts.
        apply Hne; [apply entry_not_empty|].
        apply Forall_app; split; [exact Hparts|].
        now constructor.
      * intros He Hcur Hparts.
        inversion He as [|? ? He1 He2]; subst.
        apply Hsz; [exact He2|exact He1|].
        apply Forall_app; split; [exact Hparts|].
        now constructor.
    + split; [|split; [|split]].
      * rewrite Hcat.
        now rewrite <- !app_assoc.
      * simpl; lia.
      * intros Hcur Hparts.
        apply Hne; [|exact Hparts].
        destruct cur; [contradiction|discriminate].
      * intros He Hcur Hparts.
        inversion He as [|? ? He1 He2]; subst.
        apply Hsz; [exact He2|exact Hfits|exact Hparts].
Qed.

Lemma split_response_spec (relevance : Q -> str) (query : str) (results : list SearchResult) :
  let parts := Bot.split_response relevance query results in
  concat parts = Bot.response_from relevance 1 results (Bot.header query results) /\
  parts <> [] /\
  Forall (fun p => p <> []) parts /\
  (length parts <= S (length results))%nat /\
  ((length (Bot.header query results) <= 4000)%nat ->
   Forall (fun e => (length e <= 4000)%nat) (Bot.entries_from relevance 1 results) ->
   Forall (fun p => (length p <= 4000)%nat) parts).
Proof.
  unfold Bot.split_response.
  destruct (Bot.split_from relevance 1 results [] (Bot.header query results))
    as [ps c] eqn:E.
  destruct (split_from_spec relevance results _ _ _ _ _ E) as (Hcat & Hlen & Hne & Hsz).
  destruct (Hne (header_not_empty query results) (Forall_nil _)) as (Hc & Hps).
  destruct c as [|x c]; [contradiction|].
  cbn [truthy].
  cbv zeta.
  split; [|split; [|split; [|split]]].
  - rewrite concat_app; simpl.
    rewrite app_nil_r, Hcat; simpl.
    now rewrite response_from_entries.
  - destruct ps; discriminate.
  - apply Forall_app; split; [exact Hps|].
    now constructor.
  - rewrite length_app; simpl in *; lia.
  - intros Hh He.
    destruct (Hsz He Hh (Forall_nil _)) as (Hc' & Hps').
    apply Forall_app; split; [exact Hps'|].
    now constructor.
Qed.

(** X17.  A long answer is split without loss.  The parts that
    [handle_search_query] makes of an answer, put end to end, are the
    answer: the header followed by the entry of every result, in order.
    There is at least one part, no part is empty, and there are at most as
    many parts as results, plus one. *)
Theorem long_answer_is_split_without_loss (relevance : Q -> str) (query : str)
    (results : list SearchResult) :
  let parts := Bot.split_response relevance query results in
  concat parts =
    Bot.header query results ++ concat (Bot.entries_from relevance 1 results) /\
  concat parts = Bot.response_from relevance 1 results (Bot.header query results) /\
  parts <> [] /\
  Forall (fun p => p <> []) parts /\
  (length parts <= S (length results))%nat.
Proof.
  intros parts.
  destruct (split_response_spec relevance query results) as (Hcat & Hne & Hall & Hlen & _).
  fold parts in Hcat, Hne, Hall, Hlen.
  split; [|tauto].
  now rewrite Hcat, response_from_entries.
Qed.

(** X18.  The parts fit a message.  If the header and every entry have at
    most 4000 characters, every part of a long answer has at most 4000
    characters. *)
Theorem parts_fit_a_message (relevance : Q -> str) (query : str)
    (results : list SearchResult) :
  (length (Bot.header query results) <= 4000)%nat ->
  Forall (fun e => (length e <= 4000)%nat) (Bot.entries_from relevance 1 results) ->
  Forall (fun p => (length p <= 4000)%nat) (Bot.split_response relevance query results).
Proof.
  intros Hh He.
  destruct (split_response_spec relevance query results) as (_ & _ & _ & _ & Hsz).
  now apply Hsz.
Qed.

Lemma all_fit (l : list str) :
  forallb (fun e => (length e <=? 4000)%nat) l = true ->
  Forall (fun e => (length e <= 4000)%nat) l.
Proof.
  intros H.
  apply Forall_forall.
  intros e He.
  apply Nat.leb_le.
  revert e He.
  now apply forallb_forall.
Qed.

Lemma parts_fit_a_message_witness :
  let query := py "hello" in
  let parts := Bot.split_response Crowded.relevance query Crowded.results in
  (length (Bot.header query Crowded.results) <= 4000)%nat /\
  Forall (fun e => (length e <= 4000)%nat)
         (Bot.entries_from Crowded.relevance 1 Crowded.results) /\
  (4000 <? length (concat parts))%nat = true /\
  length parts = 2%nat /\
  Forall (fun p => (length p <= 4000)%nat) parts.
Proof.
  intros query parts.
  assert (Hh : (length (Bot.header query Crowded.results) <= 4000)%nat).
  { apply Nat.leb_le; vm_compute; reflexivity. }
  assert (He : Forall (fun e => (length e <= 4000)%nat)
                      (Bot.entries_from Crowded.relevance 1 Crowded.results)).
  { apply all_fit; vm_compute; reflexivity. }
  split; [exact Hh|].
  split; [exact He|].
  split; [vm_compute; reflexivity|].
  split; [vm_compute; reflexivity|].
  exact (parts_fit_a_message Crowded.relevance query Crowded.results Hh He).
Defined.

(** ** The handlers of the bot *)

(** X19.  No exception of the indexer leaves a handler.  Whatever the
    store, the embedding service and Telegram do, the only exception that
    [handle_search_query] or [cmd_reindex] lets through is the failure of
    one of its own calls to Telegram. *)
Theorem handlers_raise_only_telegram_errors (env : Env) (telegram_fault : nat -> bool)
    (relevance : Q -> str) (message_text : str) (c : Bot.Chat) :
  match Layer.outcome (Bot.handle_search_query env telegram_fault relevance message_text) c with
  | Layer.Ok _ => True
  | Layer.Err e => exists n, e = Bot.TelegramError n /\ telegram_fault n = true
  end /\
  match Layer.outcome (Bot.cmd_reindex env telegram_fault) c with
  | Layer.Ok _ => True
  | Layer.Err e => exists n, e = Bot.TelegramError n /\ telegram_fault n = true
  end.
Proof.
  split.
  - unfold Layer.outcome, Bot.handle_search_query, Bot.indexer_is_none.
    unfold Layer.bind at 1.
    destruct (Bot.indexer c); cbn [negb].
    + unfold Layer.bind at 1, Bot.answer at 1.
      destruct (telegram_fault (Bot.calls c)) eqn:E0; [simpl; eauto|].
      unfold Layer.try_except.
      match goal with
      | |- context [match ?body ?s0 with _ => _ end] =>
          destruct (body s0) as [[u|e] c1]
      end; [exact I|].
      unfold Layer.bind, Bot.logger, Bot.edit_text; simpl.
      destruct (telegram_fault (Bot.calls c1)) eqn:E1; simpl; eauto.
    + unfold Layer.bind, Bot.answer, Layer.ret.
      destruct (telegram_fault (Bot.calls c)) eqn:E0; simpl; eauto.
  - unfold Layer.outcome, Bot.cmd_reindex.
    unfold Layer.bind at 1, Bot.answer at 1.
    destruct (telegram_fault (Bot.calls c)) eqn:E0; [simpl; eauto|].
    unfold Layer.try_except.
    match goal with
    | |- context [match ?body ?s0 with _ => _ end] =>
        destruct (body s0) as [[u|e] c1]
    end; [exact I|].
    unfold Layer.bind, Bot.logger, Bot.answer, Layer.ret; simpl.
    destruct (telegram_fault (Bot.calls c1)) eqn:E1; simpl; eauto.
Qed.

Lemma replace_at_last {A} (l : list A) (x y : A) :
  Bot.replace_at (length l) x (l ++ [y]) = l ++ [x].
Proof. induction l as [|a l IH]; simpl; congruence. Qed.

Lemma answers_when_reachable (telegram_fault : nat -> bool) (others : list str) :
  (forall n, telegram_fault n = false) ->
  forall c : Bot.Chat,
    Layer.for_each others
      (fun part => Layer.bind (Bot.answer telegram_fault (Bot.Results part))
                              (fun _ => Layer.ret tt)) c =
    (Layer.Ok tt,
     {| Bot.world := Bot.world c; Bot.indexer := Bot.indexer c;
        Bot.messages := Bot.messages c ++ map Bot.Results others;
        Bot.calls := length others + Bot.calls c;
        Bot.log := Bot.log c |}).
Proof.
  intros Htf.
  induction others as [|part others IH]; intros c; simpl.
  - rewrite app_nil_r.
    now destruct c.
  - unfold Layer.bind at 1 2, Bot.answer at 1.
    rewrite Htf.
    unfold Layer.ret at 1.
    rewrite IH; simpl.
    now rewrite <- app_assoc, Nat.add_succ_r.
Qed.

(** X20.  Every query gets its answer.  With Telegram reachable,
    [handle_search_query] returns normally and adds to the chat: the warning
    alone, without any search, while the indexer is not set; otherwise the
    messages that replace the notice of the search, which are the failure
    when the search raised, the apology when it found nothing, and else the
    parts of the answer, a single one when the answer has at most 4000
    characters.  The notice itself never stays, and the world is the one
    the search left. *)
Theorem search_query_is_answered (env : Env) (telegram_fault : nat -> bool)
    (relevance : Q -> str) (query : str) (c : Bot.Chat) :
  (forall n, telegram_fault n = false) ->
  let c' := Layer.after (Bot.handle_search_query env telegram_fault relevance query) c in
  Layer.outcome (Bot.handle_search_query env telegram_fault relevance query) c = Layer.Ok tt /\
  Bot.indexer c' = Bot.indexer c /\
  if Bot.indexer c
  then
    Bot.world c' = run (search_similar env query 10) (Bot.world c) /\
    match result (search_similar env query 10) (Bot.world c) with
    | Raise e =>
        Bot.messages c' = Bot.messages c ++ [Bot.SearchFailed (Bot.IndexerFailed e)]
    | Ret [] =>
        Bot.messages c' = Bot.messages c ++ [Bot.NothingFound]
    | Ret results =>
        let response_text :=
          Bot.header query results ++ concat (Bot.entries_from relevance 1 results) in
        exists parts,
          Bot.messages c' = Bot.messages c ++ map Bot.Results parts /\
          parts <> [] /\
          concat parts = response_text /\
          ((length response_text <= 4000)%nat -> parts = [response_text])
    end
  else
    Bot.world c' = Bot.world c /\
    Bot.messages c' = Bot.messages c ++ [Bot.NotInitialised].
Proof.
  intros Htf c'.
  unfold c', Layer.after, Layer.outcome, result, run.
  destruct (Bot.handle_search_query env telegram_fault relevance query c) as [o c1] eqn:E.
  cbn [fst snd].
  revert E.
  unfold Bot.handle_search_query, Bot.indexer_is_none.
  unfold Layer.bind at 1.
  destruct (Bot.indexer c) eqn:Ei; cbn [negb].
  - unfold Layer.bind at 1, Bot.answer at 1.
    rewrite Htf.
    unfold Layer.try_except.
    unfold Layer.bind at 1, Bot.in_world at 1.
    cbn [Bot.world Bot.called].
    destruct (search_similar env query 10 (Bot.world c)) as [[results|e] w1];
      cbn [Layer.seen fst snd].
    + destruct results as [|r rest]; cbn [truthy negb].
      * unfold Bot.edit_text; simpl.
        rewrite Htf; simpl.
        rewrite replace_at_last.
        intros [= <- <-]; simpl; auto.
      * rewrite response_from_entries.
        set (results := r :: rest).
        set (response_text :=
               Bot.header query results ++ concat (Bot.entries_from relevance 1 results)).
        destruct (Nat.ltb_spec 4000 (length response_text)) as [Hlong|Hfits].
        -- destruct (split_response_spec relevance query results) as (Hcat & Hne & _).
           rewrite response_from_entries in Hcat.
           fold response_text in Hcat.
           destruct (Bot.split_response relevance query results) as [|first others];
             [contradiction|].
           unfold Layer.bind, Bot.edit_text; simpl.
           rewrite Htf; simpl.
           rewrite (answers_when_reachable telegram_fault others Htf); simpl.
           rewrite replace_at_last, <- app_assoc; simpl.
           intros [= <- <-]; simpl.
           repeat split; auto.
           exists (first :: others).
           repeat split; auto.
           intros Hc; exfalso.
           apply (Nat.lt_irrefl 4000).
           eapply Nat.lt_le_trans; [exact Hlong|exact Hc].
        -- unfold Bot.edit_text; simpl.
           rewrite Htf; simpl.
           rewrite replace_at_last.
           intros [= <- <-]; simpl.
           repeat split; auto.
           exists [response_text]; simpl.
           rewrite app_nil_r.
           repeat split; auto.
           discriminate.
    + unfold Layer.bind, Bot.logger, Bot.edit_text; simpl.
      rewrite Htf; simpl.
      rewrite replace_at_last.
      intros [= <- <-]; simpl; auto.
  - unfold Layer.bind, Bot.answer, Layer.ret.
    rewrite Htf; simpl.
    intros [= <- <-]; simpl; auto.
Qed.

Lemma search_query_is_answered_witness :
  let c := {| Bot.world := Runs.indexed; Bot.indexer := true; Bot.messages := [Bot.Greeting];
              Bot.calls := 1; Bot.log := [] |} in
  let query := py "hello" in
  let c' := Layer.after (Bot.handle_search_query Runs.one_note Bot.reachable
                           Crowded.relevance query) c in
  (forall n, Bot.reachable n = false) /\
  length (Bot.messages c') = 2%nat /\
  Layer.outcome (Bot.handle_search_query Runs.one_note Bot.reachable
                   Crowded.relevance query) c = Layer.Ok tt /\
  Bot.indexer c' = Bot.indexer c /\
  if Bot.indexer c
  then
    Bot.world c' = run (search_similar Runs.one_note query 10) (Bot.world c) /\
    match result (search_similar Runs.one_note query 10) (Bot.world c) with
    | Raise e =>
        Bot.messages c' = Bot.messages c ++ [Bot.SearchFailed (Bot.IndexerFailed e)]
    | Ret [] =>
        Bot.messages c' = Bot.messages c ++ [Bot.NothingFound]
    | Ret results =>
        let response_text :=
          Bot.header query results ++
          concat (Bot.entries_from Crowded.relevance 1 results) in
        exists parts,
          Bot.messages c' = Bot.messages c ++ map Bot.Results parts /\
          parts <> [] /\
          concat parts = response_text /\
          ((length response_text <= 4000)%nat -> parts = [response_text])
    end
  else
    Bot.world c' = Bot.world c /\
    Bot.messages c' = Bot.messages c ++ [Bot.NotInitialised].
Proof.
  intros c query c'.
  assert (H : forall n, Bot.reachable n = false) by reflexivity.
  split; [exact H|].
  split; [vm_compute; reflexivity|].
  exact (search_query_is_answered Runs.one_note Bot.reachable Crowded.relevance query c H).
Defined.


